(** * bscotch-release: next release tag of the fork

    Shallow embedding of the version/tag resolution of
    [src/bscotch-release.mjs] (lines 25-33 and the utilities
    [getMatchingTags], [maxVersion], [getMaxMatchingTag]).

    The script relies on three things that live outside of it:
    - JavaScript strings, [String.prototype.startsWith], [Array.prototype.sort]
      (a stable sort) and template literals;
    - [git tag --list <pattern>], which prints the tags matching a wildmatch
      pattern, one per line, ordered by refname;
    - the npm package [semver] (node-semver 7, strict mode): [semver.compare]
      and [semver.inc].
    They are embedded below as far as the script uses them.  Strings are
    lists of 8-bit characters. *)

From Stdlib Require Import List Ascii String Arith NArith Bool Lia Permutation Sorted.
Import ListNotations.
Open Scope N_scope.
Open Scope list_scope.

(** ** Strings *)

Definition str := list ascii.

(** A string literal of the source. *)
Definition lit (s : string) : str := list_ascii_of_string s.

Definition str_eqb (a b : str) : bool :=
  if list_eq_dec ascii_dec a b then true else false.

(** [String.prototype.startsWith]. *)
Fixpoint startsWith (s p : str) {struct p} : bool :=
  match p, s with
  | [], _ => true
  | c :: p', d :: s' => Ascii.eqb c d && startsWith s' p'
  | _ :: _, [] => false
  end.

(** [String.prototype.split] on a one-character separator: always at least
    one piece. *)
Fixpoint split (sep : ascii) (s : str) : list str :=
  match s with
  | [] => [[]]
  | c :: s' =>
      if Ascii.eqb c sep then [] :: split sep s'
      else match split sep s' with
           | [] => [[c]]
           | w :: ws => (c :: w) :: ws
           end
  end.

(** [Array.prototype.join] on a one-character separator. *)
Fixpoint join (sep : ascii) (l : list str) : str :=
  match l with
  | [] => []
  | [w] => w
  | w :: ws => w ++ sep :: join sep ws
  end.

(** Cut a string at the first occurrence of a character. *)
Fixpoint cut (sep : ascii) (s : str) : str * option str :=
  match s with
  | [] => ([], None)
  | c :: s' =>
      if Ascii.eqb c sep then ([], Some s')
      else let (a, b) := cut sep s' in (c :: a, b)
  end.

(** White space removed by [String.prototype.trim] (the 8-bit part). *)
Definition is_space (c : ascii) : bool :=
  let n := N_of_ascii c in
  (n =? 32) || ((9 <=? n) && (n <=? 13)) || (n =? 160).

Fixpoint trimStart (s : str) : str :=
  match s with
  | c :: s' => if is_space c then trimStart s' else s
  | [] => []
  end.

Definition trim (s : str) : str := rev (trimStart (rev (trimStart s))).

(** ** Decimal numerals *)

Definition is_digit (c : ascii) : bool :=
  let n := N_of_ascii c in (48 <=? n) && (n <=? 57).

Definition digit_val (c : ascii) : N := N_of_ascii c - 48.

Definition digit_char (d : N) : ascii := ascii_of_N (48 + d).

(** [+s] for a string of digits, as an exact integer. *)
Definition digits_value (s : str) : N :=
  fold_left (fun acc c => 10 * acc + digit_val c) s 0.

Fixpoint to_digits (fuel : nat) (n : N) (acc : str) : str :=
  match fuel with
  | O => digit_char (n mod 10) :: acc
  | S f =>
      if n <? 10 then digit_char n :: acc
      else to_digits f (n / 10) (digit_char (n mod 10) :: acc)
  end.

(** [String(n)] for a non-negative integer below 1e21. *)
Definition print_N (n : N) : str := to_digits (N.to_nat (N.size n)) n [].

(** [/^[0-9]+$/] *)
Definition all_digits (s : str) : bool :=
  match s with
  | [] => false
  | _ => forallb is_digit s
  end.

(** [0|[1-9]\d*] *)
Definition is_numeric_identifier (s : str) : bool :=
  all_digits s &&
  match s with
  | c :: _ :: _ => negb (Ascii.eqb c "0")
  | _ => true
  end.

(** ** node-semver (strict mode), as far as the script uses it *)

Module semver.

Definition MAX_LENGTH : nat := 256.
Definition MAX_SAFE_INTEGER : N := 9007199254740991.

(** A prerelease identifier of a [SemVer] object: a JavaScript number or a
    string. *)
Inductive ident : Type :=
| PNum (n : N)
| PStr (s : str).

Record SemVer : Type := mkSemVer {
  major : N;
  minor : N;
  patch : N;
  prerelease : list ident;
  build : list str
}.

(** [[0-9A-Za-z-]] *)
Definition is_ident_char (c : ascii) : bool :=
  let n := N_of_ascii c in
  is_digit c || ((65 <=? n) && (n <=? 90)) || ((97 <=? n) && (n <=? 122))
  || (n =? 45).

(** [0|[1-9]\d*|\d*[a-zA-Z-][a-zA-Z0-9-]*] *)
Definition is_prerelease_identifier (s : str) : bool :=
  match s with
  | [] => false
  | _ => forallb is_ident_char s && (is_numeric_identifier s || negb (all_digits s))
  end.

(** [[0-9A-Za-z-]+] *)
Definition is_build_identifier (s : str) : bool :=
  match s with
  | [] => false
  | _ => forallb is_ident_char s
  end.

(** The [map] of the constructor over the prerelease identifiers: digits
    become a number when they are below [MAX_SAFE_INTEGER]. *)
Definition to_ident (s : str) : ident :=
  if all_digits s && (digits_value s <? MAX_SAFE_INTEGER) then PNum (digits_value s)
  else PStr s.

Definition strip_v (s : str) : str :=
  match s with
  | "v"%char :: s' => s'
  | _ => s
  end.

(** [new SemVer(version)]: [None] stands for the [TypeError] it throws.
    The regular expression FULL is an optional [v], three numeric
    identifiers separated by dots, optionally [-] and dot-separated
    prerelease identifiers, optionally [+] and dot-separated build
    identifiers, anchored at both ends.  The main version holds neither [-]
    nor [+] and a prerelease holds no [+], so the match is found by cutting
    at the first [+] and then at the first [-]. *)
Definition parse (version : str) : option SemVer :=
  if Nat.ltb MAX_LENGTH (List.length version) then None else
  let (mp, b) := cut "+" (strip_v (trim version)) in
  let (m, p) := cut "-" mp in
  match split "." m with
  | [ma; mi; pa] =>
      if is_numeric_identifier ma && is_numeric_identifier mi
         && is_numeric_identifier pa
         && forallb is_prerelease_identifier
              (match p with Some p' => split "." p' | None => [] end)
         && forallb is_build_identifier
              (match b with Some b' => split "." b' | None => [] end)
         && (digits_value ma <=? MAX_SAFE_INTEGER)
         && (digits_value mi <=? MAX_SAFE_INTEGER)
         && (digits_value pa <=? MAX_SAFE_INTEGER)
      then Some {| major := digits_value ma;
                   minor := digits_value mi;
                   patch := digits_value pa;
                   prerelease :=
                     match p with
                     | Some p' => map to_ident (split "." p')
                     | None => []
                     end;
                   build :=
                     match b with Some b' => split "." b' | None => [] end |}
      else None
  | _ => None
  end.

Definition ident_string (i : ident) : str :=
  match i with
  | PNum n => print_N n
  | PStr s => s
  end.

(** [SemVer.prototype.format]: the [version] field. *)
Definition format (v : SemVer) : str :=
  print_N (major v) ++ "."%char :: print_N (minor v) ++ "."%char :: print_N (patch v)
  ++ match prerelease v with
     | [] => []
     | pre => "-"%char :: join "." (map ident_string pre)
     end.

(** The value of the nearest double (ties to even) of an integer below
    2^1024: what [+a] is for a string of digits. *)
Definition to_double (n : N) : N :=
  if n <? 2 ^ 53 then n
  else
    let e := N.log2 n - 52 in
    let q := n / 2 ^ e in
    let r := n mod 2 ^ e in
    let half := 2 ^ (e - 1) in
    if r <? half then q * 2 ^ e
    else if half <? r then (q + 1) * 2 ^ e
    else if N.even q then q * 2 ^ e
    else (q + 1) * 2 ^ e.

(** [/^[0-9]+$/.test(a)] *)
Definition numeric_test (a : ident) : bool :=
  match a with
  | PNum _ => true
  | PStr s => all_digits s
  end.

(** [+a] for an identifier that passes [numeric_test]. *)
Definition ident_number (a : ident) : N :=
  match a with
  | PNum n => n
  | PStr s => to_double (digits_value s)
  end.

(** [a === b] *)
Definition ident_identical (a b : ident) : bool :=
  match a, b with
  | PNum n, PNum m => n =? m
  | PStr s, PStr t => str_eqb s t
  | _, _ => false
  end.

(** [a < b] on strings: code units, left to right. *)
Fixpoint str_ltb (a b : str) : bool :=
  match a, b with
  | _, [] => false
  | [], _ :: _ => true
  | c :: a', d :: b' =>
      if N_of_ascii c <? N_of_ascii d then true
      else if N_of_ascii d <? N_of_ascii c then false
      else str_ltb a' b'
  end.

(** [compareIdentifiers(a, b)] for prerelease identifiers. *)
Definition compareIdentifiers (a b : ident) : comparison :=
  if numeric_test a && numeric_test b then ident_number a ?= ident_number b
  else if ident_identical a b then Eq
  else if numeric_test a then Lt
  else if numeric_test b then Gt
  else if str_ltb (ident_string a) (ident_string b) then Lt else Gt.

(** [x || y] on comparison results. *)
Definition or_else (x y : comparison) : comparison :=
  match x with Eq => y | _ => x end.

Definition compareMain (a b : SemVer) : comparison :=
  or_else (major a ?= major b)
    (or_else (minor a ?= minor b) (patch a ?= patch b)).

(** The loop of [comparePre]. *)
Fixpoint comparePreLoop (a b : list ident) : comparison :=
  match a, b with
  | [], [] => Eq
  | _ :: _, [] => Gt
  | [], _ :: _ => Lt
  | x :: a', y :: b' =>
      if ident_identical x y then comparePreLoop a' b'
      else compareIdentifiers x y
  end.

Definition comparePre (a b : SemVer) : comparison :=
  match prerelease a, prerelease b with
  | _ :: _, [] => Lt
  | [], _ :: _ => Gt
  | [], [] => Eq
  | pa, pb => comparePreLoop pa pb
  end.

(** [SemVer.prototype.compare] *)
Definition compareSemVer (a b : SemVer) : comparison :=
  if str_eqb (format a) (format b) then Eq
  else or_else (compareMain a b) (comparePre a b).

(** [semver.compare(a, b)]: [None] when one of the two does not parse (the
    constructor throws). *)
Definition compare (a b : str) : option comparison :=
  match parse a, parse b with
  | Some x, Some y => Some (compareSemVer x y)
  | _, _ => None
  end.


(** *** [Number(s)] is not [NaN]

    Prerelease identifiers hold only [[0-9A-Za-z-]], so of the numeric
    string literals only these forms can occur: an optional [-] before
    [Infinity] or decimal digits with an optional exponent ([e] or [E], an
    optional [-], digits), and the unsigned [0x], [0o] and [0b] literals. *)

Fixpoint span (f : ascii -> bool) (s : str) : str * str :=
  match s with
  | c :: s' => if f c then let (a, b) := span f s' in (c :: a, b) else ([], s)
  | [] => ([], [])
  end.

Definition strip_minus (s : str) : str :=
  match s with
  | "-"%char :: s' => s'
  | _ => s
  end.

Definition is_unsigned_decimal_literal (s : str) : bool :=
  str_eqb s (lit "Infinity") ||
  let (d, r) := span is_digit s in
  all_digits d &&
  match r with
  | [] => true
  | c :: r' =>
      (Ascii.eqb c "e" || Ascii.eqb c "E") && all_digits (strip_minus r')
  end.

Definition is_radix_digit (radix : N) (c : ascii) : bool :=
  let n := N_of_ascii c in
  ((48 <=? n) && (n <? 48 + N.min radix 10))
  || ((97 <=? n) && (n <? 97 + (radix - 10)))
  || ((65 <=? n) && (n <? 65 + (radix - 10))).

Definition is_radix_literal (s : str) : bool :=
  match s with
  | "0"%char :: c :: d :: r =>
      if Ascii.eqb c "x" || Ascii.eqb c "X" then forallb (is_radix_digit 16) (d :: r)
      else if Ascii.eqb c "o" || Ascii.eqb c "O" then forallb (is_radix_digit 8) (d :: r)
      else if Ascii.eqb c "b" || Ascii.eqb c "B" then forallb (is_radix_digit 2) (d :: r)
      else false
  | _ => false
  end.

Definition is_numeric_literal (s : str) : bool :=
  is_unsigned_decimal_literal (strip_minus s) || is_radix_literal s.

(** [isNaN(x)] for an element of the prerelease array, [None] being
    [undefined]. *)
Definition isNaN (x : option ident) : bool :=
  match x with
  | None => true
  | Some (PNum _) => false
  | Some (PStr s) => negb (is_numeric_literal s)
  end.

(** *** [SemVer.prototype.inc] *)

(** The loop of case ['pre']: the last identifier that is a number is
    incremented; [None] when there is none. *)
Fixpoint inc_last_number (pre : list ident) : option (list ident) :=
  match pre with
  | [] => None
  | x :: pre' =>
      match inc_last_number pre' with
      | Some r => Some (x :: r)
      | None =>
          match x with
          | PNum n => Some (PNum (n + 1) :: pre')
          | PStr _ => None
          end
      end
  end.

(** Case ['pre'] with an identifier. *)
Definition inc_pre (identifier : str) (v : SemVer) : SemVer :=
  let pre1 :=
    match prerelease v with
    | [] => [PNum 0]
    | pre =>
        match inc_last_number pre with
        | Some r => r
        | None => pre ++ [PNum 0]
        end
    end in
  let pre2 :=
    if ident_identical (hd (PNum 0) pre1) (PStr identifier) then
      if isNaN (nth_error pre1 1) then [PStr identifier; PNum 0] else pre1
    else [PStr identifier; PNum 0] in
  {| major := major v; minor := minor v; patch := patch v;
     prerelease := pre2; build := build v |}.

(** Case ['patch']. *)
Definition inc_patch (v : SemVer) : SemVer :=
  {| major := major v; minor := minor v;
     patch := match prerelease v with [] => patch v + 1 | _ => patch v end;
     prerelease := []; build := build v |}.

(** Case ['prerelease']. *)
Definition inc_prerelease (identifier : str) (v : SemVer) : SemVer :=
  inc_pre identifier
    (match prerelease v with [] => inc_patch v | _ => v end).

(** [semver.inc(version, "prerelease", identifier)]: [None] is [null]. *)
Definition inc (version identifier : str) : option str :=
  match parse version with
  | Some v => Some (format (inc_prerelease identifier v))
  | None => None
  end.

End semver.

(** ** JavaScript arrays *)

(** What a call can do besides returning: throw a [TypeError]. *)
Inductive result (A : Type) : Type :=
| Ok (a : A)
| TypeError.
Arguments Ok {A} a.
Arguments TypeError {A}.

Section Sort.
Variable compareFn : str -> str -> option comparison.

Fixpoint sort_insert (x : str) (l : list str) : result (list str) :=
  match l with
  | [] => Ok [x]
  | y :: l' =>
      match compareFn x y with
      | None => TypeError
      | Some Gt =>
          match sort_insert x l' with
          | Ok r => Ok (y :: r)
          | TypeError => TypeError
          end
      | Some _ => Ok (x :: l)
      end
  end.

(** [Array.prototype.sort(compareFn)], a stable sort, as an insertion sort:
    an array of one element is returned without a call of [compareFn];
    with two or more elements every element is compared at least once, and
    [compareFn] throwing ends the sort. *)
Fixpoint sort (l : list str) : result (list str) :=
  match l with
  | [] => Ok []
  | x :: l' =>
      match sort l' with
      | Ok r => sort_insert x r
      | TypeError => TypeError
      end
  end.
End Sort.

(** [a[a.length - 1]]: [None] is [undefined]. *)
Definition last_elt (l : list str) : option str :=
  match l with
  | [] => None
  | _ => Some (last l [])
  end.

(** ** git *)

(** wildmatch for patterns made of literal characters and [*]. *)
Fixpoint wildmatch (p s : str) : bool :=
  match p with
  | [] => match s with [] => true | _ :: _ => false end
  | c :: p' =>
      if Ascii.eqb c "*" then
        (fix star (s : str) : bool :=
           wildmatch p' s ||
           match s with
           | [] => false
           | _ :: s' => star s'
           end) s
      else
        match s with
        | d :: s' => Ascii.eqb c d && wildmatch p' s'
        | [] => false
        end
  end.

(** [strcmp(a, b) <= 0] *)
Fixpoint str_leb (a b : str) : bool :=
  match a, b with
  | [], _ => true
  | _ :: _, [] => false
  | c :: a', d :: b' =>
      if N_of_ascii c <? N_of_ascii d then true
      else if N_of_ascii d <? N_of_ascii c then false
      else str_leb a' b'
  end.

Fixpoint refname_insert (x : str) (l : list str) : list str :=
  match l with
  | [] => [x]
  | y :: l' => if str_leb x y then x :: l else y :: refname_insert x l'
  end.

(** The default order of [git tag]: by refname. *)
Definition refname_sort (l : list str) : list str :=
  fold_right refname_insert [] l.

Definition newline : ascii := ascii_of_N 10.

(** The standard output of [git tag --list <pattern>] in a repository whose
    tags are [tags]: the matching tags in refname order, one per line.  (The
    command goes through the shell, which leaves the pattern as it is when
    no file of the working directory matches it; [tag.sort] is not set.) *)
Definition git_tag_list (tags : list str) (pattern : str) : str :=
  List.concat (map (fun t => t ++ [newline])
              (refname_sort (filter (wildmatch pattern) tags))).

(** ** The script *)

Section Script.
(** The tags of the repository and the [version] of package.json. *)
Variable tags : list str.
Variable baseVersion : str.

(** [run(cmd)[0]] for the command [git tag --list <pattern>]. *)
Definition run_git_tag_list (pattern : str) : str :=
  trim (git_tag_list tags pattern).

Definition getMatchingTags (pattern : str) : list str :=
  split newline (run_git_tag_list pattern).

Definition maxVersion (versions : list str) : result (option str) :=
  match sort semver.compare versions with
  | Ok sorted => Ok (last_elt sorted)
  | TypeError => TypeError
  end.

Definition getMaxMatchingTag (pattern : str) : result (option str) :=
  maxVersion (getMatchingTags pattern).

(** The value of [latestTag] after the [if] of lines 27-29, given the
    value [getMaxMatchingTag] returned. *)
Definition anchor_of (latestTag : option str) : str :=
  match latestTag with
  | None => lit "v" ++ baseVersion ++ lit "-bscotch.0"
  | Some t =>
      match t with
      | [] => lit "v" ++ baseVersion ++ lit "-bscotch.0"
      | _ =>
          if negb (startsWith t (lit "v" ++ baseVersion ++ lit "-"))
          then lit "v" ++ baseVersion ++ lit "-bscotch.0"
          else t
      end
  end.

(** [latestTag] at line 30. *)
Definition latestTag : result str :=
  match getMaxMatchingTag (lit "v*-bscotch.*") with
  | Ok t => Ok (anchor_of t)
  | TypeError => TypeError
  end.

(** A template literal prints [null] as the word. *)
Definition template_value (v : option str) : str :=
  match v with
  | Some s => s
  | None => lit "null"
  end.

(** Lines 25-33: the pair [(nextVersion, nextTag)]. *)
Definition resolveNext : result (option str * str) :=
  match latestTag with
  | Ok t =>
      let nextVersion := semver.inc t (lit "bscotch") in
      Ok (nextVersion, lit "v" ++ template_value nextVersion)
  | TypeError => TypeError
  end.
End Script.

(** Lines 26-33 for the array that [getMatchingTags] returned at line 26:
    the pair [(nextVersion, nextTag)]. *)
Definition resolveVersions (baseVersion : str) (versions : list str)
  : result (option str * str) :=
  match maxVersion versions with
  | Ok t =>
      let nextVersion := semver.inc (anchor_of baseVersion t) (lit "bscotch") in
      Ok (nextVersion, lit "v" ++ template_value nextVersion)
  | TypeError => TypeError
  end.

(** ** The whole script, over an abstract machine

    What the script does to the outside (child processes, package.json, the
    file system) is taken from an oracle; the events are recorded in the
    order in which they happen. *)

Module Orchestrator.

(** The exceptions that end the script. *)
Inductive exn : Type :=
| AssertionError (message : str)   (* [ok(false, message)] *)
| ExecError (cmd : str)            (* [execSync] throws *)
| SemverTypeError                  (* [semver.compare] throws in the sort *)
| ReadError.                       (* package.json cannot be read or parsed *)

Inductive event : Type :=
| Log (cmd : str)                          (* [console.log("Running:", cmd)] *)
| Exec (cmd : str) (stdout : option str)   (* [execSync(cmd)], [None]: it threw *)
| ReadPackageJson (ok : bool)
| WritePackageJson (version : option str)
| ExistsSync (path : str) (exists_ : bool)
| WriteFile (path content : str).

(** The events of commands that ran to the end, with their outputs. *)
Definition ran (cmds raws : list str) : list event :=
  List.concat (map (fun cr => [Log (fst cr); Exec (fst cr) (Some (snd cr))])
                   (combine cmds raws)).

Definition dquote : ascii := ascii_of_N 34.
Definition backtick : ascii := ascii_of_N 96.

Section Machine.
(** The state of the outside world and its answers. *)
Variable World : Type.
(** [execSync(cmd).toString()], or [None] when the command fails. *)
Variable execSync : str -> World -> option str * World.
(** What a template literal prints for the [version] and the [name] of
    package.json, or [None] when the file cannot be read or parsed. *)
Variable packageJson : World -> option (str * str).
(** Writing package.json back with another [version]. *)
Variable writePackageJson : option str -> World -> World.
Variable existsSync : str -> World -> bool.
Variable writeFileSync : str -> str -> World -> World.

Definition state : Type := (World * list event)%type.

(** A computation: an exception or a value, and the state it leaves. *)
Definition M (A : Type) : Type := state -> (exn + A) * state.

Definition ret {A : Type} (a : A) : M A := fun s => (inr a, s).

Definition throw {A : Type} (e : exn) : M A := fun s => (inl e, s).

Definition bind {A B : Type} (m : M A) (k : A -> M B) : M B :=
  fun s =>
    match m s with
    | (inl e, s') => (inl e, s')
    | (inr a, s') => k a s'
    end.

Notation "x <- m ;; k" := (bind m (fun x => k))
  (at level 61, m at next level, right associativity).
Notation "m ;;; k" := (bind m (fun _ => k))
  (at level 61, right associativity).

Definition emit (e : event) : M unit :=
  fun s => (inr tt, (fst s, snd s ++ [e])).

Definition exec (cmd : str) : M str :=
  fun s =>
    let (out, w) := execSync cmd (fst s) in
    match out with
    | Some o => (inr o, (w, snd s ++ [Exec cmd (Some o)]))
    | None => (inl (ExecError cmd), (w, snd s ++ [Exec cmd None]))
    end.

(** [ok(value, message)] of the module [assert]. *)
Definition ok (value : bool) (message : str) : M unit :=
  if value then ret tt else throw (AssertionError message).

(** [run(cmds)] for an array of commands. *)
Fixpoint run (cmds : list str) : M (list str) :=
  match cmds with
  | [] => ret []
  | cmd :: cmds' =>
      emit (Log cmd) ;;;
      o <- exec cmd ;;
      out <- run cmds' ;;
      ret (trim o :: out)
  end.

(** [run(cmd)[0]] for one command given as a string. *)
Definition run1 (cmd : str) : M str :=
  out <- run [cmd] ;;
  ret (hd [] out).

Definition readPackageJson : M (str * str) :=
  fun s =>
    match packageJson (fst s) with
    | Some p => (inr p, (fst s, snd s ++ [ReadPackageJson true]))
    | None => (inl ReadError, (fst s, snd s ++ [ReadPackageJson false]))
    end.

Definition setPackageJsonVersion (version : option str) : M unit :=
  readPackageJson ;;;
  fun s => (inr tt, (writePackageJson version (fst s),
                     snd s ++ [WritePackageJson version])).

Definition getPackageJsonVersion : M str :=
  p <- readPackageJson ;; ret (fst p).

Definition getPackageName : M str :=
  p <- readPackageJson ;; ret (snd p).

(** [fs.existsSync(path)] *)
Definition fs_existsSync (path : str) : M bool :=
  fun s =>
    let b := existsSync path (fst s) in
    (inr b, (fst s, snd s ++ [ExistsSync path b])).

(** [fs.writeFileSync(path, content)] for a file other than package.json. *)
Definition fs_writeFileSync (path content : str) : M unit :=
  fun s => (inr tt, (writeFileSync path content (fst s),
                     snd s ++ [WriteFile path content])).

Definition getMatchingTags (pattern : str) : M (list str) :=
  o <- run1 (lit "git tag --list " ++ pattern) ;;
  ret (split newline o).

Definition getMaxMatchingTag (pattern : str) : M (option str) :=
  versions <- getMatchingTags pattern ;;
  match maxVersion versions with
  | Ok t => ret t
  | TypeError => throw SemverTypeError
  end.

(** What a template literal prints for a string that may be [undefined]. *)
Definition template_string (v : option str) : str :=
  match v with
  | Some s => s
  | None => lit "undefined"
  end.

Definition tag_command (nextTag nextVersion : str) : str :=
  lit "git tag -a " ++ nextTag ++ lit " -m " ++ [dquote] ++ lit "Release "
  ++ nextVersion ++ [dquote].

Definition packageUrl (nextTag nextVersion : str) : str :=
  lit "https://github.com/bscotch/ts-json-schema-generator/releases/download/"
  ++ nextTag ++ lit "/ts-json-schema-generator-" ++ nextVersion ++ lit ".tgz".

Definition diffUrl (globalLatestTag nextTag : str) : str :=
  lit "https://github.com/bscotch/ts-json-schema-generator/compare/"
  ++ globalLatestTag ++ lit ".." ++ nextTag.

Definition notes (diff url : str) : str :=
  lit "## Changelog" ++ [newline; newline] ++ diff ++ [newline; newline]
  ++ lit "## Installation" ++ [newline; newline]
  ++ lit "- " ++ [backtick] ++ lit "npm install " ++ url ++ [backtick; newline]
  ++ lit "- " ++ [backtick] ++ lit "pnpm add " ++ url ++ [backtick; newline]
  ++ lit " " ++ [backtick] ++ lit "yarn add " ++ url ++ [backtick].

Definition release_command (nextTag packagePath title : str) : str :=
  lit "gh release create " ++ nextTag ++ lit " " ++ packagePath
  ++ lit "#package -t " ++ [dquote] ++ title ++ [dquote]
  ++ lit " --target origin/release --repo bscotch/ts-json-schema-generator --notes-file NOTES.md --prerelease".

Definition checkout : str := lit "git checkout package.json".

(** Lines 17-56. *)
Definition script : M unit :=
  gitStatus <- run1 (lit "git status --porcelain") ;;
  ok (str_eqb gitStatus []) (lit "Repo is not clean") ;;;
  run1 (lit "git pull --rebase --tags") ;;;
  run [lit "rm -rf node_modules dist"; lit "yarn --frozen-lockfile"; lit "yarn build"] ;;;
  baseVersion <- getPackageJsonVersion ;;
  latest <- getMaxMatchingTag (lit "v*-bscotch.*") ;;
  let latestTag := anchor_of baseVersion latest in
  let nextVersion := semver.inc latestTag (lit "bscotch") in
  let nextTag := lit "v" ++ template_value nextVersion in
  setPackageJsonVersion nextVersion ;;;
  run1 (lit "npm pack") ;;;
  name <- getPackageName ;;
  let packagePath := name ++ lit "-" ++ template_value nextVersion ++ lit ".tgz" in
  found <- fs_existsSync packagePath ;;
  ok found (packagePath ++ lit " does not exist") ;;;
  globalLatestTag <- getMaxMatchingTag (lit "v*") ;;
  run1 (tag_command nextTag (template_value nextVersion)) ;;;
  run1 (lit "git push --tags") ;;;
  let title := lit "Release " ++ nextTag in
  let url := packageUrl nextTag (template_value nextVersion) in
  let diff := diffUrl (template_string globalLatestTag) nextTag in
  fs_writeFileSync (lit "NOTES.md") (notes diff url) ;;;
  run1 (release_command nextTag packagePath title) ;;;
  run1 checkout ;;;
  ret tt.

End Machine.

(** The events of a run of the script that goes to the end, given the
    version computed, the name of the package, the latest tag of all and
    the outputs of the twelve commands. *)
Definition complete_trace (nextVersion : option str) (name : str)
           (globalLatestTag : option str) (outs : list str) : list event :=
  let nextTag := lit "v" ++ template_value nextVersion in
  let packagePath := name ++ lit "-" ++ template_value nextVersion ++ lit ".tgz" in
  ran [lit "git status --porcelain"; lit "git pull --rebase --tags";
       lit "rm -rf node_modules dist"; lit "yarn --frozen-lockfile";
       lit "yarn build"] (firstn 5 outs)
  ++ [ReadPackageJson true]
  ++ ran [lit "git tag --list " ++ lit "v*-bscotch.*"] (firstn 1 (skipn 5 outs))
  ++ [ReadPackageJson true; WritePackageJson nextVersion]
  ++ ran [lit "npm pack"] (firstn 1 (skipn 6 outs))
  ++ [ReadPackageJson true; ExistsSync packagePath true]
  ++ ran [lit "git tag --list " ++ lit "v*";
          tag_command nextTag (template_value nextVersion);
          lit "git push --tags"] (firstn 3 (skipn 7 outs))
  ++ [WriteFile (lit "NOTES.md")
        (notes (diffUrl (template_string globalLatestTag) nextTag)
               (packageUrl nextTag (template_value nextVersion)))]
  ++ ran [release_command nextTag packagePath (lit "Release " ++ nextTag);
          checkout] (skipn 10 outs).
End Orchestrator.

(** * The vocabulary of the properties *)

(** [c] does not occur in [s]. *)
Definition lacks (c : ascii) (s : str) : bool :=
  forallb (fun d => negb (Ascii.eqb d c)) s.

Definition no_space (s : str) : bool := forallb (fun c => negb (is_space c)) s.

(** A tag name as the script can read it back from the output of git: not
    empty and without white space. *)
Definition git_tag_name (t : str) : bool :=
  match t with [] => false | _ => no_space t end.

Definition refname_le (a b : str) : Prop := str_leb a b = true.

(** The characters of a version string: identifier characters and dots. *)
Definition is_version_char (c : ascii) : bool :=
  semver.is_ident_char c || Ascii.eqb c ".".

(** The text [major.minor.patch]. *)
Definition main_version (M m p : N) : str :=
  print_N M ++ "."%char :: print_N m ++ "."%char :: print_N p.

(** The text of a prerelease: nothing, or [-] and the identifiers. *)
Definition pre_suffix (ids : list str) : str :=
  match ids with
  | [] => []
  | _ => "-"%char :: join "." ids
  end.

(** The text of the build metadata: nothing, or [+] and the identifiers. *)
Definition build_suffix (ids : list str) : str :=
  match ids with
  | [] => []
  | _ => "+"%char :: join "." ids
  end.

Definition without_build (v : semver.SemVer) : semver.SemVer :=
  semver.mkSemVer (semver.major v) (semver.minor v) (semver.patch v)
                  (semver.prerelease v) [].

(** The comparison of two [SemVer] objects field by field. *)
Definition compare_fields (a b : semver.SemVer) : comparison :=
  semver.or_else (semver.compareMain a b) (semver.comparePre a b).

Definition marker_pattern : str := lit "v*-bscotch.*".

(** The tags [git tag --list "v*-bscotch.*"] prints. *)
Definition marker_tags (tags : list str) : list str :=
  filter (wildmatch marker_pattern) tags.

(** A base version: the text [major.minor.patch] of three numeric identifiers
    that are safe integers. *)
Definition valid_base (B : str) : bool :=
  match split "." B with
  | [a; b; c] =>
      is_numeric_identifier a && is_numeric_identifier b && is_numeric_identifier c
      && (digits_value a <=? semver.MAX_SAFE_INTEGER)
      && (digits_value b <=? semver.MAX_SAFE_INTEGER)
      && (digits_value c <=? semver.MAX_SAFE_INTEGER)
  | _ => false
  end.

(** The tag [v<B>-bscotch.<n>]. *)
Definition family_tag (B : str) (n : N) : str :=
  lit "v" ++ B ++ lit "-bscotch." ++ print_N n.

Definition bscotch : semver.ident := semver.PStr (lit "bscotch").

(** The active family of a base version: the tags [v<version>] whose
    [major.minor.patch] is the base version and whose first prerelease
    identifier is the marker. *)
Definition in_family (B t : str) : bool :=
  match t with
  | "v"%char :: _ =>
      match semver.parse t with
      | Some v =>
          str_eqb (main_version (semver.major v) (semver.minor v) (semver.patch v)) B
          && match semver.prerelease v with
             | i :: _ => semver.ident_identical i bscotch
             | [] => false
             end
      | None => false
      end
  | _ => false
  end.

Definition active_family (B : str) (tags : list str) : list str :=
  filter (in_family B) tags.

Definition unparsable (t : str) : bool :=
  match semver.parse t with
  | Some _ => false
  | None => true
  end.

(** [x] is the maximum of the marker tags of [tags] under [semver.compare]:
    a marker tag that parses and that every other marker tag sorts strictly
    below; [None] when no tag matches the marker pattern. *)
Definition maximal_marker_tag (tags : list str) (x : option str) : Prop :=
  match x with
  | None => marker_tags tags = []
  | Some L =>
      In L (marker_tags tags) /\ semver.parse L <> None /\
      forall t, In t (marker_tags tags) ->
                t = L \/ semver.compare t L = Some Lt
  end.

(** The versions of [l] parse and no two different ones tie. *)
Definition strictly_ordered (l : list str) : Prop :=
  (forall x, In x l -> semver.parse x <> None) /\
  forall x y, In x l -> In y l ->
              x = y \/ semver.compare x y = Some Lt \/ semver.compare x y = Some Gt.

(** [m] is in [l] and every other element of [l] sorts strictly below. *)
Definition greatest (l : list str) (m : str) : Prop :=
  In m l /\ forall t, In t l -> t = m \/ semver.compare t m = Some Lt.

(** The tags of [tags] that match [pattern]. *)
Definition matching (tags : list str) (pattern : str) : list str :=
  filter (wildmatch pattern) tags.

(** The patterns the script lists tags with, at lines 26 and 42. *)
Definition script_patterns : list str := [lit "v*-bscotch.*"; lit "v*"].

(** One identifier of the prerelease array before and after the loop of
    case ['pre']: the same, or a number and its successor. *)
Definition bumped (a b : semver.ident) : Prop :=
  a = b \/ exists n, a = semver.PNum n /\ b = semver.PNum (n + 1).

(** The array after the loop of case ['pre'], for an array that is not
    empty. *)
Definition after_loop (pre : list semver.ident) : list semver.ident :=
  match semver.inc_last_number pre with
  | Some r => r
  | None => pre ++ [semver.PNum 0]
  end.

(** The latest release of the base version [B] has the counter [n]: the
    maximal marker tag is [v<B>-bscotch.<n>], build metadata apart. *)
Definition latest_release (tags : list str) (B : str) (n : N) : Prop :=
  exists L v,
    maximal_marker_tag tags (Some L) /\
    semver.parse L = Some v /\
    main_version (semver.major v) (semver.minor v) (semver.patch v) = B /\
    semver.prerelease v = [bscotch; semver.PNum n].

(** The tags after [k] more releases, each one adding the tag the script
    computed (line 43, [git tag -a]). *)
Fixpoint release (k : nat) (tags : list str) (B : str) : list str :=
  match k with
  | O => tags
  | S k' =>
      match resolveNext tags B with
      | Ok (_, nextTag) => release k' (nextTag :: tags) B
      | TypeError => tags
      end
  end.

(** ** A machine to run the script on *)

Module Demo.

(** A repository with two releases of 1.0.0, where every command succeeds
    and prints nothing but the tags. *)
Definition execSync (cmd : str) (w : unit) : option str * unit :=
  (Some (if str_eqb cmd (lit "git tag --list v*-bscotch.*")
            || str_eqb cmd (lit "git tag --list v*")
         then lit "v1.0.0-bscotch.0" ++ [newline] ++ lit "v1.0.0-bscotch.1" ++ [newline]
         else []), w).

(** The same repository with a modified file. *)
Definition execSync_dirty (cmd : str) (w : unit) : option str * unit :=
  if str_eqb cmd (lit "git status --porcelain")
  then (Some (lit " M package.json" ++ [newline]), w)
  else execSync cmd w.

(** The same repository where the build fails. *)
Definition execSync_broken (cmd : str) (w : unit) : option str * unit :=
  if str_eqb cmd (lit "yarn build") then (None, w) else execSync cmd w.

Definition packageJson (w : unit) : option (str * str) :=
  Some (lit "1.0.0", lit "ts-json-schema-generator").

Definition writePackageJson (version : option str) (w : unit) : unit := w.

Definition existsSync (path : str) (w : unit) : bool := true.

Definition writeFileSync (path content : str) (w : unit) : unit := w.

Definition outcome : (Orchestrator.exn + unit) * (unit * list Orchestrator.event) :=
  Orchestrator.script unit execSync packageJson writePackageJson existsSync
                      writeFileSync (tt, []).

End Demo.

(** The outside world after the commands [cmds] have run in [w]. *)
Fixpoint world_after {World : Type} (execSync : str -> World -> option str * World)
         (cmds : list str) (w : World) : World :=
  match cmds with
  | [] => w
  | cmd :: cmds' => world_after execSync cmds' (snd (execSync cmd w))
  end.

(** The commands of lines 17-22, which run before package.json is read. *)
Definition commands_before_read : list str :=
  [lit "git status --porcelain"; lit "git pull --rebase --tags";
   lit "rm -rf node_modules dist"; lit "yarn --frozen-lockfile"; lit "yarn build"].

(** ** A machine with a state *)

Module Repo.

(** A repository: the version of package.json in the last commit and in the
    working tree, and the tags. *)
Record World : Type := {
  committed : str;
  version : str;
  tags : list str
}.

(** [git tag --list] prints the tags, [git tag -a] adds one, [git checkout
    package.json] restores the file; the other commands print nothing. *)
Definition execSync (cmd : str) (w : World) : option str * World :=
  if startsWith cmd (lit "git tag --list ")
  then (Some (git_tag_list (tags w) (skipn 15 cmd)), w)
  else if startsWith cmd (lit "git tag -a ")
  then (Some [], {| committed := committed w; version := version w;
                    tags := fst (cut " " (skipn 11 cmd)) :: tags w |})
  else if str_eqb cmd (lit "git checkout package.json")
  then (Some [], {| committed := committed w; version := committed w;
                    tags := tags w |})
  else (Some [], w).

Definition packageJson (w : World) : option (str * str) :=
  Some (version w, lit "ts-json-schema-generator").

Definition writePackageJson (v : option str) (w : World) : World :=
  {| committed := committed w; version := template_value v; tags := tags w |}.

Definition existsSync (path : str) (w : World) : bool := true.

Definition writeFileSync (path content : str) (w : World) : World := w.

Definition initial : World :=
  {| committed := lit "1.0.0"; version := lit "1.0.0";
     tags := [lit "v1.0.0-bscotch.1"; lit "v0.9.0-bscotch.7"; lit "v1.0.0-bscotch.0"] |}.

Definition outcome : (Orchestrator.exn + unit) * (World * list Orchestrator.event) :=
  Orchestrator.script World execSync packageJson writePackageJson existsSync
                      writeFileSync (initial, []).

End Repo.

(** * Properties *)

(** ** Strings *)

Lemma str_eqb_true (a b : str) : str_eqb a b = true <-> a = b.
Proof.
  unfold str_eqb. destruct (list_eq_dec ascii_dec a b); split; congruence.
Qed.

Lemma str_eqb_refl (a : str) : str_eqb a a = true.
Proof. now apply str_eqb_true. Qed.

Lemma str_eqb_false (a b : str) : str_eqb a b = false <-> a <> b.
Proof.
  unfold str_eqb. destruct (list_eq_dec ascii_dec a b); split; congruence.
Qed.

Lemma startsWith_app (p r : str) : startsWith (p ++ r) p = true.
Proof.
  induction p as [|c p IH]; simpl; [reflexivity|].
  now rewrite Ascii.eqb_refl, IH.
Qed.

Lemma startsWith_inv (s p : str) :
  startsWith s p = true -> exists r, s = p ++ r.
Proof.
  revert s. induction p as [|c p IH]; intros s H; simpl in *.
  - now exists s.
  - destruct s as [|d s]; [discriminate|].
    apply andb_true_iff in H. destruct H as [Hc Hs].
    apply Ascii.eqb_eq in Hc. subst d.
    destruct (IH _ Hs) as [r ->]. now exists r.
Qed.

Lemma lacks_app (c : ascii) (a b : str) :
  lacks c (a ++ b) = lacks c a && lacks c b.
Proof. apply forallb_app. Qed.

Lemma cut_app (sep : ascii) (a b : str) :
  lacks sep a = true -> cut sep (a ++ sep :: b) = (a, Some b).
Proof.
  induction a as [|c a IH]; simpl; intros H.
  - now rewrite Ascii.eqb_refl.
  - apply andb_true_iff in H. destruct H as [Hc Ha].
    apply negb_true_iff in Hc. rewrite Hc, (IH Ha). reflexivity.
Qed.

Lemma cut_none (sep : ascii) (a : str) :
  lacks sep a = true -> cut sep a = (a, None).
Proof.
  induction a as [|c a IH]; simpl; intros H; [reflexivity|].
  apply andb_true_iff in H. destruct H as [Hc Ha].
  apply negb_true_iff in Hc. rewrite Hc, (IH Ha). reflexivity.
Qed.

Lemma cut_inv (sep : ascii) (s a : str) (b : option str) :
  cut sep s = (a, b) ->
  lacks sep a = true /\
  s = a ++ match b with Some b' => sep :: b' | None => [] end.
Proof.
  revert a b. induction s as [|c s IH]; simpl; intros a b H.
  - inversion H; subst. split; reflexivity.
  - destruct (Ascii.eqb c sep) eqn:E.
    + inversion H; subst. apply Ascii.eqb_eq in E. subst. split; reflexivity.
    + destruct (cut sep s) as [a' b'] eqn:C. inversion H; subst.
      destruct (IH _ _ eq_refl) as [Hl Hs]. split.
      * simpl. now rewrite E, Hl.
      * simpl. now rewrite <- Hs.
Qed.

Lemma split_not_nil (sep : ascii) (s : str) : split sep s <> [].
Proof.
  destruct s as [|c s]; simpl; [discriminate|].
  destruct (Ascii.eqb c sep); [discriminate|].
  destruct (split sep s); discriminate.
Qed.

Lemma split_lacks (sep : ascii) (s : str) :
  lacks sep s = true -> split sep s = [s].
Proof.
  induction s as [|c s IH]; simpl; intros H; [reflexivity|].
  apply andb_true_iff in H. destruct H as [Hc Hs].
  apply negb_true_iff in Hc. now rewrite Hc, (IH Hs).
Qed.

Lemma split_app (sep : ascii) (a b : str) :
  lacks sep a = true -> split sep (a ++ sep :: b) = a :: split sep b.
Proof.
  induction a as [|c a IH]; simpl; intros H.
  - now rewrite Ascii.eqb_refl.
  - apply andb_true_iff in H. destruct H as [Hc Ha].
    apply negb_true_iff in Hc. now rewrite Hc, (IH Ha).
Qed.

Lemma split_join (sep : ascii) (l : list str) :
  l <> [] -> forallb (lacks sep) l = true -> split sep (join sep l) = l.
Proof.
  induction l as [|w l IH]; intros Hn Hl; [congruence|].
  simpl in Hl. apply andb_true_iff in Hl. destruct Hl as [Hw Hl].
  destruct l as [|w' l].
  - simpl. now apply split_lacks.
  - change (join sep (w :: w' :: l)) with (w ++ sep :: join sep (w' :: l)).
    rewrite (split_app _ _ _ Hw), IH; [reflexivity|discriminate|assumption].
Qed.

Lemma join_split (sep : ascii) (s : str) : join sep (split sep s) = s.
Proof.
  induction s as [|c s IH]; simpl; [reflexivity|].
  destruct (Ascii.eqb c sep) eqn:E.
  - apply Ascii.eqb_eq in E. subst c.
    pose proof (split_not_nil sep s) as Hn.
    destruct (split sep s) as [|w ws]; [congruence|].
    change (join sep ([] :: w :: ws)) with (sep :: join sep (w :: ws)).
    now rewrite IH.
  - pose proof (split_not_nil sep s) as Hn.
    destruct (split sep s) as [|w ws]; [congruence|].
    rewrite <- IH. destruct ws; reflexivity.
Qed.

Lemma split_pieces_lack (sep : ascii) (s : str) :
  forallb (lacks sep) (split sep s) = true.
Proof.
  induction s as [|c s IH]; simpl; [reflexivity|].
  destruct (Ascii.eqb c sep) eqn:E.
  - simpl. exact IH.
  - pose proof (split_not_nil sep s) as Hn.
    destruct (split sep s) as [|w ws]; [congruence|].
    simpl in *. now rewrite E.
Qed.

(** *** [trim] *)

Lemma trimStart_stop (a b : str) (c : ascii) :
  is_space c = false -> exists a', trimStart (a ++ c :: b) = a' ++ c :: b.
Proof.
  intros Hc. induction a as [|d a IH]; simpl.
  - rewrite Hc. now exists [].
  - destruct (is_space d).
    + exact IH.
    + now exists (d :: a).
Qed.

Lemma trimStart_spaces (a b : str) (c : ascii) :
  forallb is_space a = true -> is_space c = false ->
  trimStart (a ++ c :: b) = c :: b.
Proof.
  intros Ha Hc. induction a as [|d a IH]; simpl in *.
  - now rewrite Hc.
  - apply andb_true_iff in Ha. destruct Ha as [Hd Ha]. rewrite Hd. auto.
Qed.

Lemma trimStart_head (c : ascii) (s : str) :
  is_space c = false -> trimStart (c :: s) = c :: s.
Proof. intros H. simpl. now rewrite H. Qed.

(** A string that starts and ends with a character that is not white
    space keeps everything up to that last character. *)
Lemma trim_prefix (p r m1 m2 : str) (c d : ascii) :
  p = c :: m1 -> p = m2 ++ [d] ->
  is_space c = false -> is_space d = false ->
  exists r', trim (p ++ r) = p ++ r'.
Proof.
  intros H1 H2 Hc Hd. unfold trim.
  assert (E1 : trimStart (p ++ r) = p ++ r).
  { rewrite H1. simpl app. now apply trimStart_head. }
  rewrite E1, rev_app_distr.
  assert (E2 : rev p = d :: rev m2).
  { rewrite H2, rev_app_distr. reflexivity. }
  rewrite E2.
  destruct (trimStart_stop (rev r) (rev m2) d Hd) as [a' ->].
  exists (rev a'). rewrite <- E2, rev_app_distr, rev_involutive. reflexivity.
Qed.

Lemma trim_spaces_after (p ws m1 m2 : str) (c d : ascii) :
  p = c :: m1 -> p = m2 ++ [d] ->
  is_space c = false -> is_space d = false -> forallb is_space ws = true ->
  trim (p ++ ws) = p.
Proof.
  intros H1 H2 Hc Hd Hw. unfold trim.
  assert (E1 : trimStart (p ++ ws) = p ++ ws).
  { rewrite H1. simpl app. now apply trimStart_head. }
  rewrite E1, rev_app_distr.
  assert (E2 : rev p = d :: rev m2).
  { rewrite H2, rev_app_distr. reflexivity. }
  rewrite E2, trimStart_spaces; trivial.
  - now rewrite <- E2, rev_involutive.
  - rewrite forallb_forall in *. intros x Hx. apply Hw. now apply in_rev.
Qed.

(** A non-empty string without white space has a first and a last
    character, neither of them white space. *)
Lemma no_space_ends (s : str) :
  s <> [] -> no_space s = true ->
  exists c m1 m2 d, s = c :: m1 /\ s = m2 ++ [d] /\
                    is_space c = false /\ is_space d = false.
Proof.
  intros Hn Hs. destruct s as [|c m1]; [congruence|].
  destruct (exists_last Hn) as [m2 [d E]].
  exists c, m1, m2, d. repeat split; trivial.
  - simpl in Hs. apply andb_true_iff in Hs. now apply negb_true_iff.
  - unfold no_space in Hs. rewrite forallb_forall in Hs.
    apply negb_true_iff, Hs. rewrite E. apply in_or_app. right. now left.
Qed.

Lemma trim_no_space (s ws : str) :
  no_space s = true -> forallb is_space ws = true -> trim (s ++ ws) = s.
Proof.
  intros Hs Hw. destruct s as [|c s'] eqn:E.
  - simpl. unfold trim. clear E Hs.
    assert (H : forall w, forallb is_space w = true -> trimStart w = []).
    { induction w as [|x w IH]; simpl; [reflexivity|].
      intros H. apply andb_true_iff in H. destruct H as [-> H]. auto. }
    rewrite (H _ Hw). reflexivity.
  - rewrite <- E in *.
    destruct (no_space_ends s) as (c' & m1 & m2 & d & H1 & H2 & Hc & Hd);
      [congruence|assumption|].
    now apply (trim_spaces_after s ws m1 m2 c' d).
Qed.

(** ** The tag list *)

Lemma lines_join (l : list str) :
  l <> [] ->
  List.concat (map (fun t => t ++ [newline]) l) = join newline l ++ [newline].
Proof.
  induction l as [|t l IH]; intros Hn; [congruence|].
  destruct l as [|t' l]; simpl.
  - now rewrite app_nil_r.
  - simpl in IH. rewrite IH by discriminate.
    rewrite <- !app_assoc. reflexivity.
Qed.

Lemma join_ends (l : list str) :
  l <> [] -> forallb git_tag_name l = true ->
  exists c m1 m2 d, join newline l = c :: m1 /\ join newline l = m2 ++ [d] /\
                    is_space c = false /\ is_space d = false.
Proof.
  induction l as [|t l IH]; intros Hn Hl; [congruence|].
  simpl in Hl. apply andb_true_iff in Hl. destruct Hl as [Ht Hl].
  assert (Ht' : t <> [] /\ no_space t = true).
  { destruct t; [discriminate|]. split; [discriminate|exact Ht]. }
  destruct Ht' as [Htn Hts].
  destruct (no_space_ends t Htn Hts) as (c & m1 & m2 & d & H1 & H2 & Hc & Hd).
  destruct l as [|t' l].
  - simpl. now exists c, m1, m2, d.
  - destruct (IH ltac:(discriminate) Hl) as (c' & m1' & m2' & d' & H1' & H2' & Hc' & Hd').
    change (join newline (t :: t' :: l)) with (t ++ newline :: join newline (t' :: l)).
    exists c, (m1 ++ newline :: join newline (t' :: l)),
           (t ++ newline :: m2'), d'.
    repeat split; trivial.
    + now rewrite H1 at 1.
    + rewrite H2' at 1. now rewrite <- app_assoc.
Qed.

Lemma git_tag_name_lacks_newline (t : str) :
  git_tag_name t = true -> lacks newline t = true.
Proof.
  intros H. assert (Hs : no_space t = true) by (destruct t; [discriminate|exact H]).
  unfold no_space, lacks in *. rewrite forallb_forall in *.
  intros x Hx. specialize (Hs x Hx). apply negb_true_iff in Hs.
  apply negb_true_iff. destruct (Ascii.eqb x newline) eqn:E; [|reflexivity].
  apply Ascii.eqb_eq in E. subst x. discriminate.
Qed.

(** Reading the tags back from the standard output of git. *)
Lemma read_lines (l : list str) :
  forallb git_tag_name l = true ->
  split newline (trim (List.concat (map (fun t => t ++ [newline]) l))) =
  match l with [] => [[]] | _ => l end.
Proof.
  intros Hl. destruct l as [|t l']; [reflexivity|].
  remember (t :: l') as l eqn:E.
  assert (Hn : l <> []) by (subst; discriminate).
  rewrite lines_join by assumption.
  destruct (join_ends l Hn Hl) as (c & m1 & m2 & d & H1 & H2 & Hc & Hd).
  rewrite (trim_spaces_after _ [newline] m1 m2 c d H1 H2 Hc Hd eq_refl).
  rewrite split_join; trivial.
  rewrite forallb_forall in *. intros x Hx.
  now apply git_tag_name_lacks_newline, Hl.
Qed.

(** *** The refname order *)

Lemma N_of_ascii_inj (c d : ascii) : N_of_ascii c = N_of_ascii d -> c = d.
Proof.
  intros H. rewrite <- (ascii_N_embedding c), <- (ascii_N_embedding d).
  now rewrite H.
Qed.

Lemma str_leb_total (a b : str) : str_leb a b = false -> str_leb b a = true.
Proof.
  revert b. induction a as [|c a IH]; intros [|d b]; simpl; try congruence.
  destruct (N_of_ascii c <? N_of_ascii d) eqn:E1; [discriminate|].
  destruct (N_of_ascii d <? N_of_ascii c) eqn:E2; [reflexivity|].
  apply IH.
Qed.

Lemma str_leb_antisym (a b : str) :
  str_leb a b = true -> str_leb b a = true -> a = b.
Proof.
  revert b. induction a as [|c a IH]; intros [|d b]; simpl; try congruence.
  destruct (N_of_ascii c <? N_of_ascii d) eqn:E1;
    destruct (N_of_ascii d <? N_of_ascii c) eqn:E2;
    try discriminate.
  - apply N.ltb_lt in E1, E2. lia.
  - intros H1 H2. apply N.ltb_ge in E1, E2.
    assert (c = d) by (apply N_of_ascii_inj; lia). subst. f_equal. auto.
Qed.

Lemma str_leb_trans (a b c : str) :
  str_leb a b = true -> str_leb b c = true -> str_leb a c = true.
Proof.
  revert b c. induction a as [|x a IH]; intros [|y b] [|z c]; simpl;
    try congruence.
  destruct (N_of_ascii x <? N_of_ascii y) eqn:E1;
    destruct (N_of_ascii y <? N_of_ascii x) eqn:E2;
    destruct (N_of_ascii y <? N_of_ascii z) eqn:E3;
    destruct (N_of_ascii z <? N_of_ascii y) eqn:E4;
    destruct (N_of_ascii x <? N_of_ascii z) eqn:E5;
    destruct (N_of_ascii z <? N_of_ascii x) eqn:E6;
    try discriminate; try reflexivity;
    try (apply N.ltb_lt in E1); try (apply N.ltb_lt in E2);
    try (apply N.ltb_lt in E3); try (apply N.ltb_lt in E4);
    try (apply N.ltb_lt in E5); try (apply N.ltb_lt in E6);
    try (apply N.ltb_ge in E1); try (apply N.ltb_ge in E2);
    try (apply N.ltb_ge in E3); try (apply N.ltb_ge in E4);
    try (apply N.ltb_ge in E5); try (apply N.ltb_ge in E6);
    try lia.
  apply IH.
Qed.

Lemma refname_insert_perm (x : str) (l : list str) :
  Permutation (refname_insert x l) (x :: l).
Proof.
  induction l as [|y l IH]; simpl; [reflexivity|].
  destruct (str_leb x y); [reflexivity|].
  rewrite IH. apply perm_swap.
Qed.

Lemma refname_sort_perm (l : list str) : Permutation (refname_sort l) l.
Proof.
  induction l as [|x l IH]; simpl; [reflexivity|].
  rewrite refname_insert_perm. now constructor.
Qed.

Lemma refname_insert_sorted (x : str) (l : list str) :
  StronglySorted refname_le l -> StronglySorted refname_le (refname_insert x l).
Proof.
  induction 1 as [|y l Hs IH Hy]; simpl.
  - repeat constructor.
  - destruct (str_leb x y) eqn:E.
    + constructor; [now constructor|]. constructor; [exact E|].
      rewrite Forall_forall in *. intros z Hz.
      eapply str_leb_trans; [exact E|]. now apply Hy.
    + constructor; [exact IH|].
      rewrite Forall_forall in *. intros z Hz.
      apply (Permutation_in _ (refname_insert_perm x l)) in Hz.
      destruct Hz as [<-|Hz]; [|now apply Hy].
      now apply str_leb_total.
Qed.

Lemma refname_sort_sorted (l : list str) : StronglySorted refname_le (refname_sort l).
Proof.
  induction l as [|x l IH]; simpl; [constructor|].
  now apply refname_insert_sorted.
Qed.

Lemma sorted_perm_eq (l l' : list str) :
  StronglySorted refname_le l -> StronglySorted refname_le l' ->
  Permutation l l' -> l = l'.
Proof.
  intros Hl. revert l'. induction Hl as [|x l Hs IH Hx]; intros l' Hl' Hp.
  - now apply Permutation_nil in Hp.
  - destruct Hl' as [|y l' Hs' Hy].
    + symmetry in Hp. now apply Permutation_nil in Hp.
    + assert (x = y).
      { rewrite Forall_forall in *.
        assert (Ix : In x (y :: l')) by (eapply Permutation_in; [exact Hp|now left]).
        assert (Iy : In y (x :: l))
          by (eapply Permutation_in; [symmetry; exact Hp|now left]).
        destruct Ix as [->|Ix]; [reflexivity|].
        destruct Iy as [->|Iy]; [reflexivity|].
        apply str_leb_antisym; [now apply Hx|now apply Hy]. }
      subst y. f_equal. apply IH; [assumption|].
      now apply Permutation_cons_inv with x.
Qed.

(** The output of git does not depend on the order in which the tags are
    given. *)
Lemma refname_sort_permutation (l l' : list str) :
  Permutation l l' -> refname_sort l = refname_sort l'.
Proof.
  intros Hp. apply sorted_perm_eq; try apply refname_sort_sorted.
  rewrite !refname_sort_perm. exact Hp.
Qed.

Lemma filter_permutation (f : str -> bool) (l l' : list str) :
  Permutation l l' -> Permutation (filter f l) (filter f l').
Proof.
  induction 1; simpl.
  - constructor.
  - destruct (f x); [now constructor|assumption].
  - destruct (f x), (f y); try reflexivity. apply perm_swap.
  - etransitivity; eassumption.
Qed.

(** ** [Array.prototype.sort] *)

Lemma last_elt_snoc (l : list str) (x : str) : last_elt (l ++ [x]) = Some x.
Proof.
  destruct l as [|y l]; [reflexivity|].
  change (last_elt ((y :: l) ++ [x])) with (Some (last ((y :: l) ++ [x]) [])).
  f_equal. apply (@last_last str).
Qed.

Lemma last_elt_cons (x : str) (l : list str) :
  l <> [] -> last_elt (x :: l) = last_elt l.
Proof. destruct l; [congruence|reflexivity]. Qed.

Lemma last_elt_in (l : list str) (x : str) : last_elt l = Some x -> In x l.
Proof.
  destruct l as [|y l]; [discriminate|].
  destruct (exists_last (l := y :: l)) as [m [d E]]; [discriminate|].
  rewrite E, last_elt_snoc. intros H. inversion H; subst.
  apply in_or_app. right. now left.
Qed.

Section SortFacts.
Variable compareFn : str -> str -> option comparison.

Lemma sort_insert_perm (x : str) (l r : list str) :
  sort_insert compareFn x l = Ok r -> Permutation r (x :: l).
Proof.
  revert r. induction l as [|y l IH]; simpl; intros r H.
  - inversion H. reflexivity.
  - destruct (compareFn x y) as [[]|]; try discriminate;
      try (inversion H; reflexivity).
    destruct (sort_insert compareFn x l) as [r'|]; [|discriminate].
    inversion H. rewrite (IH _ eq_refl). apply perm_swap.
Qed.

Lemma sort_perm (l r : list str) :
  sort compareFn l = Ok r -> Permutation r l.
Proof.
  revert r. induction l as [|x l IH]; simpl; intros r H.
  - inversion H. reflexivity.
  - destruct (sort compareFn l) as [r'|]; [|discriminate].
    rewrite (sort_insert_perm _ _ _ H). constructor. now apply IH.
Qed.

Lemma sort_insert_total (x : str) (l : list str) :
  (forall y, In y l -> compareFn x y <> None) ->
  exists r, sort_insert compareFn x l = Ok r.
Proof.
  induction l as [|y l IH]; simpl; intros H; [now eexists|].
  destruct (compareFn x y) as [[]|] eqn:E; try (now eexists).
  - destruct IH as [r ->]; [intros; apply H; now right|]. now eexists.
  - exfalso. apply (H y); [now left|exact E].
Qed.

(** The sort returns when every two elements can be compared. *)
Lemma sort_total (l : list str) :
  (forall x y, In x l -> In y l -> compareFn x y <> None) ->
  exists r, sort compareFn l = Ok r.
Proof.
  induction l as [|x l IH]; simpl; intros H; [now eexists|].
  destruct IH as [r Hr]; [intros; apply H; now right|].
  rewrite Hr. apply sort_insert_total. intros y Hy. apply H; [now left|].
  right. eapply Permutation_in; [apply (sort_perm _ _ Hr)|exact Hy].
Qed.

Lemma sort_insert_at_end (x : str) (l : list str) :
  (forall y, In y l -> compareFn x y = Some Gt) ->
  sort_insert compareFn x l = Ok (l ++ [x]).
Proof.
  induction l as [|y l IH]; simpl; intros H; [reflexivity|].
  rewrite (H y) by now left. rewrite IH; [reflexivity|].
  intros; apply H; now right.
Qed.

Lemma sort_insert_keeps_last (x m : str) (l : list str) :
  last_elt l = Some m ->
  (forall y, In y l -> compareFn x y <> None) ->
  compareFn x m <> Some Gt ->
  exists r, sort_insert compareFn x l = Ok r /\ last_elt r = Some m.
Proof.
  induction l as [|y l IH]; intros Hm Hd Hx; [discriminate|].
  simpl. destruct (compareFn x y) as [[]|] eqn:E.
  - eexists; split; [reflexivity|]. now rewrite last_elt_cons.
  - eexists; split; [reflexivity|]. now rewrite last_elt_cons.
  - destruct l as [|z l].
    + inversion Hm; subst. congruence.
    + rewrite last_elt_cons in Hm by discriminate.
      destruct (IH Hm) as [r [Hr Hl]]; [intros; apply Hd; now right|assumption|].
      rewrite Hr. eexists; split; [reflexivity|].
      rewrite last_elt_cons; [assumption|]. intros ->. discriminate.
  - exfalso. apply (Hd y); [now left|exact E].
Qed.

(** A tag that sorts strictly above every other element ends up last. *)
Lemma sort_strict_max (l : list str) (m : str) :
  In m l ->
  (forall x y, In x l -> In y l -> compareFn x y <> None) ->
  (forall t, In t l -> t = m \/
             (compareFn t m = Some Lt /\ compareFn m t = Some Gt)) ->
  compareFn m m <> Some Gt ->
  exists r, sort compareFn l = Ok r /\ last_elt r = Some m.
Proof.
  induction l as [|x l IH]; intros Hin Hd Hmax Hmm; [contradiction|].
  simpl.
  destruct (sort_total l) as [r Hr]; [intros; apply Hd; now right|].
  rewrite Hr. pose proof (sort_perm _ _ Hr) as Hp.
  destruct (in_dec (list_eq_dec ascii_dec) m l) as [Hml|Hml].
  - destruct IH as [r' [Hr' Hl]]; trivial.
    + intros; apply Hd; now right.
    + intros; apply Hmax; now right.
    + rewrite Hr in Hr'. inversion Hr'; subst r'.
      apply sort_insert_keeps_last; trivial.
      * intros y Hy. apply Hd; [now left|right].
        eapply Permutation_in; eassumption.
      * destruct (Hmax x (or_introl eq_refl)) as [->|[H _]]; [assumption|].
        congruence.
  - destruct Hin as [->|]; [|contradiction].
    rewrite sort_insert_at_end.
    + eexists; split; [reflexivity|apply last_elt_snoc].
    + intros y Hy. assert (Hyl : In y l) by (eapply Permutation_in; eassumption).
      destruct (Hmax y (or_intror Hyl)) as [->|[_ H]]; [contradiction|assumption].
Qed.

(** An element that cannot be compared makes the sort of two or more
    elements throw. *)
Lemma sort_throws (l : list str) (bad : str) :
  In bad l -> (2 <= List.length l)%nat ->
  (forall y, compareFn bad y = None /\ compareFn y bad = None) ->
  sort compareFn l = TypeError.
Proof.
  induction l as [|x l IH]; intros Hin Hlen Hbad; [contradiction|].
  simpl. destruct (sort compareFn l) as [r|] eqn:Hr; [|reflexivity].
  pose proof (sort_perm _ _ Hr) as Hp.
  destruct r as [|y r].
  - apply Permutation_nil in Hp. subst l. simpl in Hlen. lia.
  - simpl. destruct Hin as [->|Hin].
    + now rewrite (proj1 (Hbad y)).
    + destruct l as [|z [|z' l]].
      * contradiction.
      * assert (y = z /\ r = []) as [-> ->].
        { symmetry in Hp. apply Permutation_length_1_inv in Hp.
          now inversion Hp. }
        destruct Hin as [->|[]]. now rewrite (proj2 (Hbad x)).
      * assert (E : Ok (y :: r) = @TypeError (list str))
          by (apply IH; [assumption|simpl; lia|assumption]).
        discriminate E.
Qed.
End SortFacts.

(** ** Decimal numerals *)

Lemma digit_char_val (d : N) : d < 10 -> digit_val (digit_char d) = d.
Proof.
  intros H. unfold digit_val, digit_char.
  rewrite N_ascii_embedding by lia. lia.
Qed.

Lemma digit_char_is_digit (d : N) : d < 10 -> is_digit (digit_char d) = true.
Proof.
  intros H. unfold is_digit, digit_char.
  rewrite N_ascii_embedding by lia.
  apply andb_true_iff. split; apply N.leb_le; lia.
Qed.

Lemma digit_val_char (c : ascii) : is_digit c = true -> digit_char (digit_val c) = c.
Proof.
  unfold is_digit, digit_char, digit_val. intros H.
  apply andb_true_iff in H. destruct H as [H1 H2].
  apply N.leb_le in H1, H2.
  replace (48 + (N_of_ascii c - 48)) with (N_of_ascii c) by lia.
  apply ascii_N_embedding.
Qed.

Lemma digit_val_lt (c : ascii) : is_digit c = true -> digit_val c < 10.
Proof.
  unfold is_digit, digit_val. intros H.
  apply andb_true_iff in H. destruct H as [H1 H2].
  apply N.leb_le in H1, H2. lia.
Qed.

Lemma digit_char_zero (d : N) :
  d < 10 -> Ascii.eqb (digit_char d) "0" = true -> d = 0.
Proof.
  intros H E. apply Ascii.eqb_eq in E.
  apply (f_equal digit_val) in E. rewrite digit_char_val in E by assumption.
  exact E.
Qed.

Lemma digits_value_snoc (s : str) (c : ascii) :
  digits_value (s ++ [c]) = 10 * digits_value s + digit_val c.
Proof. unfold digits_value. now rewrite fold_left_app. Qed.

Lemma to_digits_fuel (f f' : nat) (n : N) (acc : str) :
  n < 10 * 2 ^ N.of_nat f -> n < 10 * 2 ^ N.of_nat f' ->
  to_digits f n acc = to_digits f' n acc.
Proof.
  revert f' n acc. induction f as [|f IH]; intros [|f'] n acc H H'.
  - reflexivity.
  - simpl in H. simpl to_digits.
    replace (n <? 10) with true by (symmetry; apply N.ltb_lt; lia).
    now rewrite N.mod_small by lia.
  - simpl in H'. simpl to_digits.
    replace (n <? 10) with true by (symmetry; apply N.ltb_lt; lia).
    now rewrite N.mod_small by lia.
  - simpl to_digits. destruct (n <? 10); [reflexivity|].
    rewrite Nat2N.inj_succ, N.pow_succ_r' in H, H'.
    apply IH.
    + apply N.Div0.div_lt_upper_bound. lia.
    + apply N.Div0.div_lt_upper_bound. lia.
Qed.

Lemma to_digits_acc (f : nat) (n : N) (acc : str) :
  to_digits f n acc = to_digits f n [] ++ acc.
Proof.
  revert n acc. induction f as [|f IH]; intros n acc; simpl; [reflexivity|].
  destruct (n <? 10); [reflexivity|].
  rewrite IH, (IH _ [_]), <- app_assoc. reflexivity.
Qed.

Lemma size_bound (n : N) : n < 10 * 2 ^ N.of_nat (N.to_nat (N.size n)).
Proof.
  rewrite N2Nat.id. pose proof (N.size_gt n). lia.
Qed.

(** The equation of [print_N]. *)
Lemma print_N_eq (n : N) :
  print_N n =
  if n <? 10 then [digit_char n]
  else print_N (n / 10) ++ [digit_char (n mod 10)].
Proof.
  unfold print_N at 1. destruct (N.to_nat (N.size n)) as [|f] eqn:E.
  - pose proof (size_bound n) as H. rewrite E in H. simpl in H.
    replace (n <? 10) with true by (symmetry; apply N.ltb_lt; lia).
    simpl. now rewrite N.mod_small by lia.
  - simpl. destruct (n <? 10) eqn:L; [reflexivity|].
    rewrite to_digits_acc. f_equal. unfold print_N.
    apply to_digits_fuel; [|apply size_bound].
    pose proof (size_bound n) as H. rewrite E in H.
    rewrite Nat2N.inj_succ, N.pow_succ_r' in H.
    apply N.Div0.div_lt_upper_bound. lia.
Qed.

Lemma value_print (n : N) : digits_value (print_N n) = n.
Proof.
  induction n as [n IH] using (well_founded_induction N.lt_wf_0).
  rewrite print_N_eq. destruct (n <? 10) eqn:L.
  - apply N.ltb_lt in L. unfold digits_value. simpl.
    rewrite digit_char_val by assumption. lia.
  - apply N.ltb_ge in L. rewrite digits_value_snoc, IH.
    + rewrite digit_char_val by (apply N.mod_lt; lia).
      symmetry. apply N.div_mod. lia.
    + apply N.div_lt; lia.
Qed.

Lemma print_digits (n : N) : forallb is_digit (print_N n) = true.
Proof.
  induction n as [n IH] using (well_founded_induction N.lt_wf_0).
  rewrite print_N_eq. destruct (n <? 10) eqn:L.
  - apply N.ltb_lt in L. simpl. now rewrite digit_char_is_digit.
  - apply N.ltb_ge in L. rewrite forallb_app, IH by (apply N.div_lt; lia).
    simpl. rewrite digit_char_is_digit; [reflexivity|apply N.mod_lt; lia].
Qed.

Lemma print_not_nil (n : N) : print_N n <> [].
Proof.
  rewrite print_N_eq. destruct (n <? 10); [discriminate|].
  intros H. apply app_eq_nil in H. destruct H; discriminate.
Qed.

Lemma print_head (n : N) :
  0 < n -> exists c r, print_N n = c :: r /\ Ascii.eqb c "0" = false.
Proof.
  induction n as [n IH] using (well_founded_induction N.lt_wf_0).
  intros Hn. rewrite print_N_eq. destruct (n <? 10) eqn:L.
  - apply N.ltb_lt in L. exists (digit_char n), []. split; [reflexivity|].
    destruct (Ascii.eqb (digit_char n) "0") eqn:E; [|reflexivity].
    apply digit_char_zero in E; lia.
  - apply N.ltb_ge in L.
    destruct (IH (n / 10)) as (c & r & -> & Hc).
    + apply N.div_lt; lia.
    + apply N.div_str_pos. lia.
    + exists c, (r ++ [digit_char (n mod 10)]). now split.
Qed.

Lemma print_all_digits (n : N) : all_digits (print_N n) = true.
Proof.
  unfold all_digits. pose proof (print_not_nil n).
  destruct (print_N n) eqn:E; [congruence|]. rewrite <- E. apply print_digits.
Qed.

(** A printed number is a numeric identifier. *)
Lemma print_numeric (n : N) : is_numeric_identifier (print_N n) = true.
Proof.
  unfold is_numeric_identifier. rewrite print_all_digits. simpl.
  destruct (N.eq_dec n 0) as [->|Hn]; [reflexivity|].
  destruct (print_head n) as (c & r & -> & Hc); [lia|].
  destruct r; [reflexivity|]. now rewrite Hc.
Qed.

Lemma fold_digits_lower (s : str) (acc : N) :
  acc * 10 ^ N.of_nat (List.length s)
  <= fold_left (fun a c => 10 * a + digit_val c) s acc.
Proof.
  revert acc. induction s as [|c s IH]; intros acc.
  - simpl. lia.
  - cbn [fold_left List.length]. rewrite Nat2N.inj_succ, N.pow_succ_r'.
    specialize (IH (10 * acc + digit_val c)).
    eapply N.le_trans; [|exact IH].
    apply N.le_trans with (10 * acc * 10 ^ N.of_nat (List.length s)); [lia|].
    apply N.mul_le_mono_r. lia.
Qed.

Lemma digit_val_pos (c : ascii) :
  is_digit c = true -> Ascii.eqb c "0" = false -> 1 <= digit_val c.
Proof.
  intros Hd Hz. destruct (N.eq_dec (digit_val c) 0) as [E|E]; [|lia].
  apply digit_val_char in Hd. rewrite E in Hd. subst c. discriminate.
Qed.

(** A numeric identifier of [k + 1] digits, [k >= 1], is at least [10^k]. *)
Lemma numeric_lower (c : ascii) (s : str) :
  is_digit c = true -> Ascii.eqb c "0" = false ->
  10 ^ N.of_nat (List.length s) <= digits_value (c :: s).
Proof.
  intros Hd Hz. unfold digits_value. cbn [fold_left].
  eapply N.le_trans; [|apply fold_digits_lower].
  pose proof (digit_val_pos c Hd Hz).
  replace (10 * 0 + digit_val c) with (digit_val c) by lia.
  rewrite <- (N.mul_1_l (10 ^ _)) at 1. apply N.mul_le_mono_r. assumption.
Qed.

Lemma all_digits_forallb (s : str) :
  all_digits s = true -> forallb is_digit s = true.
Proof. destruct s; [discriminate|trivial]. Qed.

Lemma print_value (s : str) :
  is_numeric_identifier s = true -> print_N (digits_value s) = s.
Proof.
  induction s as [|c s IH] using rev_ind; [discriminate|].
  intros H. unfold is_numeric_identifier in H.
  apply andb_true_iff in H. destruct H as [Hd Hz].
  apply all_digits_forallb in Hd. rewrite forallb_app in Hd.
  apply andb_true_iff in Hd. destruct Hd as [Hs Hc]. simpl in Hc.
  apply andb_true_iff in Hc. destruct Hc as [Hc _].
  rewrite digits_value_snoc. destruct s as [|x r].
  - simpl. unfold digits_value. simpl. rewrite print_N_eq.
    pose proof (digit_val_lt c Hc).
    replace (digit_val c <? 10) with true by (symmetry; apply N.ltb_lt; lia).
    now rewrite digit_val_char.
  - assert (Hx : Ascii.eqb x "0" = false).
    { destruct r; simpl in Hz; now apply negb_true_iff in Hz. }
    assert (Hxd : is_digit x = true).
    { simpl in Hs. now apply andb_true_iff in Hs. }
    pose proof (numeric_lower x r Hxd Hx) as Hl.
    assert (1 <= digits_value (x :: r)).
    { eapply N.le_trans; [|exact Hl]. apply N.lt_succ_r.
      simpl. apply N.lt_succ_r.
      change 1 with (10 ^ 0). apply N.pow_le_mono_r; lia. }
    pose proof (digit_val_lt c Hc).
    rewrite print_N_eq.
    replace (10 * digits_value (x :: r) + digit_val c <? 10) with false
      by (symmetry; apply N.ltb_ge; lia).
    replace ((10 * digits_value (x :: r) + digit_val c) / 10)
      with (digits_value (x :: r)).
    2:{ symmetry. rewrite N.mul_comm, N.div_add_l by lia.
        rewrite N.div_small by assumption. lia. }
    replace ((10 * digits_value (x :: r) + digit_val c) mod 10)
      with (digit_val c).
    2:{ symmetry. rewrite N.add_comm, N.mul_comm, N.Div0.mod_add.
        now apply N.mod_small. }
    rewrite digit_val_char by assumption. rewrite IH; [reflexivity|].
    unfold is_numeric_identifier. apply andb_true_iff. split.
    + exact Hs.
    + destruct r; [reflexivity|]. now rewrite Hx.
Qed.

(** A numeric identifier that is a safe integer has at most 16 digits. *)
Lemma numeric_length (s : str) :
  is_numeric_identifier s = true ->
  digits_value s <= semver.MAX_SAFE_INTEGER ->
  (List.length s <= 16)%nat.
Proof.
  intros H Hv. destruct s as [|c s]; [simpl; lia|].
  destruct s as [|d s]; [simpl; lia|].
  unfold is_numeric_identifier in H. apply andb_true_iff in H.
  destruct H as [Hd Hz]. apply negb_true_iff in Hz.
  apply all_digits_forallb in Hd. simpl in Hd.
  apply andb_true_iff in Hd. destruct Hd as [Hc _].
  pose proof (numeric_lower c (d :: s) Hc Hz) as Hl.
  destruct (Nat.le_gt_cases (List.length (c :: d :: s)) 16) as [|Hgt]; [assumption|].
  exfalso. assert (10 ^ 16 <= 10 ^ N.of_nat (List.length (d :: s))).
  { apply N.pow_le_mono_r; [lia|]. simpl in Hgt. simpl List.length. lia. }
  unfold semver.MAX_SAFE_INTEGER in Hv.
  assert (10 ^ 16 = 10000000000000000) by reflexivity. lia.
Qed.

(** ** Parsing versions *)

Lemma digit_is_ident_char (c : ascii) : is_digit c = true -> semver.is_ident_char c = true.
Proof. intros H. unfold semver.is_ident_char. now rewrite H. Qed.

Lemma forallb_impl {A : Type} (f g : A -> bool) (l : list A) :
  (forall x, f x = true -> g x = true) ->
  forallb f l = true -> forallb g l = true.
Proof.
  intros Hfg H. rewrite forallb_forall in *. auto.
Qed.

Lemma ident_char_not (c d : ascii) :
  semver.is_ident_char d = false ->
  semver.is_ident_char c = true -> negb (Ascii.eqb c d) = true.
Proof.
  intros Hd Hc. destruct (Ascii.eqb c d) eqn:E; [|reflexivity].
  apply Ascii.eqb_eq in E. congruence.
Qed.

Lemma ident_chars_lack (d : ascii) (s : str) :
  semver.is_ident_char d = false ->
  forallb semver.is_ident_char s = true -> lacks d s = true.
Proof.
  intros Hd. apply forallb_impl. intros c. now apply ident_char_not.
Qed.

Lemma digit_not (c d : ascii) :
  is_digit d = false -> is_digit c = true -> negb (Ascii.eqb c d) = true.
Proof.
  intros Hd Hc. destruct (Ascii.eqb c d) eqn:E; [|reflexivity].
  apply Ascii.eqb_eq in E. congruence.
Qed.

Lemma digits_lack (d : ascii) (s : str) :
  is_digit d = false -> forallb is_digit s = true -> lacks d s = true.
Proof.
  intros Hd. apply forallb_impl. intros c. now apply digit_not.
Qed.

Lemma ident_char_no_space (c : ascii) :
  semver.is_ident_char c = true -> negb (is_space c) = true.
Proof.
  unfold semver.is_ident_char, is_space, is_digit. intros H.
  apply negb_true_iff.
  repeat (apply orb_true_iff in H; destruct H as [H|H]);
    repeat (apply andb_true_iff in H; destruct H as [? H]);
    repeat match goal with
           | X : (_ <=? _) = true |- _ => apply N.leb_le in X
           | X : (_ =? _) = true |- _ => apply N.eqb_eq in X
           end;
    repeat (apply orb_false_iff; split);
    try (apply andb_false_iff);
    try (apply N.eqb_neq; lia);
    try (left; apply N.leb_gt; lia); try (right; apply N.leb_gt; lia).
Qed.

Lemma version_chars_app (a b : str) :
  forallb is_version_char (a ++ b) =
  forallb is_version_char a && forallb is_version_char b.
Proof. apply forallb_app. Qed.

Lemma version_chars_no_space (s : str) :
  forallb is_version_char s = true -> no_space s = true.
Proof.
  apply forallb_impl. intros c H. unfold is_version_char in H.
  apply orb_true_iff in H. destruct H as [H|H].
  - now apply ident_char_no_space.
  - apply Ascii.eqb_eq in H. now subst.
Qed.

Lemma version_chars_lack_plus (s : str) :
  forallb is_version_char s = true -> lacks "+" s = true.
Proof.
  apply forallb_impl. intros c H. unfold is_version_char in H.
  apply orb_true_iff in H. destruct H as [H|H].
  - now apply ident_char_not.
  - apply Ascii.eqb_eq in H. now subst.
Qed.

Lemma ident_chars_version (s : str) :
  forallb semver.is_ident_char s = true -> forallb is_version_char s = true.
Proof.
  apply forallb_impl. intros c H. unfold is_version_char. now rewrite H.
Qed.

Lemma print_ident_chars (n : N) : forallb semver.is_ident_char (print_N n) = true.
Proof.
  apply forallb_impl with (f := is_digit); [apply digit_is_ident_char|].
  apply print_digits.
Qed.

Lemma join_version_chars (l : list str) :
  forallb (forallb semver.is_ident_char) l = true ->
  forallb is_version_char (join "." l) = true.
Proof.
  induction l as [|w l IH]; [reflexivity|]. intros H. simpl in H.
  apply andb_true_iff in H. destruct H as [Hw Hl].
  destruct l as [|w' l]; [now apply ident_chars_version|].
  change (join "." (w :: w' :: l)) with (w ++ "."%char :: join "." (w' :: l)).
  rewrite version_chars_app, ident_chars_version by assumption.
  simpl. now apply IH.
Qed.

Lemma format_eq (v : semver.SemVer) :
  semver.format v =
  main_version (semver.major v) (semver.minor v) (semver.patch v)
  ++ pre_suffix (map semver.ident_string (semver.prerelease v)).
Proof.
  unfold semver.format, main_version, pre_suffix.
  rewrite <- !app_assoc. simpl. rewrite <- !app_assoc. simpl.
  destruct (semver.prerelease v); reflexivity.
Qed.

Lemma split_main (M m p : N) :
  split "." (main_version M m p) = [print_N M; print_N m; print_N p].
Proof.
  unfold main_version.
  rewrite split_app by (apply digits_lack; [reflexivity|apply print_digits]).
  rewrite split_app by (apply digits_lack; [reflexivity|apply print_digits]).
  rewrite split_lacks by (apply digits_lack; [reflexivity|apply print_digits]).
  reflexivity.
Qed.

Lemma main_version_chars (M m p : N) :
  forallb is_version_char (main_version M m p) = true.
Proof.
  unfold main_version.
  rewrite version_chars_app, ident_chars_version by apply print_ident_chars.
  simpl. rewrite version_chars_app, ident_chars_version by apply print_ident_chars.
  simpl. apply ident_chars_version, print_ident_chars.
Qed.

Lemma main_version_lacks_minus (M m p : N) : lacks "-" (main_version M m p) = true.
Proof.
  unfold main_version.
  rewrite lacks_app, (digits_lack "-") by (reflexivity || apply print_digits).
  simpl. rewrite lacks_app, (digits_lack "-") by (reflexivity || apply print_digits).
  simpl. apply digits_lack; [reflexivity|apply print_digits].
Qed.

Lemma prerelease_identifier_chars (s : str) :
  semver.is_prerelease_identifier s = true ->
  forallb semver.is_ident_char s = true.
Proof.
  destruct s; [discriminate|]. unfold semver.is_prerelease_identifier.
  intros H. now apply andb_true_iff in H.
Qed.

Lemma pre_suffix_chars (ids : list str) :
  forallb semver.is_prerelease_identifier ids = true ->
  forallb is_version_char (pre_suffix ids) = true.
Proof.
  intros H. destruct ids as [|i ids]; [reflexivity|].
  unfold pre_suffix. cbn [forallb]. apply andb_true_iff. split; [reflexivity|].
  apply join_version_chars. revert H. apply forallb_impl.
  apply prerelease_identifier_chars.
Qed.

Lemma strip_v_digit (c : ascii) (s : str) :
  is_digit c = true -> semver.strip_v (c :: s) = c :: s.
Proof.
  intros H. unfold semver.strip_v.
  destruct c as [[] [] [] [] [] [] [] []]; try reflexivity; discriminate.
Qed.

Lemma strip_v_main (M m p : N) (r : str) :
  semver.strip_v (main_version M m p ++ r) = main_version M m p ++ r.
Proof.
  unfold main_version. pose proof (print_digits M) as Hd.
  pose proof (print_not_nil M) as Hn.
  destruct (print_N M) as [|c s]; [congruence|].
  simpl in Hd. apply andb_true_iff in Hd. destruct Hd as [Hc _].
  simpl app. now apply strip_v_digit.
Qed.

(** The body of [parse] once the string is trimmed and the [v] removed. *)
Lemma parse_body (M m p : N) (ids : list str) :
  M <= semver.MAX_SAFE_INTEGER -> m <= semver.MAX_SAFE_INTEGER ->
  p <= semver.MAX_SAFE_INTEGER ->
  forallb semver.is_prerelease_identifier ids = true ->
  forall s pv,
    s = pv ++ main_version M m p ++ pre_suffix ids ->
    semver.strip_v s = main_version M m p ++ pre_suffix ids ->
    forallb is_version_char pv = true ->
    (List.length s <= semver.MAX_LENGTH)%nat ->
    semver.parse s =
    Some (semver.mkSemVer M m p (map semver.to_ident ids) []).
Proof.
  intros HM Hm Hp Hids s pv Hs Hstrip Hpv Hlen.
  assert (Hchars : forallb is_version_char s = true).
  { rewrite Hs, !version_chars_app, Hpv, main_version_chars, pre_suffix_chars; trivial. }
  unfold semver.parse.
  replace (Nat.ltb semver.MAX_LENGTH (List.length s)) with false
    by (symmetry; apply Nat.ltb_ge; exact Hlen).
  rewrite <- (app_nil_r s) at 1.
  rewrite trim_no_space by (trivial; now apply version_chars_no_space).
  rewrite Hstrip.
  rewrite cut_none.
  2:{ apply version_chars_lack_plus.
      now rewrite version_chars_app, main_version_chars, pre_suffix_chars. }
  assert (Hcut : cut "-" (main_version M m p ++ pre_suffix ids) =
                 (main_version M m p,
                  match ids with [] => None | _ => Some (join "." ids) end)).
  { destruct ids as [|i ids].
    - simpl. rewrite app_nil_r. apply cut_none, main_version_lacks_minus.
    - unfold pre_suffix. apply cut_app, main_version_lacks_minus. }
  rewrite Hcut, split_main.
  assert (Hsplit : match
                     match ids with [] => None | _ :: _ => Some (join "." ids) end
                   with Some p' => split "." p' | None => [] end = ids).
  { destruct ids as [|i ids]; [reflexivity|].
    apply split_join; [discriminate|].
    revert Hids. apply forallb_impl. intros x Hx.
    apply ident_chars_lack; [reflexivity|].
    now apply prerelease_identifier_chars. }
  rewrite !print_numeric, !value_print.
  replace (match
              match ids with [] => None | _ :: _ => Some (join "." ids) end
            with Some p' => map semver.to_ident (split "." p') | None => [] end)
    with (map semver.to_ident ids).
  2:{ rewrite <- Hsplit at 1. destruct ids; reflexivity. }
  rewrite Hsplit, Hids.
  replace (M <=? semver.MAX_SAFE_INTEGER) with true by (symmetry; now apply N.leb_le).
  replace (m <=? semver.MAX_SAFE_INTEGER) with true by (symmetry; now apply N.leb_le).
  replace (p <=? semver.MAX_SAFE_INTEGER) with true by (symmetry; now apply N.leb_le).
  reflexivity.
Qed.

(** [new SemVer("v" + text)] for the text of a version without build. *)
Lemma parse_v (M m p : N) (ids : list str) :
  M <= semver.MAX_SAFE_INTEGER -> m <= semver.MAX_SAFE_INTEGER ->
  p <= semver.MAX_SAFE_INTEGER ->
  forallb semver.is_prerelease_identifier ids = true ->
  (List.length ("v"%char :: main_version M m p ++ pre_suffix ids)
   <= semver.MAX_LENGTH)%nat ->
  semver.parse ("v"%char :: main_version M m p ++ pre_suffix ids) =
  Some (semver.mkSemVer M m p (map semver.to_ident ids) []).
Proof.
  intros HM Hm Hp Hids Hlen.
  apply (parse_body M m p ids HM Hm Hp Hids _ ["v"%char]); trivial.
Qed.

(** [new SemVer(text)] for the text of a version without build. *)
Lemma parse_plain (M m p : N) (ids : list str) :
  M <= semver.MAX_SAFE_INTEGER -> m <= semver.MAX_SAFE_INTEGER ->
  p <= semver.MAX_SAFE_INTEGER ->
  forallb semver.is_prerelease_identifier ids = true ->
  (List.length (main_version M m p ++ pre_suffix ids) <= semver.MAX_LENGTH)%nat ->
  semver.parse (main_version M m p ++ pre_suffix ids) =
  Some (semver.mkSemVer M m p (map semver.to_ident ids) []).
Proof.
  intros HM Hm Hp Hids Hlen.
  apply (parse_body M m p ids HM Hm Hp Hids _ []); trivial.
  apply strip_v_main.
Qed.

Lemma ident_string_to_ident (s : str) :
  semver.is_prerelease_identifier s = true ->
  semver.ident_string (semver.to_ident s) = s.
Proof.
  intros H. unfold semver.to_ident.
  destruct (all_digits s) eqn:D; simpl; [|reflexivity].
  destruct (digits_value s <? semver.MAX_SAFE_INTEGER); simpl; [|reflexivity].
  apply print_value. destruct s; [discriminate|].
  unfold semver.is_prerelease_identifier in H.
  apply andb_true_iff in H. destruct H as [_ H].
  rewrite D in H. simpl in H. now rewrite orb_false_r in H.
Qed.

Lemma ident_strings_to_idents (ids : list str) :
  forallb semver.is_prerelease_identifier ids = true ->
  map semver.ident_string (map semver.to_ident ids) = ids.
Proof.
  induction ids as [|i ids IH]; [reflexivity|]. simpl. intros H.
  apply andb_true_iff in H. destruct H as [Hi Hids].
  now rewrite ident_string_to_ident, IH.
Qed.

Lemma trimStart_length (s : str) : (List.length (trimStart s) <= List.length s)%nat.
Proof.
  induction s as [|c s IH]; simpl; [lia|].
  destruct (is_space c); simpl; lia.
Qed.

Lemma trim_length (s : str) : (List.length (trim s) <= List.length s)%nat.
Proof.
  unfold trim. rewrite length_rev.
  eapply Nat.le_trans; [apply trimStart_length|]. rewrite length_rev.
  apply trimStart_length.
Qed.

Lemma strip_v_length (s : str) : (List.length (semver.strip_v s) <= List.length s)%nat.
Proof.
  unfold semver.strip_v.
  destruct s as [|c s]; [simpl; lia|].
  destruct c as [[] [] [] [] [] [] [] []]; simpl; lia.
Qed.

(** What a string that parses looks like. *)
Lemma parse_inv (s : str) (v : semver.SemVer) :
  semver.parse s = Some v ->
  exists ids,
    semver.major v <= semver.MAX_SAFE_INTEGER /\
    semver.minor v <= semver.MAX_SAFE_INTEGER /\
    semver.patch v <= semver.MAX_SAFE_INTEGER /\
    forallb semver.is_prerelease_identifier ids = true /\
    semver.prerelease v = map semver.to_ident ids /\
    semver.strip_v (trim s) =
      main_version (semver.major v) (semver.minor v) (semver.patch v)
      ++ pre_suffix ids ++ build_suffix (semver.build v) /\
    (List.length s <= semver.MAX_LENGTH)%nat.
Proof.
  unfold semver.parse. intros H.
  destruct (Nat.ltb semver.MAX_LENGTH (List.length s)) eqn:Hlen; [discriminate|].
  apply Nat.ltb_ge in Hlen.
  destruct (cut "+" (semver.strip_v (trim s))) as [mp b] eqn:C1.
  destruct (cut "-" mp) as [m p] eqn:C2.
  destruct (split "." m) as [|ma [|mi [|pa [|]]]] eqn:Sm; try discriminate.
  match type of H with (if ?c then _ else _) = _ => destruct c eqn:Hc end;
    [|discriminate].
  do 7 (apply andb_true_iff in Hc; destruct Hc as [Hc ?]).
  inversion H; subst v; clear H. cbn [semver.major semver.minor semver.patch
                                       semver.prerelease semver.build].
  exists (match p with Some p' => split "." p' | None => [] end).
  repeat match goal with
         | X : (_ <=? _) = true |- _ => apply N.leb_le in X
         end.
  repeat split; trivial.
  - destruct p; reflexivity.
  - destruct (cut_inv _ _ _ _ C1) as [_ E1].
    destruct (cut_inv _ _ _ _ C2) as [_ E2].
    rewrite E1, E2, <- app_assoc. f_equal.
    + rewrite <- (join_split "." m), Sm. unfold main_version.
      rewrite !print_value by assumption. reflexivity.
    + f_equal.
      * destruct p as [p'|]; [|reflexivity]. unfold pre_suffix.
        pose proof (split_not_nil "." p') as Hn.
        destruct (split "." p') eqn:Sp; [congruence|].
        now rewrite <- Sp, join_split.
      * destruct b as [b'|]; [|reflexivity]. unfold build_suffix.
        pose proof (split_not_nil "." b') as Hn.
        destruct (split "." b') eqn:Sp; [congruence|].
        now rewrite <- Sp, join_split.
Qed.

(** The [version] field of a [SemVer] object parses to the object, build
    metadata apart. *)
Lemma parse_format (s : str) (v : semver.SemVer) :
  semver.parse s = Some v ->
  semver.parse (semver.format v) = Some (without_build v).
Proof.
  intros H.
  destruct (parse_inv s v H) as (ids & HM & Hm & Hp & Hids & Hpre & Hs & Hlen).
  rewrite format_eq, Hpre, ident_strings_to_idents by assumption.
  unfold without_build. rewrite Hpre.
  apply parse_plain; trivial.
  eapply Nat.le_trans; [|exact Hlen].
  eapply Nat.le_trans; [|apply trim_length].
  eapply Nat.le_trans; [|apply strip_v_length].
  rewrite Hs, !length_app. lia.
Qed.

(** ** Comparing versions *)

Lemma ident_identical_refl (a : semver.ident) : semver.ident_identical a a = true.
Proof. destruct a; simpl; [apply N.eqb_refl|apply str_eqb_refl]. Qed.

Lemma ident_identical_sym (a b : semver.ident) :
  semver.ident_identical a b = semver.ident_identical b a.
Proof.
  destruct a, b; simpl; trivial; [apply N.eqb_sym|].
  destruct (str_eqb s s0) eqn:E.
  - apply str_eqb_true in E. subst. now rewrite str_eqb_refl.
  - symmetry. apply str_eqb_false. apply str_eqb_false in E. congruence.
Qed.

Lemma ident_identical_eq (a b : semver.ident) :
  semver.ident_identical a b = true -> a = b.
Proof.
  destruct a, b; simpl; try discriminate; intros H.
  - apply N.eqb_eq in H. now subst.
  - apply str_eqb_true in H. now subst.
Qed.

Lemma comparePreLoop_refl (l : list semver.ident) : semver.comparePreLoop l l = Eq.
Proof.
  induction l as [|x l IH]; simpl; [reflexivity|].
  now rewrite ident_identical_refl.
Qed.

Lemma str_ltb_antisym (s t : str) :
  s <> t -> semver.str_ltb s t = negb (semver.str_ltb t s).
Proof.
  revert t. induction s as [|c s IH]; intros [|d t] H; simpl; try congruence.
  destruct (N_of_ascii c <? N_of_ascii d) eqn:E1;
    destruct (N_of_ascii d <? N_of_ascii c) eqn:E2; try reflexivity.
  - apply N.ltb_lt in E1, E2. lia.
  - apply N.ltb_ge in E1, E2.
    assert (c = d) by (apply N_of_ascii_inj; lia). subst.
    apply IH. congruence.
Qed.

Lemma compareIdentifiers_antisym (a b : semver.ident) :
  semver.compareIdentifiers b a = CompOpp (semver.compareIdentifiers a b).
Proof.
  unfold semver.compareIdentifiers.
  rewrite (ident_identical_sym b a), (andb_comm (semver.numeric_test b)).
  destruct (semver.numeric_test a) eqn:Na, (semver.numeric_test b) eqn:Nb; simpl.
  - apply N.compare_antisym.
  - destruct (semver.ident_identical a b); reflexivity.
  - destruct (semver.ident_identical a b); reflexivity.
  - destruct (semver.ident_identical a b) eqn:I; [reflexivity|].
    destruct a as [|s], b as [|t]; try discriminate. simpl in *.
    apply str_eqb_false in I. rewrite (str_ltb_antisym s t I).
    destruct (semver.str_ltb t s); reflexivity.
Qed.

Lemma comparePreLoop_antisym (l l' : list semver.ident) :
  semver.comparePreLoop l' l = CompOpp (semver.comparePreLoop l l').
Proof.
  revert l'. induction l as [|x l IH]; intros [|y l']; simpl; trivial.
  rewrite (ident_identical_sym y x).
  destruct (semver.ident_identical x y); [apply IH|].
  apply compareIdentifiers_antisym.
Qed.

Lemma compare_fields_antisym (a b : semver.SemVer) :
  compare_fields b a = CompOpp (compare_fields a b).
Proof.
  unfold compare_fields, semver.compareMain, semver.comparePre.
  rewrite (N.compare_antisym (semver.major a)), (N.compare_antisym (semver.minor a)),
    (N.compare_antisym (semver.patch a)).
  destruct (semver.major a ?= semver.major b); simpl; trivial.
  destruct (semver.minor a ?= semver.minor b); simpl; trivial.
  destruct (semver.patch a ?= semver.patch b); simpl; trivial.
  destruct (semver.prerelease a) as [|x l] eqn:Ea,
           (semver.prerelease b) as [|y l'] eqn:Eb; trivial.
  apply (comparePreLoop_antisym (x :: l) (y :: l')).
Qed.

Lemma compare_fields_same (a b : semver.SemVer) :
  without_build a = without_build b -> compare_fields a b = Eq.
Proof.
  unfold without_build. intros H. inversion H as [[HM Hm Hp Hpre]].
  unfold compare_fields, semver.compareMain, semver.comparePre.
  rewrite HM, Hm, Hp, Hpre, !N.compare_refl. simpl.
  destruct (semver.prerelease b) as [|i l];
    [reflexivity|apply (comparePreLoop_refl (i :: l))].
Qed.

(** On objects that come from the constructor, [compare] is the comparison
    of the fields: the test on the [version] fields changes nothing. *)
Lemma compareSemVer_parsed (s t : str) (a b : semver.SemVer) :
  semver.parse s = Some a -> semver.parse t = Some b ->
  semver.compareSemVer a b = compare_fields a b.
Proof.
  intros Ha Hb. unfold semver.compareSemVer.
  destruct (str_eqb (semver.format a) (semver.format b)) eqn:E; [|reflexivity].
  apply str_eqb_true in E. symmetry. apply compare_fields_same.
  pose proof (parse_format _ _ Ha) as Ra. pose proof (parse_format _ _ Hb) as Rb.
  rewrite E in Ra. congruence.
Qed.

Lemma compare_parsed (s t : str) (a b : semver.SemVer) :
  semver.parse s = Some a -> semver.parse t = Some b ->
  semver.compare s t = Some (compare_fields a b).
Proof.
  intros Ha Hb. unfold semver.compare. rewrite Ha, Hb.
  now rewrite (compareSemVer_parsed s t).
Qed.

Lemma compare_inv (s t : str) (c : comparison) :
  semver.compare s t = Some c ->
  exists a b, semver.parse s = Some a /\ semver.parse t = Some b /\
              c = compare_fields a b.
Proof.
  intros H. unfold semver.compare in H.
  destruct (semver.parse s) as [a|] eqn:Ha; [|discriminate].
  destruct (semver.parse t) as [b|] eqn:Hb; [|discriminate].
  exists a, b. repeat split. inversion H.
  now rewrite (compareSemVer_parsed s t).
Qed.

Lemma compare_antisym (s t : str) (c : comparison) :
  semver.compare s t = Some c -> semver.compare t s = Some (CompOpp c).
Proof.
  intros H. destruct (compare_inv _ _ _ H) as (a & b & Ha & Hb & ->).
  rewrite (compare_parsed t s b a) by assumption.
  now rewrite compare_fields_antisym.
Qed.

Lemma compare_refl (s : str) (a : semver.SemVer) :
  semver.parse s = Some a -> semver.compare s s = Some Eq.
Proof.
  intros H. rewrite (compare_parsed s s a a) by assumption.
  now rewrite compare_fields_same.
Qed.

Lemma compare_defined (s t : str) :
  semver.parse s <> None -> semver.parse t <> None -> semver.compare s t <> None.
Proof.
  unfold semver.compare.
  destruct (semver.parse s), (semver.parse t); congruence.
Qed.

Lemma compare_undefined (s : str) :
  semver.parse s = None ->
  forall t, semver.compare s t = None /\ semver.compare t s = None.
Proof.
  intros H t. unfold semver.compare. rewrite H.
  split; [reflexivity|]. now destruct (semver.parse t).
Qed.

(** ** The marker pattern *)

Lemma wildmatch_star_all (s : str) : wildmatch ["*"%char] s = true.
Proof.
  induction s as [|c s IH]; [reflexivity|].
  simpl in *. destruct s; exact IH.
Qed.

Lemma wildmatch_star_skip (p a s : str) :
  wildmatch p s = true -> wildmatch ("*"%char :: p) (a ++ s) = true.
Proof.
  intros H. induction a as [|c a IH].
  - simpl. destruct s; rewrite H; reflexivity.
  - simpl in *. rewrite IH. apply orb_true_r.
Qed.

Lemma marker_pattern_matches (a b : str) :
  wildmatch marker_pattern ("v"%char :: a ++ lit "-bscotch." ++ b) = true.
Proof.
  unfold marker_pattern.
  change (lit "v*-bscotch.*") with ("v"%char :: "*"%char :: lit "-bscotch.*").
  cbn [wildmatch]. rewrite Ascii.eqb_refl.
  change (Ascii.eqb "v" "*") with false. cbn [andb].
  apply wildmatch_star_skip. simpl. apply (wildmatch_star_all b).
Qed.

Lemma marker_pattern_v (t : str) :
  wildmatch marker_pattern t = true -> exists r, t = "v"%char :: r.
Proof.
  destruct t as [|c r]; [discriminate|]. unfold marker_pattern.
  change (lit "v*-bscotch.*") with ("v"%char :: "*"%char :: lit "-bscotch.*").
  cbn [wildmatch]. change (Ascii.eqb "v" "*") with false. cbv iota.
  intros H. apply andb_true_iff in H. destruct H as [H _].
  apply Ascii.eqb_eq in H. subst. now exists r.
Qed.

Lemma git_tag_list_marker (tags tags' : list str) (pattern : str) :
  Permutation (filter (wildmatch pattern) tags) (filter (wildmatch pattern) tags') ->
  git_tag_list tags pattern = git_tag_list tags' pattern.
Proof.
  intros H. unfold git_tag_list. now rewrite (refname_sort_permutation _ _ H).
Qed.

(** The result depends on the tags only through the tags that match the
    marker pattern, as a multiset. *)
Lemma resolveNext_marker_tags (tags tags' : list str) (baseVersion : str) :
  Permutation (marker_tags tags) (marker_tags tags') ->
  resolveNext tags baseVersion = resolveNext tags' baseVersion.
Proof.
  intros H. unfold resolveNext, latestTag, getMaxMatchingTag, getMatchingTags,
              run_git_tag_list.
  now rewrite (git_tag_list_marker tags tags' (lit "v*-bscotch.*") H).
Qed.

(** The tags the script reads, when no marker tag holds white space. *)
Lemma getMatchingTags_marker (tags : list str) :
  forallb git_tag_name (marker_tags tags) = true ->
  getMatchingTags tags marker_pattern =
  match refname_sort (marker_tags tags) with
  | [] => [[]]
  | l => l
  end.
Proof.
  intros H. unfold getMatchingTags, run_git_tag_list, git_tag_list.
  fold (marker_tags tags). rewrite read_lines.
  - now destruct (refname_sort (marker_tags tags)).
  - rewrite forallb_forall in *. intros t Ht. apply H.
    eapply Permutation_in; [apply refname_sort_perm|exact Ht].
Qed.

Lemma marker_tags_names (tags : list str) :
  forallb git_tag_name tags = true ->
  forallb git_tag_name (marker_tags tags) = true.
Proof.
  intros H. rewrite forallb_forall in *. intros t Ht.
  apply H. unfold marker_tags in Ht. now apply filter_In in Ht.
Qed.

(** ** Base versions and family tags *)

Lemma valid_base_inv (B : str) :
  valid_base B = true ->
  exists M m p,
    M <= semver.MAX_SAFE_INTEGER /\ m <= semver.MAX_SAFE_INTEGER /\
    p <= semver.MAX_SAFE_INTEGER /\ B = main_version M m p.
Proof.
  unfold valid_base. intros H.
  destruct (split "." B) as [|a [|b [|c [|]]]] eqn:S; try discriminate.
  do 5 (apply andb_true_iff in H; destruct H as [H ?]).
  repeat match goal with
         | X : (_ <=? _) = true |- _ => apply N.leb_le in X
         end.
  exists (digits_value a), (digits_value b), (digits_value c).
  repeat split; trivial.
  unfold main_version. rewrite !print_value by assumption.
  rewrite <- (join_split "." B), S. reflexivity.
Qed.

Lemma print_length (n : N) :
  n <= semver.MAX_SAFE_INTEGER -> (List.length (print_N n) <= 16)%nat.
Proof.
  intros H. apply numeric_length; [apply print_numeric|now rewrite value_print].
Qed.

Lemma main_version_length (M m p : N) :
  M <= semver.MAX_SAFE_INTEGER -> m <= semver.MAX_SAFE_INTEGER ->
  p <= semver.MAX_SAFE_INTEGER ->
  (List.length (main_version M m p) <= 50)%nat.
Proof.
  intros HM Hm Hp. unfold main_version.
  pose proof (print_length M HM). pose proof (print_length m Hm).
  pose proof (print_length p Hp).
  rewrite length_app. simpl. rewrite length_app. simpl. lia.
Qed.

Lemma print_prerelease_identifier (n : N) :
  semver.is_prerelease_identifier (print_N n) = true.
Proof.
  unfold semver.is_prerelease_identifier.
  pose proof (print_not_nil n). destruct (print_N n) eqn:E; [congruence|].
  rewrite <- E, print_ident_chars, print_numeric. reflexivity.
Qed.

Lemma to_ident_print (n : N) :
  n < semver.MAX_SAFE_INTEGER -> semver.to_ident (print_N n) = semver.PNum n.
Proof.
  intros H. unfold semver.to_ident. rewrite print_all_digits, value_print.
  now replace (n <? semver.MAX_SAFE_INTEGER) with true
    by (symmetry; now apply N.ltb_lt).
Qed.

(** [new SemVer("v<M.m.p>-bscotch.<n>")]. *)
Lemma parse_family_tag (M m p n : N) :
  M <= semver.MAX_SAFE_INTEGER -> m <= semver.MAX_SAFE_INTEGER ->
  p <= semver.MAX_SAFE_INTEGER -> n <= semver.MAX_SAFE_INTEGER ->
  semver.parse (family_tag (main_version M m p) n) =
  Some (semver.mkSemVer M m p [bscotch; semver.to_ident (print_N n)] []).
Proof.
  intros HM Hm Hp Hn. unfold family_tag.
  change (lit "v" ++ main_version M m p ++ lit "-bscotch." ++ print_N n)
    with ("v"%char :: main_version M m p ++ pre_suffix [lit "bscotch"; print_N n]).
  apply (parse_v M m p [lit "bscotch"; print_N n]); trivial.
  - cbn [forallb]. rewrite print_prerelease_identifier. reflexivity.
  - pose proof (main_version_length M m p HM Hm Hp).
    pose proof (print_length n Hn).
    cbn [List.length]. rewrite length_app. unfold pre_suffix.
    cbn [join List.length]. rewrite length_app. cbn [List.length lit list_ascii_of_string].
    unfold semver.MAX_LENGTH. lia.
Qed.

(** [semver.inc("v<M.m.p>-bscotch.<n>", "prerelease", "bscotch")]. *)
Lemma inc_family_tag (M m p n : N) :
  M <= semver.MAX_SAFE_INTEGER -> m <= semver.MAX_SAFE_INTEGER ->
  p <= semver.MAX_SAFE_INTEGER -> n < semver.MAX_SAFE_INTEGER ->
  semver.inc (family_tag (main_version M m p) n) (lit "bscotch") =
  Some (main_version M m p ++ lit "-bscotch." ++ print_N (n + 1)).
Proof.
  intros HM Hm Hp Hn. unfold semver.inc.
  rewrite parse_family_tag, to_ident_print by (trivial; lia).
  rewrite format_eq. reflexivity.
Qed.

(** ** The latest tag *)

Lemma refname_sort_nil (l : list str) : refname_sort l = [] -> l = [].
Proof.
  intros H. pose proof (refname_sort_perm l) as P. rewrite H in P.
  now apply Permutation_nil in P.
Qed.

(** When the marker tags parse, the sort does not throw and gives one of
    them, or the empty line of the empty output. *)
Lemma getMaxMatchingTag_total (tags : list str) :
  forallb git_tag_name (marker_tags tags) = true ->
  (forall t, In t (marker_tags tags) -> semver.parse t <> None) ->
  exists x, getMaxMatchingTag tags marker_pattern = Ok (Some x) /\
            ((x = [] /\ marker_tags tags = []) \/ In x (marker_tags tags)).
Proof.
  intros Hn Hp. unfold getMaxMatchingTag, maxVersion.
  rewrite getMatchingTags_marker by assumption.
  destruct (refname_sort (marker_tags tags)) as [|t l] eqn:E.
  - exists []. split; [reflexivity|]. left. split; [reflexivity|].
    now apply refname_sort_nil.
  - destruct (sort_total semver.compare (t :: l)) as [r Hr].
    + intros x y Hx Hy. apply compare_defined; apply Hp;
        (eapply Permutation_in; [apply refname_sort_perm|]); now rewrite E.
    + rewrite Hr. pose proof (sort_perm _ _ _ Hr) as P.
      destruct r as [|y r]; [apply Permutation_nil in P; discriminate|].
      exists (last (y :: r) []). split; [reflexivity|]. right.
      eapply Permutation_in; [apply refname_sort_perm|]. rewrite E.
      eapply Permutation_in; [exact P|]. now apply last_elt_in.
Qed.

(** A marker tag that sorts strictly above all the others is the latest
    tag. *)
Lemma getMaxMatchingTag_max (tags : list str) (L : str) :
  forallb git_tag_name (marker_tags tags) = true ->
  In L (marker_tags tags) ->
  semver.parse L <> None ->
  (forall t, In t (marker_tags tags) -> t = L \/ semver.compare t L = Some Lt) ->
  getMaxMatchingTag tags marker_pattern = Ok (Some L).
Proof.
  intros Hn HL Hp Hmax. unfold getMaxMatchingTag, maxVersion.
  rewrite getMatchingTags_marker by assumption.
  assert (Hin : forall t, In t (refname_sort (marker_tags tags)) ->
                          In t (marker_tags tags)).
  { intros t Ht. eapply Permutation_in; [apply refname_sort_perm|exact Ht]. }
  assert (HL' : In L (refname_sort (marker_tags tags))).
  { eapply Permutation_in; [symmetry; apply refname_sort_perm|exact HL]. }
  destruct (refname_sort (marker_tags tags)) as [|t l] eqn:E; [contradiction|].
  assert (Hparse : forall t, In t (marker_tags tags) -> semver.parse t <> None).
  { intros x Hx. destruct (Hmax x Hx) as [->|H]; [assumption|].
    destruct (compare_inv _ _ _ H) as (a & b & Ha & _). congruence. }
  destruct (sort_strict_max semver.compare (t :: l) L) as [r [Hr Hl]]; trivial.
  - intros x y Hx Hy. apply compare_defined; apply Hparse; auto.
  - intros x Hx. destruct (Hmax x (Hin x Hx)) as [->|H]; [now left|right].
    split; [assumption|]. now apply compare_antisym in H.
  - destruct (semver.parse L) as [a|] eqn:Ha; [|congruence].
    rewrite (compare_refl L a Ha). discriminate.
  - now rewrite Hr, Hl.
Qed.

(** The synthetic anchor [v<B>-bscotch.0]. *)
Lemma synthetic_anchor (B : str) :
  lit "v" ++ B ++ lit "-bscotch.0" = family_tag B 0.
Proof. reflexivity. Qed.

Lemma family_tag_prefix (B : str) (n : N) :
  startsWith (family_tag B n) (lit "v" ++ B ++ lit "-") = true.
Proof.
  unfold family_tag.
  replace (lit "v" ++ B ++ lit "-bscotch." ++ print_N n)
    with ((lit "v" ++ B ++ lit "-") ++ lit "bscotch." ++ print_N n).
  - apply startsWith_app.
  - simpl. rewrite <- !app_assoc. reflexivity.
Qed.

Lemma anchor_of_other (B t : str) :
  startsWith t (lit "v" ++ B ++ lit "-") = false ->
  anchor_of B (Some t) = family_tag B 0.
Proof.
  unfold anchor_of. intros H. destruct t as [|c t]; [reflexivity|].
  now rewrite H.
Qed.

Lemma anchor_of_latest (B t : str) :
  startsWith t (lit "v" ++ B ++ lit "-") = true -> anchor_of B (Some t) = t.
Proof.
  unfold anchor_of. intros H. destruct t as [|c t]; [discriminate|].
  now rewrite H.
Qed.

Lemma resolveNext_anchor (tags : list str) (B : str) (x : option str) :
  getMaxMatchingTag tags marker_pattern = Ok x ->
  resolveNext tags B =
  Ok (semver.inc (anchor_of B x) (lit "bscotch"),
      lit "v" ++ template_value (semver.inc (anchor_of B x) (lit "bscotch"))).
Proof.
  intros H. unfold resolveNext, latestTag.
  change (lit "v*-bscotch.*") with marker_pattern. now rewrite H.
Qed.

Lemma family_tag_name (B : str) (n : N) :
  valid_base B = true -> git_tag_name (family_tag B n) = true.
Proof.
  intros HB. destruct (valid_base_inv B HB) as (M & m & p & _ & _ & _ & ->).
  unfold family_tag.
  change (lit "v" ++ main_version M m p ++ lit "-bscotch." ++ print_N n)
    with ("v"%char :: main_version M m p ++ pre_suffix [lit "bscotch"; print_N n]).
  unfold git_tag_name. apply version_chars_no_space.
  cbn [forallb]. apply andb_true_iff. split; [reflexivity|].
  rewrite version_chars_app, main_version_chars, pre_suffix_chars; trivial.
  cbn [forallb]. now rewrite print_prerelease_identifier.
Qed.

(** Family tags of one base version sort by their counter. *)
Lemma compare_family_tags (B : str) (i k : N) :
  valid_base B = true ->
  i < k -> k < semver.MAX_SAFE_INTEGER ->
  semver.compare (family_tag B i) (family_tag B k) = Some Lt.
Proof.
  intros HB Hik Hk.
  destruct (valid_base_inv B HB) as (M & m & p & HM & Hm & Hp & ->).
  rewrite (compare_parsed _ _ _ _ (parse_family_tag M m p i HM Hm Hp ltac:(lia))
             (parse_family_tag M m p k HM Hm Hp ltac:(lia))).
  rewrite !to_ident_print by lia.
  unfold compare_fields, semver.compareMain, semver.comparePre.
  cbn [semver.major semver.minor semver.patch semver.prerelease].
  rewrite !N.compare_refl. cbn [semver.or_else semver.comparePreLoop].
  rewrite ident_identical_refl. cbn [semver.ident_identical].
  replace (i =? k) with false by (symmetry; apply N.eqb_neq; lia).
  unfold semver.compareIdentifiers. cbn [semver.numeric_test andb semver.ident_number].
  f_equal. apply N.compare_lt_iff. assumption.
Qed.

(** ** [semver.compare] is a strict order where it says "less" *)

Lemma str_ltb_irrefl (a : str) : semver.str_ltb a a = false.
Proof.
  induction a as [|c a IH]; simpl; [reflexivity|].
  now rewrite N.ltb_irrefl.
Qed.

Lemma str_ltb_trans (a b c : str) :
  semver.str_ltb a b = true -> semver.str_ltb b c = true ->
  semver.str_ltb a c = true.
Proof.
  revert b c. induction a as [|x a IH]; intros [|y b] [|z c]; simpl;
    try congruence.
  destruct (N_of_ascii x <? N_of_ascii y) eqn:E1;
    destruct (N_of_ascii y <? N_of_ascii x) eqn:E2;
    destruct (N_of_ascii y <? N_of_ascii z) eqn:E3;
    destruct (N_of_ascii z <? N_of_ascii y) eqn:E4;
    destruct (N_of_ascii x <? N_of_ascii z) eqn:E5;
    destruct (N_of_ascii z <? N_of_ascii x) eqn:E6;
    try discriminate; try reflexivity;
    try (apply N.ltb_lt in E1); try (apply N.ltb_lt in E2);
    try (apply N.ltb_lt in E3); try (apply N.ltb_lt in E4);
    try (apply N.ltb_lt in E5); try (apply N.ltb_lt in E6);
    try (apply N.ltb_ge in E1); try (apply N.ltb_ge in E2);
    try (apply N.ltb_ge in E3); try (apply N.ltb_ge in E4);
    try (apply N.ltb_ge in E5); try (apply N.ltb_ge in E6);
    try lia.
  apply IH.
Qed.

Lemma compareIdentifiers_identical (x y : semver.ident) :
  semver.ident_identical x y = true -> semver.compareIdentifiers x y = Eq.
Proof.
  intros H. apply ident_identical_eq in H. subst y.
  unfold semver.compareIdentifiers. rewrite ident_identical_refl.
  destruct (semver.numeric_test x); simpl; [apply N.compare_refl|reflexivity].
Qed.

Lemma compareIdentifiers_lt_trans (x y z : semver.ident) :
  semver.compareIdentifiers x y = Lt -> semver.compareIdentifiers y z = Lt ->
  semver.compareIdentifiers x z = Lt.
Proof.
  unfold semver.compareIdentifiers.
  destruct (semver.numeric_test x) eqn:Nx, (semver.numeric_test y) eqn:Ny,
           (semver.numeric_test z) eqn:Nz; cbn [andb].
  - intros H1 H2. rewrite N.compare_lt_iff in H1, H2. apply N.compare_lt_iff. lia.
  - intros _ _. destruct (semver.ident_identical x z) eqn:E; [|reflexivity].
    apply ident_identical_eq in E. congruence.
  - intros _. destruct (semver.ident_identical y z); discriminate.
  - intros _ _. destruct (semver.ident_identical x z) eqn:E; [|reflexivity].
    apply ident_identical_eq in E. congruence.
  - destruct (semver.ident_identical x y); discriminate.
  - destruct (semver.ident_identical x y); discriminate.
  - intros _. destruct (semver.ident_identical y z); discriminate.
  - destruct x as [|a], y as [|b], z as [|c]; try discriminate.
    cbn [semver.ident_identical semver.ident_string].
    destruct (str_eqb a b); [discriminate|].
    destruct (str_eqb b c); [discriminate|].
    destruct (semver.str_ltb a b) eqn:L1; [|discriminate].
    destruct (semver.str_ltb b c) eqn:L2; [|discriminate].
    intros _ _. pose proof (str_ltb_trans a b c L1 L2) as L3.
    destruct (str_eqb a c) eqn:E.
    + apply str_eqb_true in E. subst c. rewrite str_ltb_irrefl in L3. discriminate.
    + now rewrite L3.
Qed.

Lemma compareIdentifiers_lt_not_identical (x y : semver.ident) :
  semver.compareIdentifiers x y = Lt -> semver.ident_identical x y = false.
Proof.
  intros H. destruct (semver.ident_identical x y) eqn:E; [|reflexivity].
  rewrite (compareIdentifiers_identical x y E) in H. discriminate.
Qed.

Lemma comparePreLoop_lt_trans (a b c : list semver.ident) :
  semver.comparePreLoop a b = Lt -> semver.comparePreLoop b c = Lt ->
  semver.comparePreLoop a c = Lt.
Proof.
  revert b c. induction a as [|x a IH]; intros [|y b] [|z c]; simpl;
    try congruence.
  destruct (semver.ident_identical x y) eqn:Exy,
           (semver.ident_identical y z) eqn:Eyz.
  - apply ident_identical_eq in Exy, Eyz. subst.
    rewrite ident_identical_refl. apply IH.
  - apply ident_identical_eq in Exy. subst y. now rewrite Eyz.
  - apply ident_identical_eq in Eyz. subst z. now rewrite Exy.
  - intros H1 H2. pose proof (compareIdentifiers_lt_trans x y z H1 H2) as H3.
    now rewrite (compareIdentifiers_lt_not_identical x z H3).
Qed.

Lemma compareMain_eq (a b : semver.SemVer) :
  semver.compareMain a b = Eq ->
  semver.major a = semver.major b /\ semver.minor a = semver.minor b /\
  semver.patch a = semver.patch b.
Proof.
  unfold semver.compareMain.
  destruct (semver.major a ?= semver.major b) eqn:E1; try discriminate.
  destruct (semver.minor a ?= semver.minor b) eqn:E2; try discriminate.
  simpl. intros E3. apply N.compare_eq_iff in E1, E2, E3. auto.
Qed.

Lemma compareMain_lt_trans (a b c : semver.SemVer) :
  semver.compareMain a b = Lt -> semver.compareMain b c <> Gt ->
  semver.compareMain a c = Lt.
Proof.
  unfold semver.compareMain.
  destruct (semver.major a ?= semver.major b) eqn:A1;
    destruct (semver.minor a ?= semver.minor b) eqn:A2;
    destruct (semver.patch a ?= semver.patch b) eqn:A3;
    destruct (semver.major b ?= semver.major c) eqn:B1;
    destruct (semver.minor b ?= semver.minor c) eqn:B2;
    destruct (semver.patch b ?= semver.patch c) eqn:B3;
    cbn [semver.or_else]; try congruence; intros _ _;
    repeat match goal with
           | H : (_ ?= _) = Eq |- _ => apply N.compare_eq_iff in H
           | H : (_ ?= _) = Lt |- _ => rewrite N.compare_lt_iff in H
           | H : (_ ?= _) = Gt |- _ => rewrite N.compare_gt_iff in H
           end;
    destruct (semver.major a ?= semver.major c) eqn:C1;
    destruct (semver.minor a ?= semver.minor c) eqn:C2;
    destruct (semver.patch a ?= semver.patch c) eqn:C3;
    cbn [semver.or_else]; try reflexivity; exfalso;
    repeat match goal with
           | H : (_ ?= _) = Eq |- _ => apply N.compare_eq_iff in H
           | H : (_ ?= _) = Lt |- _ => rewrite N.compare_lt_iff in H
           | H : (_ ?= _) = Gt |- _ => rewrite N.compare_gt_iff in H
           end; lia.
Qed.

Lemma compareMain_eq_l (a b c : semver.SemVer) :
  semver.compareMain a b = Eq -> semver.compareMain a c = semver.compareMain b c.
Proof.
  intros H. apply compareMain_eq in H. destruct H as (H1 & H2 & H3).
  unfold semver.compareMain. now rewrite H1, H2, H3.
Qed.

Lemma comparePre_lt_trans (a b c : semver.SemVer) :
  semver.comparePre a b = Lt -> semver.comparePre b c = Lt ->
  semver.comparePre a c = Lt.
Proof.
  unfold semver.comparePre.
  destruct (semver.prerelease a) as [|x pa], (semver.prerelease b) as [|y pb],
           (semver.prerelease c) as [|z pc]; try congruence.
  apply (comparePreLoop_lt_trans (x :: pa) (y :: pb) (z :: pc)).
Qed.

Lemma compare_fields_lt_trans (a b c : semver.SemVer) :
  compare_fields a b = Lt -> compare_fields b c = Lt -> compare_fields a c = Lt.
Proof.
  unfold compare_fields. intros H1 H2.
  destruct (semver.compareMain a b) eqn:Mab; cbn [semver.or_else] in H1;
    try discriminate.
  - rewrite (compareMain_eq_l a b c Mab).
    destruct (semver.compareMain b c) eqn:Mbc; cbn [semver.or_else] in *;
      try discriminate; [|reflexivity].
    now apply (comparePre_lt_trans a b c).
  - rewrite (compareMain_lt_trans a b c Mab); [reflexivity|].
    intros E. rewrite E in H2. discriminate.
Qed.

(** Sorting below is transitive. *)
Lemma compare_lt_trans (s t u : str) :
  semver.compare s t = Some Lt -> semver.compare t u = Some Lt ->
  semver.compare s u = Some Lt.
Proof.
  intros H1 H2.
  destruct (compare_inv _ _ _ H1) as (a & b & Ha & Hb & E1).
  destruct (compare_inv _ _ _ H2) as (b' & c & Hb' & Hc & E2).
  rewrite Hb in Hb'. inversion Hb'; subst b'.
  rewrite (compare_parsed s u a c Ha Hc). f_equal.
  now apply (compare_fields_lt_trans a b c).
Qed.

(** ** [maxVersion] *)

Lemma greatest_exists (l : list str) :
  l <> [] -> strictly_ordered l -> exists m, greatest l m.
Proof.
  induction l as [|x l IH]; intros Hn [Hp Ho]; [congruence|].
  destruct l as [|y l].
  - exists x. split; [now left|]. intros t [<-|[]]. now left.
  - destruct IH as [m [Hm Hmax]]; [discriminate| |].
    { split; intros; [apply Hp|apply Ho]; now right. }
    destruct (Ho x m (or_introl eq_refl) (or_intror Hm)) as [E|[E|E]].
    + subst x. exists m. split; [now left|].
      intros t [<-|Ht]; [now left|now apply Hmax].
    + exists m. split; [now right|].
      intros t [<-|Ht]; [now right|now apply Hmax].
    + exists x. split; [now left|].
      apply compare_antisym in E. simpl in E.
      intros t [<-|Ht]; [now left|right].
      destruct (Hmax t Ht) as [->|Hlt]; [assumption|].
      now apply (compare_lt_trans t m x).
Qed.

Lemma greatest_unique (l : list str) (m m' : str) :
  greatest l m -> greatest l m' -> m = m'.
Proof.
  intros [Hm Hmax] [Hm' Hmax'].
  destruct (Hmax m' Hm') as [E|E]; [now symmetry|].
  destruct (Hmax' m Hm) as [E'|E']; [assumption|].
  apply compare_antisym in E. simpl in E. congruence.
Qed.

Lemma maxVersion_greatest (l : list str) (m : str) :
  (forall x, In x l -> semver.parse x <> None) ->
  greatest l m -> maxVersion l = Ok (Some m).
Proof.
  intros Hp [Hm Hmax]. unfold maxVersion.
  destruct (sort_strict_max semver.compare l m) as [r [Hr Hl]]; trivial.
  - intros x y Hx Hy. apply compare_defined; now apply Hp.
  - intros t Ht. destruct (Hmax t Ht) as [->|H]; [now left|right].
    split; [assumption|]. now apply compare_antisym in H.
  - destruct (semver.parse m) as [a|] eqn:Ha; [|now apply Hp in Hm].
    rewrite (compare_refl m a Ha). discriminate.
  - now rewrite Hr, Hl.
Qed.

(** * The claims *)

(** C6, amended: the returned version and tag are the same for every
    ordering of the tags of the repository, which git lists in refname
    order.  The maximum of [maxVersion] is itself the same for every
    ordering of its array when the elements are versions of which no two
    compare equal. *)
Theorem resolveNext_order_independent (l l' : list str) (B : str) :
  strictly_ordered l -> Permutation l l' ->
  resolveVersions B l = resolveVersions B l' /\
  forall tags tags',
    Permutation tags tags' ->
    resolveNext tags B = resolveVersions B (getMatchingTags tags (lit "v*-bscotch.*")) /\
    resolveNext tags B = resolveNext tags' B.
Proof.
  intros Ho P. split.
  - unfold resolveVersions. destruct l as [|x l].
    + apply Permutation_nil in P. now subst l'.
    + destruct (greatest_exists (x :: l)) as [m Hm]; [discriminate|assumption|].
      rewrite (maxVersion_greatest (x :: l) m (proj1 Ho) Hm).
      rewrite (maxVersion_greatest l' m); [reflexivity| |].
      * intros y Hy. apply (proj1 Ho).
        eapply Permutation_in; [symmetry; exact P|exact Hy].
      * destruct Hm as [Hi Hmax]. split.
        -- eapply Permutation_in; eassumption.
        -- intros t Ht. apply Hmax.
           eapply Permutation_in; [symmetry; exact P|exact Ht].
  - intros tags tags' Pt. split.
    + unfold resolveNext, latestTag, getMaxMatchingTag, resolveVersions.
      now destruct (maxVersion (getMatchingTags tags (lit "v*-bscotch.*"))).
    + apply resolveNext_marker_tags. now apply filter_permutation.
Qed.

Lemma resolveNext_order_independent_witness :
  resolveVersions (lit "1.0.0")
                  [lit "v1.0.0-bscotch.2"; lit "v1.0.0-bscotch.10"; lit "v0.9.0-bscotch.30"] =
  resolveVersions (lit "1.0.0")
                  [lit "v1.0.0-bscotch.10"; lit "v0.9.0-bscotch.30"; lit "v1.0.0-bscotch.2"].
Proof.
  refine (proj1 (resolveNext_order_independent
                   [lit "v1.0.0-bscotch.2"; lit "v1.0.0-bscotch.10"; lit "v0.9.0-bscotch.30"]
                   [lit "v1.0.0-bscotch.10"; lit "v0.9.0-bscotch.30"; lit "v1.0.0-bscotch.2"]
                   (lit "1.0.0") _ _)).
  - split.
    + intros x Hx. simpl in Hx.
      destruct Hx as [<-|[<-|[<-|[]]]]; vm_compute; discriminate.
    + intros x y Hx Hy. simpl in Hx, Hy.
      destruct Hx as [<-|[<-|[<-|[]]]]; destruct Hy as [<-|[<-|[<-|[]]]];
        vm_compute; auto.
  - apply Permutation_cons_append.
Defined.

(** C6, as stated, fails for the array that [maxVersion] sorts: two tags
    whose counters are above [MAX_SAFE_INTEGER] and round to the same
    double compare equal, the sort leaves them in the order of the array,
    and the result follows the one that comes last. *)
Lemma tied_tags_make_the_result_depend_on_order :
  valid_base (lit "1.0.0") = true /\
  Permutation [lit "v1.0.0-bscotch.9007199254740992"; lit "v1.0.0-bscotch.9007199254740993"]
              [lit "v1.0.0-bscotch.9007199254740993"; lit "v1.0.0-bscotch.9007199254740992"] /\
  semver.compare (lit "v1.0.0-bscotch.9007199254740992")
                 (lit "v1.0.0-bscotch.9007199254740993") = Some Eq /\
  resolveVersions (lit "1.0.0")
    [lit "v1.0.0-bscotch.9007199254740992"; lit "v1.0.0-bscotch.9007199254740993"] =
    Ok (Some (lit "1.0.0-bscotch.9007199254740993.0"),
        lit "v1.0.0-bscotch.9007199254740993.0") /\
  resolveVersions (lit "1.0.0")
    [lit "v1.0.0-bscotch.9007199254740993"; lit "v1.0.0-bscotch.9007199254740992"] =
    Ok (Some (lit "1.0.0-bscotch.9007199254740992.0"),
        lit "v1.0.0-bscotch.9007199254740992.0").
Proof.
  split; [reflexivity|]. split; [apply perm_swap|].
  repeat split; vm_compute; reflexivity.
Qed.

(** C5, amended: adding or removing tags that do not match the marker
    pattern [v*-bscotch.*] never changes the returned version and tag. *)
Theorem resolveNext_ignores_other_tags (tags tags' extra : list str) (B : str) :
  forallb (fun t => negb (wildmatch marker_pattern t)) extra = true ->
  Permutation tags' (tags ++ extra) ->
  resolveNext tags' B = resolveNext tags B.
Proof.
  intros He Hp. apply resolveNext_marker_tags.
  unfold marker_tags.
  rewrite (filter_permutation (wildmatch marker_pattern) _ _ Hp).
  rewrite filter_app.
  replace (filter (wildmatch marker_pattern) extra) with (@nil str).
  - now rewrite app_nil_r.
  - symmetry. clear Hp. induction extra as [|e extra IH]; [reflexivity|].
    cbn [forallb filter] in *. apply andb_true_iff in He.
    destruct He as [H1 H2]. apply negb_true_iff in H1. rewrite H1. auto.
Qed.

Lemma resolveNext_ignores_other_tags_witness :
  resolveNext [lit "v3.1.4"; lit "v2.0.0-bscotch.0"; lit "nightly"] (lit "2.0.0") =
  resolveNext [lit "v2.0.0-bscotch.0"] (lit "2.0.0").
Proof.
  apply (resolveNext_ignores_other_tags _ _ [lit "v3.1.4"; lit "nightly"]).
  - reflexivity.
  - simpl. apply perm_trans with
      [lit "v2.0.0-bscotch.0"; lit "v3.1.4"; lit "nightly"];
      [apply perm_swap|reflexivity].
Defined.

(** C5, as stated, fails: a tag of another base version, outside the active
    family of 1.0.0, changes the result. *)
Lemma other_base_version_changes_result :
  in_family (lit "1.0.0") (lit "v2.0.0-bscotch.0") = false /\
  valid_base (lit "1.0.0") = true /\
  resolveNext [lit "v1.0.0-bscotch.3"] (lit "1.0.0") =
    Ok (Some (lit "1.0.0-bscotch.4"), lit "v1.0.0-bscotch.4") /\
  resolveNext [lit "v1.0.0-bscotch.3"; lit "v2.0.0-bscotch.0"] (lit "1.0.0") =
    Ok (Some (lit "1.0.0-bscotch.1"), lit "v1.0.0-bscotch.1").
Proof. vm_compute. repeat split. Qed.

(** C3, amended: when the marker tags parse and none of them starts with
    [v<B>-] (the empty tag set; the tags of an older base version after a
    bump), the result is [v<B>-bscotch.1]: the synthetic anchor
    [v<B>-bscotch.0] is incremented like any other anchor. *)
Theorem new_family_starts_at_one (tags : list str) (B : str) :
  valid_base B = true ->
  forallb git_tag_name (marker_tags tags) = true ->
  (forall t, In t (marker_tags tags) -> semver.parse t <> None) ->
  (forall t, In t (marker_tags tags) ->
             startsWith t (lit "v" ++ B ++ lit "-") = false) ->
  resolveNext tags B =
  Ok (Some (B ++ lit "-bscotch.1"), lit "v" ++ B ++ lit "-bscotch.1").
Proof.
  intros HB Hn Hp Hs.
  destruct (getMaxMatchingTag_total tags Hn Hp) as [x [Hx Hin]].
  rewrite (resolveNext_anchor _ _ _ Hx).
  assert (Ha : anchor_of B (Some x) = family_tag B 0).
  { destruct Hin as [[-> _]|Hin]; [reflexivity|].
    apply anchor_of_other. now apply Hs. }
  rewrite Ha.
  destruct (valid_base_inv B HB) as (M & m & p & HM & Hm & Hp' & ->).
  rewrite inc_family_tag by (trivial; reflexivity). reflexivity.
Qed.

Lemma new_family_starts_at_one_witness :
  resolveNext [lit "v1.2.0-bscotch.4"; lit "v1.2.0-bscotch.5"; lit "v1.2.0"]
              (lit "1.3.0") =
  Ok (Some (lit "1.3.0-bscotch.1"), lit "v1.3.0-bscotch.1").
Proof.
  apply (new_family_starts_at_one
           [lit "v1.2.0-bscotch.4"; lit "v1.2.0-bscotch.5"; lit "v1.2.0"]
           (lit "1.3.0")).
  - reflexivity.
  - reflexivity.
  - intros t Ht. vm_compute in Ht.
    destruct Ht as [<-|[<-|[]]]; vm_compute; discriminate.
  - intros t Ht. vm_compute in Ht.
    destruct Ht as [<-|[<-|[]]]; reflexivity.
Defined.

(** C3, as stated, fails: with no tag at all the result is counter one, not
    zero. *)
Lemma empty_tag_set_gives_counter_one :
  valid_base (lit "1.0.0") = true /\
  active_family (lit "1.0.0") [] = [] /\
  resolveNext [] (lit "1.0.0") =
    Ok (Some (lit "1.0.0-bscotch.1"), lit "v1.0.0-bscotch.1") /\
  resolveNext [] (lit "1.0.0") <>
    Ok (Some (lit "1.0.0-bscotch.0"), lit "v1.0.0-bscotch.0").
Proof. vm_compute. repeat split. discriminate. Qed.

(** The example of the specification: tags of another base version below
    the maximum do not count. *)
Example older_base_version_is_ignored :
  resolveNext [lit "v2.0.0-bscotch.0"; lit "v2.0.0-bscotch.1"; lit "v1.9.9-bscotch.7"]
              (lit "2.0.0") =
  Ok (Some (lit "2.0.0-bscotch.2"), lit "v2.0.0-bscotch.2").
Proof. reflexivity. Qed.

(** C4: when the marker tags are exactly [v<B>-bscotch.0] to
    [v<B>-bscotch.k], the result is [v<B>-bscotch.(k+1)]. *)
Theorem next_counter (tags : list str) (B : str) (k : N) :
  valid_base B = true ->
  k < semver.MAX_SAFE_INTEGER ->
  (forall t, In t (marker_tags tags) <-> exists i, i <= k /\ t = family_tag B i) ->
  resolveNext tags B =
  Ok (Some (B ++ lit "-bscotch." ++ print_N (k + 1)), family_tag B (k + 1)).
Proof.
  intros HB Hk Htags.
  assert (Hn : forallb git_tag_name (marker_tags tags) = true).
  { apply forallb_forall. intros t Ht. apply Htags in Ht.
    destruct Ht as (i & _ & ->). now apply family_tag_name. }
  assert (Hx : getMaxMatchingTag tags marker_pattern = Ok (Some (family_tag B k))).
  { apply getMaxMatchingTag_max; trivial.
    - apply Htags. exists k. split; [lia|reflexivity].
    - destruct (valid_base_inv B HB) as (M & m & p & HM & Hm & Hp & ->).
      rewrite parse_family_tag by (trivial; lia). discriminate.
    - intros t Ht. apply Htags in Ht. destruct Ht as (i & Hi & ->).
      destruct (N.eq_dec i k) as [->|Hne]; [now left|right].
      apply compare_family_tags; trivial. lia. }
  rewrite (resolveNext_anchor _ _ _ Hx).
  rewrite anchor_of_latest by apply family_tag_prefix.
  destruct (valid_base_inv B HB) as (M & m & p & HM & Hm & Hp & ->).
  rewrite inc_family_tag by trivial. reflexivity.
Qed.

Lemma next_counter_witness :
  resolveNext [lit "v1.2.3-bscotch.1"; lit "v1.2.3"; lit "v1.2.3-bscotch.0"]
              (lit "1.2.3") =
  Ok (Some (lit "1.2.3-bscotch.2"), lit "v1.2.3-bscotch.2").
Proof.
  apply (next_counter
           [lit "v1.2.3-bscotch.1"; lit "v1.2.3"; lit "v1.2.3-bscotch.0"]
           (lit "1.2.3") 1).
  - reflexivity.
  - reflexivity.
  - intros t. split.
    + intros Ht. vm_compute in Ht. destruct Ht as [<-|[<-|[]]].
      * exists 1. split; [lia|reflexivity].
      * exists 0. split; [lia|reflexivity].
    + intros (i & Hi & ->).
      assert (Hi' : i = 0 \/ i = 1) by lia.
      destruct Hi' as [->| ->]; vm_compute; auto.
Defined.

(** ** Errors *)

Lemma anchor_of_prefix (B : str) (x : option str) :
  startsWith (anchor_of B x) (lit "v" ++ B ++ lit "-") = true.
Proof.
  unfold anchor_of. destruct x as [[|c t]|]; try apply (family_tag_prefix B 0).
  destruct (startsWith (c :: t) (lit "v" ++ B ++ lit "-")) eqn:E; simpl.
  - exact E.
  - apply (family_tag_prefix B 0).
Qed.

(** No string that starts with [v1.0-] is a version. *)
Lemma parse_missing_patch (r : str) : semver.parse (lit "v1.0-" ++ r) = None.
Proof.
  unfold semver.parse.
  destruct (Nat.ltb semver.MAX_LENGTH (List.length (lit "v1.0-" ++ r)));
    [reflexivity|].
  destruct (trim_prefix (lit "v1.0-") r (lit "1.0-") (lit "v1.0") "v" "-"
              eq_refl eq_refl eq_refl eq_refl) as [r' ->].
  cbn [lit list_ascii_of_string app semver.strip_v cut Ascii.eqb Bool.eqb].
  destruct (cut "+" r') as [a b]. 
  cbn [cut Ascii.eqb Bool.eqb]. destruct (cut "-" a) as [a' b'].
  reflexivity.
Qed.

Lemma sort_short (l : list str) :
  (List.length l <= 1)%nat -> sort semver.compare l = Ok l.
Proof.
  destruct l as [|x [|y l]]; simpl; try reflexivity. lia.
Qed.

(** C7, amended: the resolution has no [InvalidVersionFormat] error.  Its
    only error is the [TypeError] of the tag sort, which does not depend on
    the base version.  For the base version [1.0], [semver.inc] returns
    [null] and the tag is the text [vnull]; a base version with a
    prerelease segment is accepted. *)
Theorem invalid_base_version_not_rejected :
  (forall tags B B',
      resolveNext tags B = TypeError -> resolveNext tags B' = TypeError) /\
  (forall tags,
      resolveNext tags (lit "1.0") = TypeError \/
      resolveNext tags (lit "1.0") = Ok (None, lit "vnull")) /\
  resolveNext [] (lit "1.0.0-rc.1") =
    Ok (Some (lit "1.0.0-bscotch.0"), lit "v1.0.0-bscotch.0").
Proof.
  split; [|split].
  - intros tags B B'. unfold resolveNext, latestTag.
    destruct (getMaxMatchingTag tags (lit "v*-bscotch.*")); [discriminate|reflexivity].
  - intros tags. unfold resolveNext, latestTag.
    destruct (getMaxMatchingTag tags (lit "v*-bscotch.*")) as [x|]; [right|now left].
    destruct (startsWith_inv _ _ (anchor_of_prefix (lit "1.0") x)) as [r ->].
    unfold semver.inc.
    change (lit "v" ++ lit "1.0" ++ lit "-") with (lit "v1.0-").
    now rewrite parse_missing_patch.
  - vm_compute. reflexivity.
Qed.

(** C7, as stated, fails: for the base version [1.0] the resolution returns,
    and it produces a tag. *)
Lemma missing_patch_returns_vnull :
  valid_base (lit "1.0") = false /\
  resolveNext [] (lit "1.0") = Ok (None, lit "vnull") /\
  resolveNext [] (lit "1.0") <> TypeError.
Proof. vm_compute. repeat split. discriminate. Qed.

(** C8, amended: with white-space-free marker tags, the resolution throws
    (a [TypeError], from the comparison in the sort) exactly when two or
    more tags match the marker pattern and one of them does not parse.
    Tags that do not match the marker pattern never count. *)
Theorem sort_throws_on_unparsable_marker_tag (tags : list str) (B : str) :
  forallb git_tag_name (marker_tags tags) = true ->
  (resolveNext tags B = TypeError <->
   (2 <= List.length (marker_tags tags))%nat /\
   exists t, In t (marker_tags tags) /\ semver.parse t = None).
Proof.
  intros Hn. split.
  - intros H.
    destruct (existsb unparsable (marker_tags tags)) eqn:E.
    + apply existsb_exists in E. destruct E as [t [Ht Hu]].
      assert (Hp : semver.parse t = None).
      { unfold unparsable in Hu. now destruct (semver.parse t). }
      split; [|now exists t].
      destruct (Nat.le_gt_cases 2 (List.length (marker_tags tags))) as [|Hlt];
        [assumption|exfalso].
      unfold resolveNext, latestTag in H.
      change (lit "v*-bscotch.*") with marker_pattern in H.
      unfold getMaxMatchingTag, maxVersion in H.
      rewrite getMatchingTags_marker in H by assumption.
      pose proof (Permutation_length (refname_sort_perm (marker_tags tags))) as Hl.
      destruct (refname_sort (marker_tags tags)) as [|x l] eqn:Es.
      * discriminate H.
      * rewrite sort_short in H by lia. discriminate H.
    + exfalso.
      destruct (getMaxMatchingTag_total tags Hn) as [x [Hx _]].
      * intros t Ht Hp.
        assert (existsb unparsable (marker_tags tags) = true); [|congruence].
        apply existsb_exists. exists t. split; [assumption|].
        unfold unparsable. now rewrite Hp.
      * rewrite (resolveNext_anchor _ _ _ Hx) in H. discriminate.
  - intros [Hlen [t [Ht Hp]]].
    unfold resolveNext, latestTag. change (lit "v*-bscotch.*") with marker_pattern.
    unfold getMaxMatchingTag, maxVersion.
    rewrite getMatchingTags_marker by assumption.
    pose proof (refname_sort_perm (marker_tags tags)) as P.
    pose proof (Permutation_length P) as Hl.
    destruct (refname_sort (marker_tags tags)) as [|x l] eqn:Es.
    + simpl in Hl. lia.
    + rewrite (sort_throws semver.compare (x :: l) t); trivial.
      * eapply Permutation_in; [symmetry; exact P|exact Ht].
      * lia.
      * now apply compare_undefined.
Qed.

Lemma sort_throws_on_unparsable_marker_tag_witness :
  resolveNext [lit "v1.0.0-bscotch.01"; lit "release-7"; lit "v1.0.0-bscotch.2"]
              (lit "1.0.0") = TypeError.
Proof.
  apply (sort_throws_on_unparsable_marker_tag
           [lit "v1.0.0-bscotch.01"; lit "release-7"; lit "v1.0.0-bscotch.2"]
           (lit "1.0.0")).
  - reflexivity.
  - split.
    + vm_compute. lia.
    + exists (lit "v1.0.0-bscotch.01"). split; [vm_compute; auto|reflexivity].
Defined.

(** C8, as stated, fails: a tag that passes the filter and does not parse
    is no error when it is the only marker tag. *)
Lemma lone_unparsable_tag_is_no_error :
  wildmatch marker_pattern (lit "v1.0.0-bscotch.01") = true /\
  startsWith (lit "v1.0.0-bscotch.01") (lit "v1.0.0-") = true /\
  semver.parse (lit "v1.0.0-bscotch.01") = None /\
  resolveNext [lit "v1.0.0-bscotch.01"] (lit "1.0.0") = Ok (None, lit "vnull").
Proof. vm_compute. repeat split. Qed.

(** ** The maximal marker tag *)

(** C10: two tag sets with the same maximal marker tag, or with no marker
    tag at all, give the same version and tag. *)
Theorem result_depends_on_maximal_marker_tag
        (tags1 tags2 : list str) (B : str) (x : option str) :
  forallb git_tag_name (marker_tags tags1) = true ->
  forallb git_tag_name (marker_tags tags2) = true ->
  maximal_marker_tag tags1 x -> maximal_marker_tag tags2 x ->
  resolveNext tags1 B = resolveNext tags2 B.
Proof.
  intros Hn1 Hn2 H1 H2. destruct x as [L|]; simpl in H1, H2.
  - destruct H1 as (Hi1 & Hp & Hm1). destruct H2 as (Hi2 & _ & Hm2).
    rewrite (resolveNext_anchor tags1 B (Some L)),
            (resolveNext_anchor tags2 B (Some L)); trivial;
      now apply getMaxMatchingTag_max.
  - apply resolveNext_marker_tags. now rewrite H1, H2.
Qed.

Lemma result_depends_on_maximal_marker_tag_witness :
  resolveNext [lit "v1.0.0-bscotch.0"; lit "v1.0.0-bscotch.7"; lit "v0.9.0-bscotch.3"]
              (lit "1.0.0") =
  resolveNext [lit "v1.0.0-bscotch.7"] (lit "1.0.0").
Proof.
  apply (result_depends_on_maximal_marker_tag _ _ _ (Some (lit "v1.0.0-bscotch.7"))).
  - reflexivity.
  - reflexivity.
  - split; [vm_compute; auto|]. split; [vm_compute; discriminate|].
    intros t Ht. vm_compute in Ht.
    destruct Ht as [<-|[<-|[<-|[]]]]; vm_compute; auto.
  - split; [vm_compute; auto|]. split; [vm_compute; discriminate|].
    intros t Ht. vm_compute in Ht.
    destruct Ht as [<-|[]]; vm_compute; auto.
Defined.

(** ** The shape of family tags *)

Lemma trimStart_decompose (s : str) :
  exists ws, s = ws ++ trimStart s /\ forallb is_space ws = true.
Proof.
  induction s as [|c s IH]; simpl.
  - now exists [].
  - destruct (is_space c) eqn:E.
    + destruct IH as [ws [H1 H2]]. exists (c :: ws). simpl.
      rewrite E, H2. split; [now f_equal|reflexivity].
    + now exists [].
Qed.

Lemma trim_decompose (s : str) :
  exists ws1 ws2, s = ws1 ++ trim s ++ ws2 /\
                  forallb is_space ws1 = true /\ forallb is_space ws2 = true.
Proof.
  destruct (trimStart_decompose s) as [ws1 [H1 Hw1]].
  destruct (trimStart_decompose (rev (trimStart s))) as [ws2 [H2 Hw2]].
  exists ws1, (rev ws2). repeat split; trivial.
  - unfold trim. rewrite <- rev_app_distr, <- H2, rev_involutive. exact H1.
  - rewrite forallb_forall in *. intros x Hx. apply Hw2. now apply in_rev.
Qed.

(** A tag that starts with [v] and parses is [v], the text of the version,
    the build metadata and white space. *)
Lemma parse_v_tag (t : str) (v : semver.SemVer) :
  semver.parse ("v"%char :: t) = Some v ->
  exists ids ws,
    forallb semver.is_prerelease_identifier ids = true /\
    semver.prerelease v = map semver.to_ident ids /\
    "v"%char :: t =
      "v"%char :: main_version (semver.major v) (semver.minor v) (semver.patch v)
      ++ pre_suffix ids ++ build_suffix (semver.build v) ++ ws.
Proof.
  intros H.
  destruct (parse_inv _ _ H) as (ids & _ & _ & _ & Hids & Hpre & Hs & _).
  destruct (trim_decompose ("v"%char :: t)) as (ws1 & ws2 & Ht & Hw1 & Hw2).
  exists ids, ws2. repeat split; trivial.
  destruct ws1 as [|c ws1].
  - simpl in Ht. destruct (trim ("v"%char :: t)) as [|c u] eqn:Et.
    + exfalso. simpl in Hs. unfold main_version in Hs.
      pose proof (print_not_nil (semver.major v)).
      destruct (print_N (semver.major v)); [congruence|discriminate].
    + simpl in Ht. inversion Ht; subst c. simpl in Hs. rewrite Hs.
      now rewrite <- !app_assoc.
  - simpl in Ht. inversion Ht; subst c. simpl in Hw1. discriminate.
Qed.

Lemma to_ident_str (s s' : str) : semver.to_ident s = semver.PStr s' -> s = s'.
Proof.
  unfold semver.to_ident.
  destruct (all_digits s && (digits_value s <? semver.MAX_SAFE_INTEGER));
    intros H; now inversion H.
Qed.

Lemma to_ident_num (s : str) (n : N) :
  semver.to_ident s = semver.PNum n -> n < semver.MAX_SAFE_INTEGER.
Proof.
  unfold semver.to_ident.
  destruct (all_digits s && (digits_value s <? semver.MAX_SAFE_INTEGER)) eqn:E;
    intros H; inversion H; subst.
  apply andb_true_iff in E. destruct E as [_ E]. now apply N.ltb_lt.
Qed.

Lemma main_version_inj (M m p M' m' p' : N) :
  main_version M m p = main_version M' m' p' -> M = M' /\ m = m' /\ p = p'.
Proof.
  intros H. apply (f_equal (split ".")) in H. rewrite !split_main in H.
  inversion H as [[HM Hm Hp]].
  apply (f_equal digits_value) in HM, Hm, Hp.
  rewrite !value_print in HM, Hm, Hp. auto.
Qed.

(** The tags of the active family. *)
Lemma family_shape (B t : str) :
  in_family B t = true ->
  exists v ids r,
    semver.parse t = Some v /\
    main_version (semver.major v) (semver.minor v) (semver.patch v) = B /\
    semver.prerelease v = bscotch :: map semver.to_ident ids /\
    t = lit "v" ++ B ++ lit "-bscotch"
        ++ match ids with [] => [] | _ => "."%char :: join "." ids end ++ r.
Proof.
  unfold in_family. intros H.
  destruct t as [|c t]; [discriminate|].
  destruct (Ascii.eqb c "v") eqn:Ec.
  2:{ exfalso. destruct c as [[] [] [] [] [] [] [] []]; discriminate. }
  apply Ascii.eqb_eq in Ec. subst c.
  destruct (semver.parse ("v"%char :: t)) as [v|] eqn:Hp; [|discriminate].
  apply andb_true_iff in H. destruct H as [HB Hi]. apply str_eqb_true in HB.
  destruct (parse_v_tag t v Hp) as (ids0 & ws & Hids & Hpre & Ht).
  destruct (semver.prerelease v) as [|i pre] eqn:Ev; [discriminate|].
  apply ident_identical_eq in Hi. subst i.
  destruct ids0 as [|id0 ids]; [discriminate|].
  simpl in Hpre. inversion Hpre as [[H0 H1]].
  symmetry in H0. apply to_ident_str in H0. subst id0.
  exists v, ids, (build_suffix (semver.build v) ++ ws).
  repeat split; trivial.
  - now rewrite Ev, H1.
  - rewrite Ht, HB. simpl. f_equal. f_equal.
    destruct ids; simpl; rewrite <- ?app_assoc; reflexivity.
Qed.

Lemma family_prefix (B t : str) :
  in_family B t = true -> startsWith t (lit "v" ++ B ++ lit "-") = true.
Proof.
  intros H. destruct (family_shape B t H) as (v & ids & r & _ & _ & _ & ->).
  replace (lit "v" ++ B ++ lit "-bscotch"
           ++ match ids with [] => [] | _ :: _ => "."%char :: join "." ids end ++ r)
    with ((lit "v" ++ B ++ lit "-") ++ lit "bscotch"
          ++ match ids with [] => [] | _ :: _ => "."%char :: join "." ids end ++ r).
  - apply startsWith_app.
  - simpl. rewrite <- !app_assoc. reflexivity.
Qed.

(** A family tag with a second prerelease identifier matches the marker
    pattern. *)
Lemma family_marker (B t : str) (v : semver.SemVer) :
  in_family B t = true -> semver.parse t = Some v ->
  semver.prerelease v = [bscotch] \/ wildmatch marker_pattern t = true.
Proof.
  intros H Hp. destruct (family_shape B t H) as (v' & ids & r & Hp' & _ & Hpre & ->).
  rewrite Hp in Hp'. inversion Hp'; subst v'.
  destruct ids as [|i ids]; [now left|right].
  replace (lit "v" ++ B ++ lit "-bscotch" ++ ("."%char :: join "." (i :: ids)) ++ r)
    with ("v"%char :: B ++ lit "-bscotch." ++ join "." (i :: ids) ++ r).
  - apply marker_pattern_matches.
  - simpl. reflexivity.
Qed.


Lemma compare_fields_same_main (a b : semver.SemVer) :
  main_version (semver.major a) (semver.minor a) (semver.patch a) =
  main_version (semver.major b) (semver.minor b) (semver.patch b) ->
  compare_fields a b = semver.comparePre a b.
Proof.
  intros H. apply main_version_inj in H. destruct H as (HM & Hm & Hp).
  unfold compare_fields, semver.compareMain.
  now rewrite HM, Hm, Hp, !N.compare_refl.
Qed.




(** The identifier a printed counter parses to is numeric, with the value
    of the counter. *)
Lemma counter_ident (n : N) :
  n <= semver.MAX_SAFE_INTEGER ->
  semver.numeric_test (semver.to_ident (print_N n)) = true /\
  semver.ident_number (semver.to_ident (print_N n)) = n.
Proof.
  intros H. destruct (N.eq_dec n semver.MAX_SAFE_INTEGER) as [->|Hne].
  - vm_compute. split; reflexivity.
  - rewrite to_ident_print by lia. split; reflexivity.
Qed.

Lemma comparePreLoop_nil_r (l : list semver.ident) :
  semver.comparePreLoop l [] <> Lt.
Proof. destruct l; discriminate. Qed.

(** C1, amended: when the maximal marker tag is [v<B>-bscotch.<n>], build
    metadata apart, with [n] a number for node-semver, which is
    [n < MAX_SAFE_INTEGER], the returned tag is [v<B>-bscotch.<n+1>]; it is
    not among the tags and it sorts strictly above every tag of the active
    family. *)
Theorem next_tag_is_new_and_above
        (tags : list str) (B L : str) (v : semver.SemVer) (n : N) :
  valid_base B = true ->
  forallb git_tag_name (marker_tags tags) = true ->
  maximal_marker_tag tags (Some L) ->
  semver.parse L = Some v ->
  main_version (semver.major v) (semver.minor v) (semver.patch v) = B ->
  semver.prerelease v = [bscotch; semver.PNum n] ->
  resolveNext tags B =
    Ok (Some (B ++ lit "-bscotch." ++ print_N (n + 1)), family_tag B (n + 1)) /\
  ~ In (family_tag B (n + 1)) tags /\
  forall t, In t tags -> in_family B t = true ->
            semver.compare (family_tag B (n + 1)) t = Some Gt.
Proof.
  intros HB Hn Hmax Hp Hmain Hpre.
  destruct (valid_base_inv B HB) as (M & m & p & HM & Hm & Hpa & EB).
  assert (Hv : semver.major v = M /\ semver.minor v = m /\ semver.patch v = p).
  { apply main_version_inj. congruence. }
  destruct Hv as (EM & Em & Epa).
  assert (Hlt : n < semver.MAX_SAFE_INTEGER).
  { destruct (parse_inv _ _ Hp) as (ids & _ & _ & _ & _ & Hids & _).
    rewrite Hpre in Hids. destruct ids as [|i [|j ids]]; try discriminate.
    inversion Hids as [[Hi Hj]]. symmetry in Hj. now apply to_ident_num in Hj. }
  assert (HvL : exists r, L = "v"%char :: r).
  { destruct Hmax as (Hi & _). unfold marker_tags in Hi.
    apply filter_In in Hi. now apply marker_pattern_v. }
  assert (HfL : in_family B L = true).
  { destruct HvL as [r ->]. unfold in_family. rewrite Hp, Hmain, str_eqb_refl, Hpre.
    apply ident_identical_refl. }
  pose proof (parse_family_tag M m p (n + 1) HM Hm Hpa ltac:(lia)) as Hnext.
  rewrite <- EB in Hnext.
  destruct (counter_ident (n + 1) ltac:(lia)) as [Hnum Hval].
  (* the next tag sorts above the anchor *)
  assert (Habove : semver.compare (family_tag B (n + 1)) L = Some Gt).
  { rewrite (compare_parsed _ _ _ _ Hnext Hp).
    rewrite compare_fields_same_main by (cbn; congruence).
    unfold semver.comparePre. cbn [semver.prerelease]. rewrite Hpre.
    cbn [semver.comparePreLoop]. rewrite ident_identical_refl.
    destruct (semver.ident_identical (semver.to_ident (print_N (n + 1)))
                                     (semver.PNum n)) eqn:E.
    - apply ident_identical_eq in E. rewrite E in Hval. simpl in Hval. lia.
    - unfold semver.compareIdentifiers. rewrite Hnum, Hval. cbn.
      f_equal. apply N.compare_gt_iff. lia. }
  split; [|split].
  - assert (Hx : getMaxMatchingTag tags marker_pattern = Ok (Some L)).
    { destruct Hmax as (Hi & Hq & Hm'). now apply getMaxMatchingTag_max. }
    rewrite (resolveNext_anchor _ _ _ Hx).
    rewrite anchor_of_latest by now apply family_prefix.
    unfold semver.inc. rewrite Hp, format_eq.
    unfold semver.inc_prerelease. rewrite Hpre.
    unfold semver.inc_pre. rewrite Hpre. cbn. rewrite Hmain.
    unfold family_tag. reflexivity.
  - intros Hin.
    assert (Hi : In (family_tag B (n + 1)) (marker_tags tags)).
    { unfold marker_tags. apply filter_In. split; [assumption|].
      apply (marker_pattern_matches B (print_N (n + 1))). }
    destruct Hmax as (_ & _ & Hm').
    destruct (Hm' _ Hi) as [E|E].
    + rewrite E in Habove. rewrite (compare_refl L v Hp) in Habove. discriminate.
    + congruence.
  - intros t Ht Hf.
    destruct (family_shape B t Hf) as (vt & ids & r & Hpt & HBt & Hpret & _).
    rewrite (compare_parsed _ _ _ _ Hnext Hpt).
    rewrite compare_fields_same_main by (cbn; congruence).
    unfold semver.comparePre. cbn [semver.prerelease]. rewrite Hpret.
    cbn [semver.comparePreLoop]. rewrite ident_identical_refl.
    destruct (map semver.to_ident ids) as [|j rest] eqn:Eids; [reflexivity|].
    assert (Hw : wildmatch marker_pattern t = true).
    { destruct (family_marker B t vt Hf Hpt) as [H1|Hw]; [|assumption].
      rewrite Hpret in H1. discriminate. }
    assert (Hi : In t (marker_tags tags)).
    { unfold marker_tags. apply filter_In. now split. }
    destruct Hmax as (_ & _ & Hm').
    destruct (Hm' t Hi) as [->|Hlow].
    + rewrite Hp in Hpt. inversion Hpt; subst vt.
      rewrite Hpre in Hpret. inversion Hpret; subst j rest.
      rewrite (compare_parsed _ _ _ _ Hnext Hp) in Habove.
      rewrite compare_fields_same_main in Habove by (cbn; congruence).
      unfold semver.comparePre in Habove. cbn [semver.prerelease] in Habove.
      rewrite Hpre in Habove. cbn [semver.comparePreLoop] in Habove.
      rewrite ident_identical_refl in Habove. now inversion Habove.
    + rewrite (compare_parsed _ _ _ _ Hpt Hp) in Hlow.
      rewrite compare_fields_same_main in Hlow by congruence.
      unfold semver.comparePre in Hlow. rewrite Hpret, Hpre in Hlow.
      cbn [semver.comparePreLoop] in Hlow.
      rewrite ident_identical_refl in Hlow.
      destruct (semver.ident_identical j (semver.PNum n)) eqn:Ej.
      * exfalso. inversion Hlow as [Hl]. now apply comparePreLoop_nil_r in Hl.
      * inversion Hlow as [Hl]. unfold semver.compareIdentifiers in Hl.
        rewrite Ej in Hl. cbn [semver.numeric_test semver.ident_number] in Hl.
        rewrite andb_true_r in Hl.
        destruct (semver.numeric_test j) eqn:Nj; [|discriminate].
        change (semver.ident_number j < n) in Hl.
        destruct (semver.ident_identical (semver.to_ident (print_N (n + 1))) j) eqn:E.
        -- apply ident_identical_eq in E. rewrite E in Hval. lia.
        -- unfold semver.compareIdentifiers. rewrite Hnum, Nj, Hval. cbn.
           f_equal. apply N.compare_gt_iff. lia.
Qed.

Lemma next_tag_is_new_and_above_witness :
  resolveNext [lit "v1.0.0-bscotch.0"; lit "v1.0.0-bscotch.4+build"; lit "v0.9.0-bscotch.9"]
              (lit "1.0.0") =
  Ok (Some (lit "1.0.0-bscotch.5"), lit "v1.0.0-bscotch.5").
Proof.
  refine (proj1 (next_tag_is_new_and_above
                   [lit "v1.0.0-bscotch.0"; lit "v1.0.0-bscotch.4+build";
                    lit "v0.9.0-bscotch.9"]
                   (lit "1.0.0") (lit "v1.0.0-bscotch.4+build")
                   (semver.mkSemVer 1 0 0 [bscotch; semver.PNum 4] [lit "build"]) 4
                   _ _ _ _ _ _)).
  - reflexivity.
  - reflexivity.
  - split; [vm_compute; auto|]. split; [vm_compute; discriminate|].
    intros t Ht. vm_compute in Ht.
    destruct Ht as [<-|[<-|[<-|[]]]]; vm_compute; auto.
  - reflexivity.
  - reflexivity.
  - reflexivity.
Defined.

(** C1, as stated, fails: with a marker tag of a later base version the
    returned tag is one of the tags, a member of the active family. *)
Lemma returned_tag_already_exists :
  valid_base (lit "1.0.0") = true /\
  resolveNext [lit "v1.0.0-bscotch.0"; lit "v1.0.0-bscotch.1"; lit "v2.0.0-bscotch.0"]
              (lit "1.0.0") =
    Ok (Some (lit "1.0.0-bscotch.1"), lit "v1.0.0-bscotch.1") /\
  In (lit "v1.0.0-bscotch.1")
     [lit "v1.0.0-bscotch.0"; lit "v1.0.0-bscotch.1"; lit "v2.0.0-bscotch.0"] /\
  in_family (lit "1.0.0") (lit "v1.0.0-bscotch.1") = true /\
  semver.compare (lit "v1.0.0-bscotch.1") (lit "v1.0.0-bscotch.1") = Some Eq.
Proof. vm_compute. repeat split. auto. Qed.

(** ** The form of the result *)










(** * Further properties of the code *)

(** ** [maxVersion] *)

(** X1: on versions that parse and do not tie, [maxVersion] returns the one
    that every other sorts strictly below, whatever the order of the
    array. *)
Theorem maxVersion_returns_greatest (l : list str) :
  l <> [] -> strictly_ordered l ->
  exists m, greatest l m /\
            forall l', Permutation l l' -> maxVersion l' = Ok (Some m).
Proof.
  intros Hn Ho. destruct (greatest_exists l Hn Ho) as [m Hm].
  exists m. split; [assumption|]. intros l' P.
  apply maxVersion_greatest.
  - intros x Hx. apply (proj1 Ho). eapply Permutation_in; [symmetry; exact P|exact Hx].
  - destruct Hm as [Hi Hmax]. split.
    + eapply Permutation_in; eassumption.
    + intros t Ht. apply Hmax. eapply Permutation_in; [symmetry; exact P|exact Ht].
Qed.

Lemma maxVersion_returns_greatest_witness :
  exists m, greatest [lit "v1.2.0"; lit "v1.10.0"; lit "v1.9.0-rc.1"] m /\
            forall l', Permutation [lit "v1.2.0"; lit "v1.10.0"; lit "v1.9.0-rc.1"] l' ->
                       maxVersion l' = Ok (Some m).
Proof.
  apply maxVersion_returns_greatest.
  - discriminate.
  - split.
    + intros x Hx. simpl in Hx.
      destruct Hx as [<-|[<-|[<-|[]]]]; vm_compute; discriminate.
    + intros x y Hx Hy. simpl in Hx, Hy.
      destruct Hx as [<-|[<-|[<-|[]]]]; destruct Hy as [<-|[<-|[<-|[]]]];
        vm_compute; auto.
Defined.

(** ** [getMatchingTags] and [getMaxMatchingTag] with the patterns of the script *)

(** What the model of [git tag --list] gives back through [trim] and
    [split]; the theorems use it for the two patterns of the script. *)

Lemma getMatchingTags_pattern (tags : list str) (pattern : str) :
  forallb git_tag_name (matching tags pattern) = true ->
  getMatchingTags tags pattern =
  match refname_sort (matching tags pattern) with
  | [] => [[]]
  | _ => refname_sort (matching tags pattern)
  end.
Proof.
  intros H. unfold getMatchingTags, run_git_tag_list, git_tag_list.
  fold (matching tags pattern). apply read_lines.
  rewrite forallb_forall in *. intros t Ht. apply H.
  eapply Permutation_in; [apply refname_sort_perm|exact Ht].
Qed.

(** X2: for the two patterns of the script ([v*-bscotch.*] and [v*]), when
    the matching tags hold no white space, [getMatchingTags] reads back from
    the output of git exactly the matching tags, in refname order; when no
    tag matches, it returns the array of the empty string. *)
Theorem getMatchingTags_reads_matching_tags (tags : list str) (pattern : str) :
  In pattern script_patterns ->
  forallb git_tag_name (matching tags pattern) = true ->
  (matching tags pattern = [] -> getMatchingTags tags pattern = [[]]) /\
  (matching tags pattern <> [] ->
   getMatchingTags tags pattern = refname_sort (matching tags pattern) /\
   Permutation (getMatchingTags tags pattern) (matching tags pattern) /\
   StronglySorted refname_le (getMatchingTags tags pattern)).
Proof.
  intros _ H. pose proof (getMatchingTags_pattern tags pattern H) as E.
  split.
  - intros Hm. rewrite E, Hm. reflexivity.
  - intros Hn.
    assert (E' : getMatchingTags tags pattern = refname_sort (matching tags pattern)).
    { rewrite E. destruct (refname_sort (matching tags pattern)) eqn:Es; [|reflexivity].
      apply refname_sort_nil in Es. congruence. }
    rewrite E'. split; [reflexivity|]. split.
    + apply refname_sort_perm.
    + apply refname_sort_sorted.
Qed.

Lemma getMatchingTags_reads_matching_tags_witness :
  getMatchingTags [lit "v2.0.0"; lit "nightly"; lit "v1.0.0"] (lit "v*") =
  [lit "v1.0.0"; lit "v2.0.0"].
Proof.
  refine (proj1 (proj2 (getMatchingTags_reads_matching_tags
                          [lit "v2.0.0"; lit "nightly"; lit "v1.0.0"] (lit "v*") _ _) _)).
  - right. left. reflexivity.
  - reflexivity.
  - discriminate.
Defined.



(** ** The anchor *)




(** ** When the counter restarts at zero *)

Lemma inc_last_number_bumped (pre r : list semver.ident) :
  semver.inc_last_number pre = Some r -> Forall2 bumped pre r.
Proof.
  revert r. induction pre as [|x pre IH]; simpl; intros r H; [discriminate|].
  destruct (semver.inc_last_number pre) as [r'|].
  - inversion H; subst. constructor; [now left|]. now apply IH.
  - destruct x as [n|s]; [|discriminate]. inversion H; subst.
    constructor; [right; now exists n|].
    clear. induction pre; constructor; [now left|assumption].
Qed.

Lemma bumped_identical (a b : semver.ident) (s : str) :
  bumped a b ->
  semver.ident_identical b (semver.PStr s) = semver.ident_identical a (semver.PStr s).
Proof. intros [->|(n & -> & ->)]; reflexivity. Qed.

Lemma bumped_isNaN (a b : semver.ident) :
  bumped a b -> semver.isNaN (Some b) = semver.isNaN (Some a).
Proof. intros [->|(n & -> & ->)]; reflexivity. Qed.

Lemma after_loop_head (i : semver.ident) (rest : list semver.ident) (s : str) :
  semver.ident_identical (hd (semver.PNum 0) (after_loop (i :: rest))) (semver.PStr s)
  = semver.ident_identical i (semver.PStr s).
Proof.
  unfold after_loop.
  destruct (semver.inc_last_number (i :: rest)) as [r|] eqn:E; [|reflexivity].
  apply inc_last_number_bumped in E. inversion E; subst. simpl.
  now apply bumped_identical.
Qed.

Lemma after_loop_second (i j : semver.ident) (rest : list semver.ident) :
  semver.isNaN (nth_error (after_loop (i :: j :: rest)) 1) = semver.isNaN (Some j).
Proof.
  unfold after_loop.
  destruct (semver.inc_last_number (i :: j :: rest)) as [r|] eqn:E; [|reflexivity].
  apply inc_last_number_bumped in E. inversion E as [|? ? ? ? _ E']; subst.
  inversion E'; subst. simpl. now apply bumped_isNaN.
Qed.

Lemma inc_pre_after_loop (identifier : str) (v : semver.SemVer)
      (i : semver.ident) (rest : list semver.ident) :
  semver.prerelease v = i :: rest ->
  semver.prerelease (semver.inc_pre identifier v) =
  if semver.ident_identical (hd (semver.PNum 0) (after_loop (i :: rest)))
                            (semver.PStr identifier)
  then if semver.isNaN (nth_error (after_loop (i :: rest)) 1)
       then [semver.PStr identifier; semver.PNum 0]
       else after_loop (i :: rest)
  else [semver.PStr identifier; semver.PNum 0].
Proof.
  intros H. unfold semver.inc_pre, after_loop. rewrite H. reflexivity.
Qed.

(** A marker tag that parses with a prerelease starts with [v], its main
    version and [-]. *)
Lemma marker_tag_prefix (L : str) (v : semver.SemVer) :
  wildmatch marker_pattern L = true ->
  semver.parse L = Some v -> semver.prerelease v <> [] ->
  startsWith L (lit "v" ++ main_version (semver.major v) (semver.minor v)
                                        (semver.patch v) ++ lit "-") = true.
Proof.
  intros Hw Hp Hne. destruct (marker_pattern_v L Hw) as [t ->].
  destruct (parse_v_tag t v Hp) as (ids & ws & _ & Hpre & Ht).
  destruct ids as [|i ids]; [simpl in Hpre; congruence|].
  rewrite Ht.
  replace ("v"%char :: main_version (semver.major v) (semver.minor v) (semver.patch v)
           ++ pre_suffix (i :: ids) ++ build_suffix (semver.build v) ++ ws)
    with ((lit "v" ++ main_version (semver.major v) (semver.minor v) (semver.patch v)
           ++ lit "-") ++ join "." (i :: ids) ++ build_suffix (semver.build v) ++ ws).
  - apply startsWith_app.
  - unfold pre_suffix. simpl. rewrite <- !app_assoc. reflexivity.
Qed.

(** X5: when the maximal marker tag has the base version but its first
    prerelease identifier is not the marker, or its second one is not a
    number for JavaScript, the counter restarts: the result is
    [v<B>-bscotch.0]. *)
Theorem counter_restarts_at_zero
        (tags : list str) (B L : str) (v : semver.SemVer)
        (i : semver.ident) (rest : list semver.ident) :
  forallb git_tag_name (marker_tags tags) = true ->
  maximal_marker_tag tags (Some L) ->
  semver.parse L = Some v ->
  main_version (semver.major v) (semver.minor v) (semver.patch v) = B ->
  semver.prerelease v = i :: rest ->
  semver.ident_identical i bscotch = false \/
  (exists j rest', rest = j :: rest' /\ semver.isNaN (Some j) = true) ->
  resolveNext tags B = Ok (Some (B ++ lit "-bscotch.0"), family_tag B 0).
Proof.
  intros Hn Hmax Hp Hmain Hpre Hcase.
  assert (Hx : getMaxMatchingTag tags marker_pattern = Ok (Some L)).
  { destruct Hmax as (Hi & Hq & Hm). now apply getMaxMatchingTag_max. }
  assert (Hs : startsWith L (lit "v" ++ B ++ lit "-") = true).
  { rewrite <- Hmain. apply marker_tag_prefix; trivial.
    - destruct Hmax as (Hi & _). unfold marker_tags in Hi.
      now apply filter_In in Hi.
    - rewrite Hpre. discriminate. }
  rewrite (resolveNext_anchor _ _ _ Hx), anchor_of_latest by assumption.
  unfold semver.inc. rewrite Hp. unfold semver.inc_prerelease. rewrite Hpre.
  assert (E : semver.prerelease (semver.inc_pre (lit "bscotch") v) =
              [bscotch; semver.PNum 0]).
  { rewrite (inc_pre_after_loop _ _ _ _ Hpre), after_loop_head.
    fold bscotch. destruct Hcase as [Hi|(j & rest' & -> & Hj)].
    - now rewrite Hi.
    - rewrite after_loop_second, Hj.
      now destruct (semver.ident_identical i bscotch). }
  rewrite format_eq, E. unfold semver.inc_pre.
  cbn [semver.major semver.minor semver.patch]. rewrite Hmain.
  reflexivity.
Qed.

Lemma counter_restarts_at_zero_witness :
  resolveNext [lit "v1.0.0-bscotch.0"; lit "v1.0.0-bscotch.beta"] (lit "1.0.0") =
  Ok (Some (lit "1.0.0-bscotch.0"), lit "v1.0.0-bscotch.0").
Proof.
  apply (counter_restarts_at_zero
           [lit "v1.0.0-bscotch.0"; lit "v1.0.0-bscotch.beta"] (lit "1.0.0")
           (lit "v1.0.0-bscotch.beta")
           (semver.mkSemVer 1 0 0 [bscotch; semver.PStr (lit "beta")] [])
           bscotch [semver.PStr (lit "beta")]).
  - reflexivity.
  - split; [vm_compute; auto|]. split; [vm_compute; discriminate|].
    intros t Ht. vm_compute in Ht.
    destruct Ht as [<-|[<-|[]]]; vm_compute; auto.
  - reflexivity.
  - reflexivity.
  - reflexivity.
  - right. exists (semver.PStr (lit "beta")), []. split; reflexivity.
Defined.

(** ** Successive releases *)

Lemma parsed_counter_safe (L : str) (v : semver.SemVer) (i : semver.ident) (n : N) :
  semver.parse L = Some v -> semver.prerelease v = [i; semver.PNum n] ->
  n < semver.MAX_SAFE_INTEGER.
Proof.
  intros Hp Hpre.
  destruct (parse_inv _ _ Hp) as (ids & _ & _ & _ & _ & Hids & _).
  rewrite Hpre in Hids. destruct ids as [|a [|b ids]]; try discriminate.
  inversion Hids as [[Ha Hb]]. symmetry in Hb. now apply to_ident_num in Hb.
Qed.

(** The next family tag sorts strictly above the anchor. *)
Lemma next_above_anchor (B L : str) (v : semver.SemVer) (n : N) :
  valid_base B = true ->
  semver.parse L = Some v ->
  main_version (semver.major v) (semver.minor v) (semver.patch v) = B ->
  semver.prerelease v = [bscotch; semver.PNum n] ->
  semver.compare (family_tag B (n + 1)) L = Some Gt.
Proof.
  intros HB Hp Hmain Hpre.
  pose proof (parsed_counter_safe L v bscotch n Hp Hpre) as Hlt.
  destruct (valid_base_inv B HB) as (M & m & p & HM & Hm & Hpa & EB).
  pose proof (parse_family_tag M m p (n + 1) HM Hm Hpa ltac:(lia)) as Hnext.
  rewrite <- EB in Hnext.
  destruct (counter_ident (n + 1) ltac:(lia)) as [Hnum Hval].
  rewrite (compare_parsed _ _ _ _ Hnext Hp).
  rewrite compare_fields_same_main by (cbn; congruence).
  unfold semver.comparePre. cbn [semver.prerelease]. rewrite Hpre.
  cbn [semver.comparePreLoop]. rewrite ident_identical_refl.
  destruct (semver.ident_identical (semver.to_ident (print_N (n + 1)))
                                   (semver.PNum n)) eqn:E.
  - apply ident_identical_eq in E. rewrite E in Hval. simpl in Hval. lia.
  - unfold semver.compareIdentifiers. rewrite Hnum, Hval. cbn.
    f_equal. apply N.compare_gt_iff. lia.
Qed.

Lemma resolveNext_latest_release (tags : list str) (B : str) (n : N) :
  valid_base B = true ->
  forallb git_tag_name (marker_tags tags) = true ->
  latest_release tags B n ->
  resolveNext tags B =
  Ok (Some (B ++ lit "-bscotch." ++ print_N (n + 1)), family_tag B (n + 1)).
Proof.
  intros HB Hn (L & v & Hmax & Hp & Hmain & Hpre).
  assert (Hx : getMaxMatchingTag tags marker_pattern = Ok (Some L)).
  { destruct Hmax as (Hi & Hq & Hm'). now apply getMaxMatchingTag_max. }
  assert (Hs : startsWith L (lit "v" ++ B ++ lit "-") = true).
  { rewrite <- Hmain. apply marker_tag_prefix; trivial.
    - destruct Hmax as (Hi & _). unfold marker_tags in Hi.
      now apply filter_In in Hi.
    - rewrite Hpre. discriminate. }
  rewrite (resolveNext_anchor _ _ _ Hx), anchor_of_latest by assumption.
  unfold semver.inc. rewrite Hp, format_eq.
  unfold semver.inc_prerelease. rewrite Hpre.
  unfold semver.inc_pre. rewrite Hpre. cbn. rewrite Hmain.
  unfold family_tag. reflexivity.
Qed.

Lemma marker_tags_cons_family (tags : list str) (B : str) (n : N) :
  marker_tags (family_tag B n :: tags) = family_tag B n :: marker_tags tags.
Proof.
  unfold marker_tags. cbn [filter].
  replace (wildmatch marker_pattern (family_tag B n)) with true; [reflexivity|].
  symmetry. apply (marker_pattern_matches B (print_N n)).
Qed.

(** Tagging the computed tag keeps the situation, with the next counter. *)
Lemma latest_release_step (tags : list str) (B : str) (n : N) :
  valid_base B = true ->
  n + 1 < semver.MAX_SAFE_INTEGER ->
  latest_release tags B n ->
  latest_release (family_tag B (n + 1) :: tags) B (n + 1).
Proof.
  intros HB Hlt (L & v & Hmax & Hp & Hmain & Hpre).
  pose proof (next_above_anchor B L v n HB Hp Hmain Hpre) as Habove.
  destruct (valid_base_inv B HB) as (M & m & p & HM & Hm & Hpa & EB).
  pose proof (parse_family_tag M m p (n + 1) HM Hm Hpa ltac:(lia)) as Hnext.
  rewrite <- EB, to_ident_print in Hnext by assumption.
  exists (family_tag B (n + 1)), (semver.mkSemVer M m p [bscotch; semver.PNum (n + 1)] []).
  split; [|split; [assumption|split; [now rewrite EB|reflexivity]]].
  unfold maximal_marker_tag. rewrite marker_tags_cons_family.
  split; [now left|]. split; [rewrite Hnext; discriminate|].
  intros t [<-|Ht]; [now left|right].
  apply compare_antisym in Habove. simpl in Habove.
  destruct Hmax as (_ & _ & Hm').
  destruct (Hm' t Ht) as [->|Hlow]; [assumption|].
  now apply (compare_lt_trans t L (family_tag B (n + 1))).
Qed.

Lemma release_latest (k : nat) (tags : list str) (B : str) (n : N) :
  valid_base B = true ->
  forallb git_tag_name (marker_tags tags) = true ->
  n + N.of_nat k < semver.MAX_SAFE_INTEGER ->
  latest_release tags B n ->
  forallb git_tag_name (marker_tags (release k tags B)) = true /\
  latest_release (release k tags B) B (n + N.of_nat k).
Proof.
  intros HB. revert tags n. induction k as [|k IH]; intros tags n Hn Hlt Hl.
  - simpl. rewrite N.add_0_r. now split.
  - cbn [release]. rewrite (resolveNext_latest_release tags B n HB Hn Hl).
    rewrite Nat2N.inj_succ in *.
    replace (n + N.succ (N.of_nat k)) with (n + 1 + N.of_nat k) by lia.
    apply IH.
    + rewrite marker_tags_cons_family. cbn [forallb].
      now rewrite family_tag_name.
    + lia.
    + apply latest_release_step; trivial. lia.
Qed.

(** X6: releases count up.  When the latest release of the base version has
    the counter [n], then after [k] more releases, each adding the tag the
    script computed, the script computes the counter [n + k + 1]. *)
Theorem successive_releases_count_up (k : nat) (tags : list str) (B : str) (n : N) :
  valid_base B = true ->
  forallb git_tag_name (marker_tags tags) = true ->
  n + N.of_nat k < semver.MAX_SAFE_INTEGER ->
  latest_release tags B n ->
  resolveNext (release k tags B) B =
  Ok (Some (B ++ lit "-bscotch." ++ print_N (n + N.of_nat k + 1)),
      family_tag B (n + N.of_nat k + 1)).
Proof.
  intros HB Hn Hlt Hl.
  destruct (release_latest k tags B n HB Hn Hlt Hl) as [Hn' Hl'].
  now apply resolveNext_latest_release.
Qed.

Lemma successive_releases_count_up_witness :
  resolveNext (release 3 [lit "v1.0.0-bscotch.8"; lit "v0.9.0-bscotch.20"] (lit "1.0.0"))
              (lit "1.0.0") =
  Ok (Some (lit "1.0.0-bscotch.12"), lit "v1.0.0-bscotch.12").
Proof.
  apply (successive_releases_count_up
           3 [lit "v1.0.0-bscotch.8"; lit "v0.9.0-bscotch.20"] (lit "1.0.0") 8).
  - reflexivity.
  - reflexivity.
  - reflexivity.
  - exists (lit "v1.0.0-bscotch.8"),
           (semver.mkSemVer 1 0 0 [bscotch; semver.PNum 8] []).
    split; [|repeat split].
    split; [vm_compute; auto|]. split; [vm_compute; discriminate|].
    intros t Ht. vm_compute in Ht.
    destruct Ht as [<-|[<-|[]]]; vm_compute; auto.
Defined.


(** ** [trim] gives a trimmed string *)

Lemma trimStart_shape (s : str) :
  trimStart s = [] \/ exists c r, trimStart s = c :: r /\ is_space c = false.
Proof.
  induction s as [|c s IH]; simpl; [now left|].
  destruct (is_space c) eqn:E; [exact IH|]. right. now exists c, s.
Qed.

Lemma trimStart_suffix (s : str) : exists ws, s = ws ++ trimStart s.
Proof.
  destruct (trimStart_decompose s) as [ws [H _]]. now exists ws.
Qed.

Lemma trim_shape (s : str) :
  trim s = [] \/
  exists c m1 m2 d, trim s = c :: m1 /\ trim s = m2 ++ [d] /\
                    is_space c = false /\ is_space d = false.
Proof.
  unfold trim.
  destruct (trimStart_shape s) as [E|(c & r & E & Hc)]; rewrite E; [now left|].
  destruct (trimStart_shape (rev (c :: r))) as [E'|(d & r' & E' & Hd)];
    rewrite E'; [now left|right].
  destruct (trimStart_suffix (rev (c :: r))) as [ws Hws]. rewrite E' in Hws.
  assert (Hrev : c :: r = rev r' ++ d :: rev ws).
  { rewrite <- (rev_involutive (c :: r)), Hws, rev_app_distr. simpl.
    now rewrite <- app_assoc. }
  change (rev (d :: r')) with (rev r' ++ [d]).
  destruct (rev r') as [|x m] eqn:Er.
  - exists d, [], [], d. now repeat split.
  - simpl in Hrev. inversion Hrev; subst x.
    exists c, (m ++ [d]), (c :: m), d. now repeat split.
Qed.

Lemma trim_idempotent (s : str) : trim (trim s) = trim s.
Proof.
  destruct (trim_shape s) as [E|(c & m1 & m2 & d & H1 & H2 & Hc & Hd)].
  - rewrite E. reflexivity.
  - rewrite <- (app_nil_r (trim s)) at 1.
    now apply (trim_spaces_after (trim s) [] m1 m2 c d).
Qed.

(** ** [run] *)

Section MachineFacts.
Variable World : Type.
Variable execSync : str -> World -> option str * World.
Variable packageJson : World -> option (str * str).
Variable writePackageJson : option str -> World -> World.
Variable existsSync : str -> World -> bool.
Variable writeFileSync : str -> str -> World -> World.

Local Notation "'run'" := (Orchestrator.run World execSync).
Local Notation "'run1'" := (Orchestrator.run1 World execSync).
Local Notation "'script'" :=
  (Orchestrator.script World execSync packageJson writePackageJson existsSync
                       writeFileSync).

Lemma run_cons (cmd : str) (cmds : list str) (s : World * list Orchestrator.event) :
  run (cmd :: cmds) s =
  match execSync cmd (fst s) with
  | (Some o, w) =>
      match run cmds (w, snd s ++ [Orchestrator.Log cmd; Orchestrator.Exec cmd (Some o)]) with
      | (inr out, s') => (inr (trim o :: out), s')
      | (inl e, s') => (inl e, s')
      end
  | (None, w) =>
      (inl (Orchestrator.ExecError cmd),
       (w, snd s ++ [Orchestrator.Log cmd; Orchestrator.Exec cmd None]))
  end.
Proof.
  cbn [Orchestrator.run]. unfold Orchestrator.bind, Orchestrator.emit,
                            Orchestrator.exec, Orchestrator.ret.
  cbn [fst snd]. destruct (execSync cmd (fst s)) as [[o|] w];
    rewrite <- app_assoc; reflexivity.
Qed.

Lemma run_ok (cmds : list str) (s s' : World * list Orchestrator.event)
      (outs : list str) :
  run cmds s = (inr outs, s') ->
  exists raws,
    List.length raws = List.length cmds /\ outs = map trim raws /\
    snd s' = snd s ++ Orchestrator.ran cmds raws.
Proof.
  revert s s' outs. induction cmds as [|c cmds IH]; intros s s' outs H.
  - inversion H; subst. exists []. repeat split. simpl. now rewrite app_nil_r.
  - rewrite run_cons in H.
    destruct (execSync c (fst s)) as [[o|] w]; [|discriminate].
    destruct (run cmds (w, snd s ++ [Orchestrator.Log c; Orchestrator.Exec c (Some o)]))
      as [[e|out] s1] eqn:E; [discriminate|].
    inversion H; subst. destruct (IH _ _ _ E) as (raws & Hl & Ho & Ht).
    exists (o :: raws). repeat split.
    + simpl. now rewrite Hl.
    + simpl. now rewrite Ho.
    + rewrite Ht. cbn [snd]. unfold Orchestrator.ran. simpl. now rewrite <- app_assoc.
Qed.

(** X7: when [run] returns, it has run every command, in order, and returns
    one output for each, trimmed. *)
Theorem run_returns_trimmed_outputs
        (cmds : list str) (s s' : World * list Orchestrator.event) (outs : list str) :
  run cmds s = (inr outs, s') ->
  List.length outs = List.length cmds /\
  Forall (fun o => trim o = o) outs /\
  exists raws, outs = map trim raws /\ snd s' = snd s ++ Orchestrator.ran cmds raws.
Proof.
  intros H. destruct (run_ok _ _ _ _ H) as (raws & Hl & Ho & Ht).
  split; [|split].
  - now rewrite Ho, length_map.
  - rewrite Ho. apply Forall_forall. intros o Hin.
    apply in_map_iff in Hin. destruct Hin as (r & <- & _).
    apply trim_idempotent.
  - now exists raws.
Qed.

(** X8: [run] stops at the first command that fails: the commands after it
    are not started, and the outputs of the commands before it are lost. *)
Theorem run_stops_at_first_failure
        (cmds1 cmds2 : list str) (c : str)
        (s s1 : World * list Orchestrator.event) (outs : list str) :
  run cmds1 s = (inr outs, s1) ->
  fst (execSync c (fst s1)) = None ->
  run (cmds1 ++ c :: cmds2) s =
  (inl (Orchestrator.ExecError c),
   (snd (execSync c (fst s1)),
    snd s1 ++ [Orchestrator.Log c; Orchestrator.Exec c None])).
Proof.
  revert s s1 outs. induction cmds1 as [|x cmds1 IH]; intros s s1 outs H Hc.
  - inversion H; subst. simpl app. rewrite run_cons.
    destruct (execSync c (fst s1)) as [[o|] w]; [discriminate|reflexivity].
  - simpl app. rewrite run_cons in *.
    destruct (execSync x (fst s)) as [[o|] w]; [|discriminate].
    destruct (run cmds1 (w, snd s ++ [Orchestrator.Log x; Orchestrator.Exec x (Some o)]))
      as [[e|out] s2] eqn:E; [discriminate|].
    inversion H; subst. now rewrite (IH _ _ _ E Hc).
Qed.

(** ** The script *)

Lemma run1_eq (cmd : str) (s : World * list Orchestrator.event) :
  run1 cmd s =
  match execSync cmd (fst s) with
  | (Some o, w) =>
      (inr (trim o),
       (w, snd s ++ [Orchestrator.Log cmd; Orchestrator.Exec cmd (Some o)]))
  | (None, w) =>
      (inl (Orchestrator.ExecError cmd),
       (w, snd s ++ [Orchestrator.Log cmd; Orchestrator.Exec cmd None]))
  end.
Proof.
  unfold Orchestrator.run1, Orchestrator.bind. rewrite run_cons.
  destruct (execSync cmd (fst s)) as [[o|] w]; reflexivity.
Qed.

(** X9: when [git status --porcelain] prints anything but white space, the
    script ends with the assertion error "Repo is not clean": nothing was
    logged or run but that one command. *)
Theorem dirty_repository_stops_the_script
        (w w' : World) (tr : list Orchestrator.event) (o : str) :
  execSync (lit "git status --porcelain") w = (Some o, w') ->
  trim o <> [] ->
  script (w, tr) =
  (inl (Orchestrator.AssertionError (lit "Repo is not clean")),
   (w', tr ++ [Orchestrator.Log (lit "git status --porcelain");
               Orchestrator.Exec (lit "git status --porcelain") (Some o)])).
Proof.
  intros He Ht. unfold Orchestrator.script.
  unfold Orchestrator.bind at 1. rewrite run1_eq. cbn [fst snd]. rewrite He.
  unfold Orchestrator.bind at 1. unfold Orchestrator.ok.
  replace (str_eqb (trim o) []) with false; [reflexivity|].
  symmetry. now apply str_eqb_false.
Qed.

Local Notation "'state'" := (World * list Orchestrator.event)%type.

Lemma bind_inv {A B : Type} (m : Orchestrator.M World A)
      (k : A -> Orchestrator.M World B) (s s' : state)
      (r : Orchestrator.exn + B) :
  Orchestrator.bind World m k s = (r, s') ->
  (exists e, m s = (inl e, s') /\ r = inl e) \/
  (exists a s1, m s = (inr a, s1) /\ k a s1 = (r, s')).
Proof.
  unfold Orchestrator.bind. destruct (m s) as [[e|a] s1]; intros H.
  - left. exists e. now inversion H.
  - right. now exists a, s1.
Qed.

Lemma run1_ok (cmd a : str) (s s1 : state) :
  run1 cmd s = (inr a, s1) ->
  exists o, a = trim o /\
            snd s1 = snd s ++ [Orchestrator.Log cmd; Orchestrator.Exec cmd (Some o)].
Proof.
  rewrite run1_eq. destruct (execSync cmd (fst s)) as [[o|] w]; [|discriminate].
  intros H. inversion H; subst. now exists o.
Qed.

Lemma run1_fail (cmd : str) (e : Orchestrator.exn) (s s' : state) :
  run1 cmd s = (inl e, s') ->
  e = Orchestrator.ExecError cmd /\
  snd s' = snd s ++ [Orchestrator.Log cmd; Orchestrator.Exec cmd None].
Proof.
  rewrite run1_eq. destruct (execSync cmd (fst s)) as [[o|] w]; [discriminate|].
  intros H. inversion H; subst. now split.
Qed.

Lemma run_fail (cmds : list str) (e : Orchestrator.exn) (s s' : state) :
  run cmds s = (inl e, s') ->
  exists pre c post raws,
    cmds = pre ++ c :: post /\ e = Orchestrator.ExecError c /\
    snd s' = snd s ++ Orchestrator.ran pre raws
             ++ [Orchestrator.Log c; Orchestrator.Exec c None].
Proof.
  revert s. induction cmds as [|x cmds IH]; intros s H; [discriminate|].
  rewrite run_cons in H. destruct (execSync x (fst s)) as [[o|] w].
  - destruct (run cmds (w, snd s ++ [Orchestrator.Log x; Orchestrator.Exec x (Some o)]))
      as [[e'|out] s2] eqn:E; [|discriminate].
    inversion H; subst. destruct (IH _ E) as (pre & c & post & raws & -> & -> & Ht).
    exists (x :: pre), c, post, (o :: raws). repeat split.
    rewrite Ht. cbn [snd]. unfold Orchestrator.ran. simpl.
    now rewrite <- !app_assoc.
  - inversion H; subst. exists [], x, cmds, []. repeat split.
Qed.

Lemma readPackageJson_ok (p : str * str) (s s1 : state) :
  Orchestrator.readPackageJson World packageJson s = (inr p, s1) ->
  snd s1 = snd s ++ [Orchestrator.ReadPackageJson true].
Proof.
  unfold Orchestrator.readPackageJson.
  destruct (packageJson (fst s)); intros H; inversion H; subst. reflexivity.
Qed.

Lemma readPackageJson_fail (e : Orchestrator.exn) (s s' : state) :
  Orchestrator.readPackageJson World packageJson s = (inl e, s') ->
  e = Orchestrator.ReadError /\
  snd s' = snd s ++ [Orchestrator.ReadPackageJson false].
Proof.
  unfold Orchestrator.readPackageJson.
  destruct (packageJson (fst s)); intros H; inversion H; subst. now split.
Qed.

Lemma getPackageField_ok (f : str * str -> str) (a : str) (s s1 : state) :
  Orchestrator.bind World (Orchestrator.readPackageJson World packageJson)
                    (fun p => Orchestrator.ret World (f p)) s = (inr a, s1) ->
  snd s1 = snd s ++ [Orchestrator.ReadPackageJson true].
Proof.
  intros H. apply bind_inv in H.
  destruct H as [(e & _ & E)|(p & s2 & Hm & Hk)]; [discriminate|].
  inversion Hk; subst. now apply readPackageJson_ok in Hm.
Qed.

Lemma getPackageField_fail (f : str * str -> str) (e : Orchestrator.exn) (s s' : state) :
  Orchestrator.bind World (Orchestrator.readPackageJson World packageJson)
                    (fun p => Orchestrator.ret World (f p)) s = (inl e, s') ->
  e = Orchestrator.ReadError /\
  snd s' = snd s ++ [Orchestrator.ReadPackageJson false].
Proof.
  intros H. apply bind_inv in H.
  destruct H as [(e' & Hm & E)|(p & s2 & Hm & Hk)]; [|discriminate].
  inversion E; subst. now apply readPackageJson_fail in Hm.
Qed.

Lemma setPackageJsonVersion_ok (v : option str) (s s1 : state) :
  Orchestrator.setPackageJsonVersion World packageJson writePackageJson v s
  = (inr tt, s1) ->
  snd s1 = snd s ++ [Orchestrator.ReadPackageJson true;
                     Orchestrator.WritePackageJson v].
Proof.
  unfold Orchestrator.setPackageJsonVersion. intros H. apply bind_inv in H.
  destruct H as [(e & _ & E)|(p & s2 & Hm & Hk)]; [discriminate|].
  apply readPackageJson_ok in Hm. inversion Hk; subst. cbn [snd].
  now rewrite Hm, <- app_assoc.
Qed.

Lemma setPackageJsonVersion_fail (v : option str) (e : Orchestrator.exn) (s s' : state) :
  Orchestrator.setPackageJsonVersion World packageJson writePackageJson v s
  = (inl e, s') ->
  e = Orchestrator.ReadError /\
  snd s' = snd s ++ [Orchestrator.ReadPackageJson false].
Proof.
  unfold Orchestrator.setPackageJsonVersion. intros H. apply bind_inv in H.
  destruct H as [(e' & Hm & E)|(p & s2 & Hm & Hk)]; [|discriminate].
  inversion E; subst. now apply readPackageJson_fail in Hm.
Qed.

Lemma getMaxMatchingTag_ok (pattern : str) (t : option str) (s s1 : state) :
  Orchestrator.getMaxMatchingTag World execSync pattern s = (inr t, s1) ->
  exists o, maxVersion (split newline (trim o)) = Ok t /\
            snd s1 = snd s ++ [Orchestrator.Log (lit "git tag --list " ++ pattern);
                               Orchestrator.Exec (lit "git tag --list " ++ pattern)
                                                 (Some o)].
Proof.
  unfold Orchestrator.getMaxMatchingTag, Orchestrator.getMatchingTags.
  intros H. apply bind_inv in H.
  destruct H as [(e & _ & E)|(l & s2 & Hm & Hk)]; [discriminate|].
  apply bind_inv in Hm.
  destruct Hm as [(e & _ & E)|(a & s3 & Hm & Hr)]; [discriminate|].
  inversion Hr; subst. apply run1_ok in Hm. destruct Hm as (o & -> & Ht).
  exists o. destruct (maxVersion (split newline (trim o))); inversion Hk; subst.
  now split.
Qed.

Lemma getMaxMatchingTag_fail (pattern : str) (e : Orchestrator.exn) (s s' : state) :
  Orchestrator.getMaxMatchingTag World execSync pattern s = (inl e, s') ->
  exists o, snd s' = snd s ++ [Orchestrator.Log (lit "git tag --list " ++ pattern);
                               Orchestrator.Exec (lit "git tag --list " ++ pattern) o]
            /\ (e = Orchestrator.ExecError (lit "git tag --list " ++ pattern)
                \/ e = Orchestrator.SemverTypeError).
Proof.
  unfold Orchestrator.getMaxMatchingTag, Orchestrator.getMatchingTags.
  intros H. apply bind_inv in H.
  destruct H as [(e' & Hm & E)|(l & s2 & Hm & Hk)].
  - inversion E; subst e'. apply bind_inv in Hm.
    destruct Hm as [(e' & Hm & E')|(a & s3 & Hm & Hr)]; [|discriminate].
    inversion E'; subst e'. apply run1_fail in Hm. destruct Hm as [-> Ht].
    exists None. split; [assumption|now left].
  - apply bind_inv in Hm.
    destruct Hm as [(e' & _ & E')|(a & s3 & Hm & Hr)]; [discriminate|].
    inversion Hr; subst. apply run1_ok in Hm. destruct Hm as (o & _ & Ht).
    exists (Some o). destruct (maxVersion (split newline a)); inversion Hk; subst.
    split; [assumption|now right].
Qed.

Lemma ok_ok (b : bool) (message : str) (a : unit) (s s1 : state) :
  Orchestrator.ok World b message s = (inr a, s1) -> b = true /\ s1 = s.
Proof.
  unfold Orchestrator.ok. destruct b; intros H; inversion H. now split.
Qed.

Lemma ok_fail (b : bool) (message : str) (e : Orchestrator.exn) (s s' : state) :
  Orchestrator.ok World b message s = (inl e, s') ->
  b = false /\ e = Orchestrator.AssertionError message /\ s' = s.
Proof.
  unfold Orchestrator.ok. destruct b; intros H; inversion H. now repeat split.
Qed.

Lemma fs_existsSync_ok (path : str) (b : bool) (s s1 : state) :
  Orchestrator.fs_existsSync World existsSync path s = (inr b, s1) ->
  snd s1 = snd s ++ [Orchestrator.ExistsSync path b].
Proof. unfold Orchestrator.fs_existsSync. intros H. now inversion H. Qed.

Lemma fs_existsSync_fail (path : str) (e : Orchestrator.exn) (s s' : state) :
  Orchestrator.fs_existsSync World existsSync path s = (inl e, s') -> False.
Proof. unfold Orchestrator.fs_existsSync. discriminate. Qed.

Lemma fs_writeFileSync_ok (path content : str) (a : unit) (s s1 : state) :
  Orchestrator.fs_writeFileSync World writeFileSync path content s = (inr a, s1) ->
  snd s1 = snd s ++ [Orchestrator.WriteFile path content].
Proof. unfold Orchestrator.fs_writeFileSync. intros H. now inversion H. Qed.

Lemma fs_writeFileSync_fail (path content : str) (e : Orchestrator.exn) (s s' : state) :
  Orchestrator.fs_writeFileSync World writeFileSync path content s = (inl e, s') ->
  False.
Proof. unfold Orchestrator.fs_writeFileSync. discriminate. Qed.

Lemma in_ran (ev : Orchestrator.event) (cmds raws : list str) :
  In ev (Orchestrator.ran cmds raws) ->
  exists c, In c cmds /\
            (ev = Orchestrator.Log c \/ exists o, ev = Orchestrator.Exec c (Some o)).
Proof.
  unfold Orchestrator.ran. revert raws.
  induction cmds as [|c cmds IH]; intros [|r raws]; simpl; try contradiction.
  intros [<-|[<-|H]].
  - exists c. split; [now left|now left].
  - exists c. split; [now left|right; now exists r].
  - destruct (IH raws H) as (c' & Hc & He). exists c'. split; [now right|assumption].
Qed.

Lemma app_three (pre post : list str) (c x y z : str) :
  [x; y; z] = pre ++ c :: post -> In c [x; y; z] /\ forall d, In d pre -> In d [x; y; z].
Proof.
  intros H. split.
  - rewrite H. apply in_or_app. right. now left.
  - intros d Hd. rewrite H. apply in_or_app. now left.
Qed.

(** One step of the script: the step fails and ends the script, or it
    succeeds and the script goes on; the events of the step are known. *)
Ltac script_step H :=
  let e := fresh "e" in let a := fresh "a" in let s := fresh "s" in
  let Hm := fresh "Hm" in let E := fresh "E" in
  cbv zeta in H;
  apply bind_inv in H;
  destruct H as [(e & Hm & E)|(a & s & Hm & H)];
  [ first
      [ apply run1_fail in Hm
      | apply run_fail in Hm
      | apply getPackageField_fail in Hm
      | apply setPackageJsonVersion_fail in Hm
      | apply getMaxMatchingTag_fail in Hm
      | apply ok_fail in Hm
      | apply fs_existsSync_fail in Hm
      | apply fs_writeFileSync_fail in Hm ]
  | first
      [ apply run1_ok in Hm
      | apply run_ok in Hm
      | apply getPackageField_ok in Hm
      | (destruct a; apply setPackageJsonVersion_ok in Hm)
      | apply getMaxMatchingTag_ok in Hm
      | apply ok_ok in Hm
      | apply fs_existsSync_ok in Hm
      | apply fs_writeFileSync_ok in Hm ] ].

(** The facts of the steps, as one equation for the trace. *)
Ltac trace_facts :=
  repeat match goal with
         | H : exists _, _ |- _ => destruct H
         | H : _ /\ _ |- _ => destruct H
         | H : False |- _ => contradiction
         | H : _ \/ _ |- _ => destruct H
         end;
  subst; cbn [snd fst] in *;
  repeat match goal with
         | H : snd ?s = _ |- _ => rewrite H in *; clear H
         end;
  cbn [snd fst] in *; subst;
  repeat match goal with
         | H : List.length ?l = List.length [_; _; _] |- _ =>
             destruct l as [|? [|? [|? [|? ?]]]]; try discriminate H; clear H
         | H : str_eqb _ _ = true |- _ => apply str_eqb_true in H
         | H : [_; _; _] = _ ++ _ :: _ |- _ =>
             let H1 := fresh "Hc" in let H2 := fresh "Hpre" in
             destruct (app_three _ _ _ _ _ _ H) as [H1 H2]; clear H
         end.

(** The cases of an event being in the trace. *)
Ltac event_cases :=
  repeat match goal with
         | H : In _ (_ ++ _) |- _ => apply in_app_or in H
         | H : In _ (_ :: _) |- _ => destruct H
         | H : In _ [] |- _ => contradiction H
         | H : _ \/ _ |- _ => destruct H
         | H : In _ (Orchestrator.ran _ _) |- _ =>
             let c := fresh "c" in
             apply in_ran in H; destruct H as (c & ? & ?)
         | H : exists _, _ |- _ => destruct H
         | H : forall d, In d ?pre -> _, H' : In _ ?pre |- _ => apply H in H'
         | H : Orchestrator.Exec _ _ = Orchestrator.Exec _ _ |- _ =>
             injection H; clear H; intros; subst
         | H : Orchestrator.Log _ = Orchestrator.Exec _ _ |- _ => discriminate H
         | H : Orchestrator.ReadPackageJson _ = Orchestrator.Exec _ _ |- _ =>
             discriminate H
         | H : Orchestrator.WritePackageJson _ = Orchestrator.Exec _ _ |- _ =>
             discriminate H
         | H : Orchestrator.ExistsSync _ _ = Orchestrator.Exec _ _ |- _ =>
             discriminate H
         | H : Orchestrator.WriteFile _ _ = Orchestrator.Exec _ _ |- _ =>
             discriminate H
         | H : _ = Orchestrator.Log _ |- _ => subst
         | H : _ = ?c |- _ => is_var c; subst c
         | H : ?c = _ |- _ => is_var c; subst c
         end.

Ltac in_trace :=
  cbn [app Orchestrator.ran combine map List.concat fst snd In];
  repeat (first [left; reflexivity | right]).

(** X10: package.json is restored exactly when the whole script succeeds.
    After a complete run [git checkout package.json] has succeeded; after a
    failure it has not, whatever was written to package.json before. *)
Theorem package_json_restored_only_by_a_complete_run
        (w w' : World) (r : Orchestrator.exn + unit) (tr : list Orchestrator.event) :
  script (w, []) = (r, (w', tr)) ->
  (r = inr tt ->
   exists o, In (Orchestrator.Exec Orchestrator.checkout (Some o)) tr) /\
  (forall e, r = inl e ->
   forall o, In (Orchestrator.Exec Orchestrator.checkout o) tr ->
             o = None /\ e = Orchestrator.ExecError Orchestrator.checkout).
Proof.
  intros H. unfold Orchestrator.script in H.
  do 17 (script_step H;
         [ solve [ trace_facts; (split; [intros Hr; discriminate Hr|]);
                   intros e' He o Hin; inversion He; subst;
                   event_cases; try discriminate; try (split; reflexivity) ] | ]).
  inversion H; subst. trace_facts. split; [|intros e' Hr; discriminate Hr].
  intros _. eexists. in_trace.
Qed.

(** X11: the tag is created only in a clean repository, after the build,
    after the version was written to package.json and after [npm pack] left
    an archive; the tag is [v] and the version written to package.json. *)
Theorem tag_created_only_after_pack
        (w w' : World) (r : Orchestrator.exn + unit) (tr : list Orchestrator.event)
        (c : str) (o : option str) :
  script (w, []) = (r, (w', tr)) ->
  In (Orchestrator.Exec c o) tr -> startsWith c (lit "git tag -a ") = true ->
  exists so bo v po path,
    In (Orchestrator.Exec (lit "git status --porcelain") (Some so)) tr /\
    trim so = [] /\
    In (Orchestrator.Exec (lit "yarn build") (Some bo)) tr /\
    In (Orchestrator.WritePackageJson v) tr /\
    c = Orchestrator.tag_command (lit "v" ++ template_value v) (template_value v) /\
    In (Orchestrator.Exec (lit "npm pack") (Some po)) tr /\
    In (Orchestrator.ExistsSync path true) tr.
Proof.
  intros H. revert c o. unfold Orchestrator.script, Orchestrator.checkout in H.
  do 17 (script_step H;
         [ solve [ trace_facts; intros c o Hin Hs; event_cases;
                   try discriminate;
                   try (vm_compute in Hs; discriminate Hs);
                   do 5 eexists; repeat split;
                   first [ eassumption | reflexivity | in_trace ] ] | ]).
  inversion H; subst. trace_facts. intros c o Hin Hs. event_cases;
    try discriminate; try (vm_compute in Hs; discriminate Hs);
    do 5 eexists; repeat split; first [ eassumption | reflexivity | in_trace ].
Qed.

(** X12: a complete run is one fixed sequence of steps.  The version written
    to package.json, the tag, the archive and the release all come from the
    one version [semver.inc] gives for the anchor, the anchor being computed
    from the greatest of the listed marker tags; the repository was clean. *)
Theorem complete_run_trace (w w' : World) (tr : list Orchestrator.event) :
  script (w, []) = (inr tt, (w', tr)) ->
  exists baseVersion latest name globalLatestTag outs,
    tr = Orchestrator.complete_trace
           (semver.inc (anchor_of baseVersion latest) (lit "bscotch"))
           name globalLatestTag outs /\
    List.length outs = 12%nat /\
    trim (nth 0 outs []) = [] /\
    maxVersion (split newline (trim (nth 5 outs []))) = Ok latest /\
    maxVersion (split newline (trim (nth 7 outs []))) = Ok globalLatestTag.
Proof.
  intros H. unfold Orchestrator.script, Orchestrator.checkout in H.
  do 17 (script_step H; [ solve [ trace_facts; discriminate ] | ]).
  inversion H; subst. trace_facts.
  match goal with
  | |- context [Orchestrator.WritePackageJson
                  (semver.inc (anchor_of ?b ?l) _)] =>
      match goal with
      | |- context [Orchestrator.ExistsSync (?n ++ _) _] =>
          match goal with
          | |- context [Orchestrator.template_string ?g] =>
              exists b, l, n, g
          end
      end
  end.
  eexists [_; _; _; _; _; _; _; _; _; _; _; _].
  split; [reflexivity|]. repeat split; assumption.
Qed.
(** *** The script and the resolution of the next tag *)

Lemma getPackageJsonVersion_value (a : str) (s s1 : state) :
  Orchestrator.getPackageJsonVersion World packageJson s = (inr a, s1) ->
  exists p, packageJson (fst s) = Some p /\ a = fst p /\
            snd s1 = snd s ++ [Orchestrator.ReadPackageJson true].
Proof.
  unfold Orchestrator.getPackageJsonVersion, Orchestrator.bind,
         Orchestrator.readPackageJson, Orchestrator.ret.
  destruct (packageJson (fst s)) as [p|]; intros H; inversion H; subst.
  exists p. repeat split.
Qed.

Lemma getMaxMatchingTag_value (pattern : str) (t : option str) (s s1 : state) :
  Orchestrator.getMaxMatchingTag World execSync pattern s = (inr t, s1) ->
  exists o, fst (execSync (lit "git tag --list " ++ pattern) (fst s)) = Some o /\
            maxVersion (split newline (trim o)) = Ok t /\
            snd s1 = snd s ++ [Orchestrator.Log (lit "git tag --list " ++ pattern);
                               Orchestrator.Exec (lit "git tag --list " ++ pattern)
                                                 (Some o)].
Proof.
  unfold Orchestrator.getMaxMatchingTag, Orchestrator.getMatchingTags.
  intros H. apply bind_inv in H.
  destruct H as [(e & _ & E)|(l & s2 & Hm & Hk)]; [discriminate|].
  apply bind_inv in Hm.
  destruct Hm as [(e & _ & E)|(a & s3 & Hm & Hr)]; [discriminate|].
  inversion Hr; subst. rewrite run1_eq in Hm.
  destruct (execSync (lit "git tag --list " ++ pattern) (fst s)) as [[o|] w0];
    [|discriminate].
  inversion Hm; subst. exists o.
  destruct (maxVersion (split newline (trim o))); inversion Hk; subst.
  repeat split.
Qed.

(** The cases of a write to package.json being in the trace. *)
Ltac write_cases :=
  repeat match goal with
         | H : In _ (_ ++ _) |- _ => apply in_app_or in H
         | H : In _ (_ :: _) |- _ => destruct H
         | H : In _ [] |- _ => contradiction H
         | H : _ \/ _ |- _ => destruct H
         | H : In _ (Orchestrator.ran _ _) |- _ =>
             let c := fresh "c" in
             apply in_ran in H; destruct H as (c & ? & ?)
         | H : exists _, _ |- _ => destruct H
         | H : _ = Orchestrator.WritePackageJson _ |- _ =>
             first [ discriminate H | injection H; clear H; intros; subst ]
         | H : Orchestrator.WritePackageJson _ = _ |- _ => discriminate H
         end.

Lemma run1_world (cmd a : str) (s s1 : state) :
  run1 cmd s = (inr a, s1) -> fst s1 = snd (execSync cmd (fst s)).
Proof.
  rewrite run1_eq. destruct (execSync cmd (fst s)) as [[o|] w0]; [|discriminate].
  intros H. now inversion H.
Qed.

Lemma run_world (cmds outs : list str) (s s1 : state) :
  run cmds s = (inr outs, s1) -> fst s1 = world_after execSync cmds (fst s).
Proof.
  revert s outs. induction cmds as [|x cmds IH]; intros s outs H.
  - now inversion H.
  - rewrite run_cons in H. cbn [world_after].
    destruct (execSync x (fst s)) as [[o|] w0]; [|discriminate].
    destruct (run cmds (w0, snd s ++ [Orchestrator.Log x; Orchestrator.Exec x (Some o)]))
      as [[e|out] s2] eqn:E; [discriminate|].
    inversion H; subst. now rewrite (IH _ _ E).
Qed.

(** X14: the script writes to package.json the version of the resolution.
    When package.json holds the version [B] at the time line 25 reads it,
    after the commands of lines 17-22, and the listing of line 26 printed
    the marker tags of [tags], whatever the script writes to package.json
    is the next version that [resolveNext] gives for [tags] and [B]; when
    the resolution throws, nothing is written.  The commands may change the
    world as they like. *)
Theorem script_writes_the_resolved_version
        (tags : list str) (B name : str)
        (w w' : World) (r : Orchestrator.exn + unit) (tr : list Orchestrator.event)
        (v : option str) :
  packageJson (world_after execSync commands_before_read w) = Some (B, name) ->
  script (w, []) = (r, (w', tr)) ->
  (forall o, In (Orchestrator.Exec (lit "git tag --list " ++ lit "v*-bscotch.*")
                                   (Some o)) tr ->
             o = git_tag_list tags (lit "v*-bscotch.*")) ->
  In (Orchestrator.WritePackageJson v) tr ->
  resolveNext tags B = Ok (v, lit "v" ++ template_value v).
Proof.
  intros HB H. unfold Orchestrator.script, Orchestrator.checkout in H.
  (* line 17 *)
  apply bind_inv in H.
  destruct H as [(e1 & H1 & E1)|(gitStatus & s1 & H1 & H)].
  { apply run1_fail in H1. trace_facts. intros Hgit Hin. write_cases. }
  pose proof (run1_world _ _ _ _ H1) as W1. apply run1_ok in H1.
  (* line 18 *)
  apply bind_inv in H.
  destruct H as [(e2 & H2 & E2)|(u2 & s2 & H2 & H)].
  { apply ok_fail in H2. trace_facts. intros Hgit Hin. write_cases. }
  apply ok_ok in H2. destruct H2 as [_ ->].
  (* line 20 *)
  apply bind_inv in H.
  destruct H as [(e3 & H3 & E3)|(u3 & s3 & H3 & H)].
  { apply run1_fail in H3. trace_facts. intros Hgit Hin. write_cases. }
  pose proof (run1_world _ _ _ _ H3) as W3. apply run1_ok in H3.
  (* line 22 *)
  apply bind_inv in H.
  destruct H as [(e4 & H4 & E4)|(u4 & s4 & H4 & H)].
  { apply run_fail in H4. trace_facts; intros Hgit Hin; write_cases. }
  pose proof (run_world _ _ _ _ H4) as W4. apply run_ok in H4.
  (* line 25 *)
  apply bind_inv in H.
  destruct H as [(e5 & H5 & E5)|(baseVersion & s5 & H5 & H)].
  { apply getPackageField_fail in H5. trace_facts. intros Hgit Hin. write_cases. }
  apply getPackageJsonVersion_value in H5.
  destruct H5 as (p & Hp & -> & Hs5).
  assert (Hw : fst s4 = world_after execSync commands_before_read w).
  { rewrite W4, W3, W1. reflexivity. }
  rewrite Hw, HB in Hp. inversion Hp; subst p. cbn [fst] in H.
  clear W1 W3 W4 Hw Hp HB.
  (* line 26 *)
  apply bind_inv in H.
  destruct H as [(e6 & H6 & E6)|(latest & s6 & H6 & H)].
  { apply getMaxMatchingTag_fail in H6. trace_facts; intros Hgit Hin; write_cases. }
  apply getMaxMatchingTag_value in H6.
  destruct H6 as (o & _ & Hmax & Hs6).
  assert (R : o = git_tag_list tags (lit "v*-bscotch.*") ->
              resolveNext tags B =
              Ok (semver.inc (anchor_of B latest) (lit "bscotch"),
                  lit "v" ++ template_value
                               (semver.inc (anchor_of B latest) (lit "bscotch")))).
  { intros ->. unfold resolveNext, latestTag, getMaxMatchingTag, getMatchingTags,
                      run_git_tag_list. now rewrite Hmax. }
  clear Hmax.
  (* lines 32-56 *)
  do 11 (script_step H;
         [ solve [ trace_facts; intros Hgit Hin; write_cases;
                   apply R; apply Hgit; in_trace ] | ]).
  inversion H; subst. trace_facts. intros Hgit Hin. write_cases.
  apply R. apply Hgit. in_trace.
Qed.
End MachineFacts.


Lemma run_returns_trimmed_outputs_witness :
  List.length [@nil ascii; @nil ascii] = List.length [lit "git pull --rebase --tags"; lit "npm pack"] /\
  Forall (fun o => trim o = o) [@nil ascii; @nil ascii] /\
  exists raws,
    [@nil ascii; @nil ascii] = map trim raws /\
    [Orchestrator.Log (lit "git pull --rebase --tags");
     Orchestrator.Exec (lit "git pull --rebase --tags") (Some []);
     Orchestrator.Log (lit "npm pack");
     Orchestrator.Exec (lit "npm pack") (Some [])] =
    [] ++ Orchestrator.ran [lit "git pull --rebase --tags"; lit "npm pack"] raws.
Proof.
  apply (run_returns_trimmed_outputs
           unit Demo.execSync
           [lit "git pull --rebase --tags"; lit "npm pack"]
           (tt, [])
           (tt, [Orchestrator.Log (lit "git pull --rebase --tags");
                 Orchestrator.Exec (lit "git pull --rebase --tags") (Some []);
                 Orchestrator.Log (lit "npm pack");
                 Orchestrator.Exec (lit "npm pack") (Some [])])
           [@nil ascii; @nil ascii]).
  reflexivity.
Defined.

Lemma run_stops_at_first_failure_witness :
  Orchestrator.run unit Demo.execSync_broken
    ([lit "rm -rf node_modules dist"; lit "yarn --frozen-lockfile"]
     ++ lit "yarn build" :: [lit "npm pack"]) (tt, []) =
  (inl (Orchestrator.ExecError (lit "yarn build")),
   (tt,
    [Orchestrator.Log (lit "rm -rf node_modules dist");
     Orchestrator.Exec (lit "rm -rf node_modules dist") (Some []);
     Orchestrator.Log (lit "yarn --frozen-lockfile");
     Orchestrator.Exec (lit "yarn --frozen-lockfile") (Some [])]
    ++ [Orchestrator.Log (lit "yarn build");
        Orchestrator.Exec (lit "yarn build") None])).
Proof.
  apply (run_stops_at_first_failure
           unit Demo.execSync_broken
           [lit "rm -rf node_modules dist"; lit "yarn --frozen-lockfile"]
           [lit "npm pack"] (lit "yarn build") (tt, [])
           (tt, [Orchestrator.Log (lit "rm -rf node_modules dist");
                 Orchestrator.Exec (lit "rm -rf node_modules dist") (Some []);
                 Orchestrator.Log (lit "yarn --frozen-lockfile");
                 Orchestrator.Exec (lit "yarn --frozen-lockfile") (Some [])])
           [[]; []]).
  - reflexivity.
  - reflexivity.
Defined.

Lemma dirty_repository_stops_the_script_witness :
  Orchestrator.script unit Demo.execSync_dirty Demo.packageJson
    Demo.writePackageJson Demo.existsSync Demo.writeFileSync (tt, []) =
  (inl (Orchestrator.AssertionError (lit "Repo is not clean")),
   (tt, [] ++ [Orchestrator.Log (lit "git status --porcelain");
               Orchestrator.Exec (lit "git status --porcelain")
                                 (Some (lit " M package.json" ++ [newline]))])).
Proof.
  apply (dirty_repository_stops_the_script
           unit Demo.execSync_dirty Demo.packageJson Demo.writePackageJson
           Demo.existsSync Demo.writeFileSync tt tt []
           (lit " M package.json" ++ [newline])).
  - reflexivity.
  - vm_compute. discriminate.
Defined.

Lemma package_json_restored_only_by_a_complete_run_witness :
  (fst Demo.outcome = inr tt ->
   exists o, In (Orchestrator.Exec Orchestrator.checkout (Some o))
                (snd (snd Demo.outcome))) /\
  (forall e, fst Demo.outcome = inl e ->
   forall o, In (Orchestrator.Exec Orchestrator.checkout o) (snd (snd Demo.outcome)) ->
             o = None /\ e = Orchestrator.ExecError Orchestrator.checkout).
Proof.
  apply (package_json_restored_only_by_a_complete_run
           unit Demo.execSync Demo.packageJson Demo.writePackageJson
           Demo.existsSync Demo.writeFileSync tt (fst (snd Demo.outcome))).
  vm_compute. reflexivity.
Defined.

Lemma tag_created_only_after_pack_witness :
  exists so bo v po path,
    In (Orchestrator.Exec (lit "git status --porcelain") (Some so))
       (snd (snd Demo.outcome)) /\
    trim so = [] /\
    In (Orchestrator.Exec (lit "yarn build") (Some bo)) (snd (snd Demo.outcome)) /\
    In (Orchestrator.WritePackageJson v) (snd (snd Demo.outcome)) /\
    Orchestrator.tag_command (lit "v1.0.0-bscotch.2") (lit "1.0.0-bscotch.2") =
      Orchestrator.tag_command (lit "v" ++ template_value v) (template_value v) /\
    In (Orchestrator.Exec (lit "npm pack") (Some po)) (snd (snd Demo.outcome)) /\
    In (Orchestrator.ExistsSync path true) (snd (snd Demo.outcome)).
Proof.
  apply (tag_created_only_after_pack
           unit Demo.execSync Demo.packageJson Demo.writePackageJson
           Demo.existsSync Demo.writeFileSync tt (fst (snd Demo.outcome))
           (fst Demo.outcome) (snd (snd Demo.outcome))
           (Orchestrator.tag_command (lit "v1.0.0-bscotch.2") (lit "1.0.0-bscotch.2"))
           (Some [])).
  - vm_compute. reflexivity.
  - vm_compute. tauto.
  - reflexivity.
Defined.

Lemma complete_run_trace_witness :
  exists baseVersion latest name globalLatestTag outs,
    snd (snd Demo.outcome) =
      Orchestrator.complete_trace
        (semver.inc (anchor_of baseVersion latest) (lit "bscotch"))
        name globalLatestTag outs /\
    List.length outs = 12%nat /\
    trim (nth 0 outs []) = [] /\
    maxVersion (split newline (trim (nth 5 outs []))) = Ok latest /\
    maxVersion (split newline (trim (nth 7 outs []))) = Ok globalLatestTag.
Proof.
  apply (complete_run_trace
           unit Demo.execSync Demo.packageJson Demo.writePackageJson
           Demo.existsSync Demo.writeFileSync tt (fst (snd Demo.outcome))).
  vm_compute. reflexivity.
Defined.

(** ** What [getMaxMatchingTag] never returns *)

(** X13: whatever [git tag --list] prints, [maxVersion] of its lines throws
    or returns one of the lines: [getMaxMatchingTag] never returns
    [undefined], so the test [!latestTag] of line 27 is for the empty
    string. *)
Theorem getMaxMatchingTag_never_undefined (o : str) :
  maxVersion (split newline (trim o)) = TypeError \/
  exists t, maxVersion (split newline (trim o)) = Ok (Some t) /\
            In t (split newline (trim o)).
Proof.
  unfold maxVersion.
  destruct (sort semver.compare (split newline (trim o))) as [r|] eqn:Hs;
    [right|now left].
  pose proof (sort_perm _ _ _ Hs) as P.
  destruct r as [|x r].
  - apply Permutation_nil in P. now apply split_not_nil in P.
  - exists (last (x :: r) []). split; [reflexivity|].
    eapply Permutation_in; [exact P|].
    apply last_elt_in. reflexivity.
Qed.

Lemma script_writes_the_resolved_version_witness :
  resolveNext (Repo.tags Repo.initial) (lit "1.0.0") =
  Ok (Some (lit "1.0.0-bscotch.2"), lit "v" ++ template_value (Some (lit "1.0.0-bscotch.2"))).
Proof.
  apply (script_writes_the_resolved_version
           Repo.World Repo.execSync Repo.packageJson Repo.writePackageJson
           Repo.existsSync Repo.writeFileSync
           (Repo.tags Repo.initial) (lit "1.0.0") (lit "ts-json-schema-generator")
           Repo.initial (fst (snd Repo.outcome)) (fst Repo.outcome)
           (snd (snd Repo.outcome))).
  - reflexivity.
  - vm_compute. reflexivity.
  - intros o Hin. vm_compute in Hin.
    repeat (destruct Hin as [Hin|Hin]; [try discriminate Hin|]);
      [|contradiction Hin].
    inversion Hin. vm_compute. reflexivity.
  - vm_compute. tauto.
Defined.
